(** * Lexical search of sweepai: tokenizer, n-grams, inverted index, BM25

    A shallow embedding of [sweepai/core/lexical_search.py].

    Conventions of the embedding.
    - Python [str] is modelled by Rocq [string].  The character classes
      and [lower()] are those of ASCII text ([isascii] below); for a
      character above 127 Python's Unicode tables decide [\w] and [lower()],
      which are not modelled, and [lower()] can then change the length of a
      string.
    - Python [int] is [Z] where the value is stored in the index and [nat]
      where it is a length or an offset computed by the tokenizer.
    - Python [float] is read twice.  The index, the search and the
      orchestrator are written over the real numbers ([R]): the arithmetic of
      the source taken exactly, without rounding, infinities or NaN;
      [math.log] is [ln] on its domain and raises [ValueError] outside, float
      division raises [ZeroDivisionError] on a zero divisor.  The module
      [Binary64] gives [bm25] and the insertion into the index in IEEE 754
      double precision, as the interpreter computes them, with the
      conversion of [int] operands and its [OverflowError].
    - The three dictionaries of the index ([inverted_index], [doc_lengths],
      [metadata]) are only read by key, by size and by the sum of their
      values, so they are finite maps ([gmap]).  The dictionaries [scores]
      and [res] are iterated, and their iteration order decides the order of
      the answer, so they are insertion-ordered association lists.
    - A Python exception is a value of [exn]; code that may raise returns a
      [result]. *)

From Stdlib Require Import Reals Lra Lia ZArith List Sorted Permutation.
From Stdlib Require Import Ascii String DecimalString.
From Stdlib Require Floats.
From stdpp Require Import gmap strings list fin_maps.

Import ListNotations.
Local Open Scope string_scope.
Local Open Scope list_scope.

(** ** Python runtime: exceptions and results *)

(** The exception classes that matter to the handlers of this module.
    [SystemExit], [KeyboardInterrupt] and [GeneratorExit] derive from
    [BaseException] directly; every other class here derives from
    [Exception] ([ZeroDivisionError] and [OverflowError] through
    [ArithmeticError]). *)
Inductive exn : Type :=
| SystemExit
| KeyboardInterrupt
| GeneratorExit
| FileNotFoundError
| KeyError
| ZeroDivisionError
| ValueError
| OverflowError
| OtherException (name : string).

(** [isinstance(e, Exception)] *)
Definition isinstance_Exception (e : exn) : bool :=
  match e with
  | SystemExit | KeyboardInterrupt | GeneratorExit => false
  | _ => true
  end.

Inductive result (A : Type) : Type :=
| Ok (a : A)
| Raise (e : exn).
Arguments Ok {A} a.
Arguments Raise {A} e.

Definition bind {A B} (m : result A) (f : A -> result B) : result B :=
  match m with
  | Ok a => f a
  | Raise e => Raise e
  end.

Notation "x <- m ;; k" := (bind m (fun x => k))
  (at level 100, m at next level, right associativity).

(** A [for] loop whose body may raise, threading the loop state. *)
Fixpoint foldM {S A} (body : S -> A -> result S) (l : list A) (s : S) : result S :=
  match l with
  | [] => Ok s
  | a :: l' => s' <- body s a ;; foldM body l' s'
  end.

(** A list comprehension / dict comprehension whose element expression may raise. *)
Fixpoint mapM {A B} (f : A -> result B) (l : list A) : result (list B) :=
  match l with
  | [] => Ok []
  | a :: l' => b <- f a ;; bs <- mapM f l' ;; Ok (b :: bs)
  end.

(** Float division [x / y]. *)
Definition py_div (x y : R) : result R :=
  if Req_dec_T y 0 then Raise ZeroDivisionError else Ok (x / y)%R.

(** [math.log(x)] *)
Definition py_log (x : R) : result R :=
  if Rlt_dec 0 x then Ok (ln x) else Raise ValueError.

(** ** Strings *)

Definition is_upper (c : ascii) : bool :=
  let n := nat_of_ascii c in (65 <=? n)%nat && (n <=? 90)%nat.
Definition is_lower (c : ascii) : bool :=
  let n := nat_of_ascii c in (97 <=? n)%nat && (n <=? 122)%nat.
Definition is_digit (c : ascii) : bool :=
  let n := nat_of_ascii c in (48 <=? n)%nat && (n <=? 57)%nat.
(** [\w] on ASCII text: letters, digits and the underscore. *)
Definition is_word (c : ascii) : bool :=
  is_upper c || is_lower c || is_digit c || Ascii.eqb c "_".

(** [c.lower()] on an ASCII character. *)
Definition lower_char (c : ascii) : ascii :=
  if is_upper c then ascii_of_nat (nat_of_ascii c + 32) else c.

(** [s.isascii()] *)
Definition isascii (s : string) : bool :=
  forallb (fun c => (nat_of_ascii c <? 128)%nat) (list_ascii_of_string s).

(** [s.lower()] *)
Fixpoint lower (s : string) : string :=
  match s with
  | EmptyString => EmptyString
  | String c t => String (lower_char c) (lower t)
  end.

(** [s[start:stop]] for [0 <= start <= stop]. *)
Definition slice (s : string) (start stop : nat) : string :=
  substring start (stop - start) s.

(** ["_" in s] *)
Fixpoint contains_char (c : ascii) (s : string) : bool :=
  match s with
  | EmptyString => false
  | String d t => Ascii.eqb c d || contains_char c t
  end.

(** [s.split(c)] for a one-character separator: empty parts are kept. *)
Fixpoint split_char (c : ascii) (s : string) : list string :=
  match s with
  | EmptyString => [EmptyString]
  | String d t =>
      if Ascii.eqb c d then EmptyString :: split_char c t
      else match split_char c t with
           | [] => [String d EmptyString]
           | p :: ps => String d p :: ps
           end
  end.

(** [str(n)] for an integer. *)
Definition str_of_Z (n : Z) : string := NilZero.string_of_int (Z.to_int n).

(** ** Regular expressions

    The fragment of [re] that the two patterns of the module use, with
    Python's backtracking semantics: alternatives are tried left to right,
    [+] is greedy and gives characters back when the rest fails. *)
Inductive regex : Type :=
| Cls (p : ascii -> bool)      (* a character class, [\w] included *)
| Plus (p : ascii -> bool)     (* [c+] for a character class [c] *)
| Seq (r1 r2 : regex)
| Alt (r1 r2 : regex)
| Ahead (r : regex)            (* [(?=r)] *)
| Eos                          (* [$] *)
| WordB.                       (* [\b] *)

(** A position of the matcher: the character before it, its offset, and the
    text that remains. *)
Record cursor : Type := Cursor {
  c_prev : option ascii;
  c_off : nat;
  c_rest : string
}.

Definition prev_is_word (p : option ascii) : bool :=
  match p with Some c => is_word c | None => false end.
Definition next_is_word (s : string) : bool :=
  match s with String c _ => is_word c | EmptyString => false end.

Fixpoint greedy (p : ascii -> bool) (prev : option ascii) (off : nat) (s : string)
  (k : cursor -> option cursor) : option cursor :=
  match s with
  | String c t =>
      if p c then
        match greedy p (Some c) (S off) t k with
        | Some e => Some e
        | None => k (Cursor (Some c) (S off) t)
        end
      else None
  | EmptyString => None
  end.

Fixpoint rmatch (r : regex) (cur : cursor) (k : cursor -> option cursor) : option cursor :=
  match r with
  | Cls p =>
      match c_rest cur with
      | String c t => if p c then k (Cursor (Some c) (S (c_off cur)) t) else None
      | EmptyString => None
      end
  | Plus p => greedy p (c_prev cur) (c_off cur) (c_rest cur) k
  | Seq r1 r2 => rmatch r1 cur (fun cur' => rmatch r2 cur' k)
  | Alt r1 r2 =>
      match rmatch r1 cur k with
      | Some e => Some e
      | None => rmatch r2 cur k
      end
  | Ahead r1 =>
      match rmatch r1 cur Some with
      | Some _ => k cur
      | None => None
      end
  | Eos =>
      match c_rest cur with
      | EmptyString => k cur
      | String c EmptyString => if Ascii.eqb c "010" then k cur else None
      | _ => None
      end
  | WordB =>
      if xorb (prev_is_word (c_prev cur)) (next_is_word (c_rest cur))
      then k cur else None
  end.

(** [pattern.finditer(s)]: the spans [(start, end)] of the successive
    non-overlapping matches, scanning left to right.  The fuel bounds the
    number of scanning steps; [String.length s + 1] is always enough since
    each step moves forward. *)
Fixpoint finditer_from (fuel : nat) (r : regex) (cur : cursor) : list (nat * nat) :=
  match fuel with
  | O => []
  | S fuel' =>
      match rmatch r cur Some with
      | Some e =>
          if (c_off e =? c_off cur)%nat then
            (c_off cur, c_off e) ::
            match c_rest cur with
            | String c t => finditer_from fuel' r (Cursor (Some c) (S (c_off cur)) t)
            | EmptyString => []
            end
          else (c_off cur, c_off e) :: finditer_from fuel' r e
      | None =>
          match c_rest cur with
          | String c t => finditer_from fuel' r (Cursor (Some c) (S (c_off cur)) t)
          | EmptyString => []
          end
      end
  end.

Definition finditer (r : regex) (s : string) : list (nat * nat) :=
  finditer_from (S (String.length s)) r (Cursor None 0 s).

(** [pattern.findall(s)] for a pattern whose only group is the whole match. *)
Definition findall (r : regex) (s : string) : list string :=
  map (fun '(a, b) => slice s a b) (finditer r s).

(** [word_pattern = re.compile(r"\b\w+\b")] *)
Definition word_pattern : regex := Seq WordB (Seq (Plus is_word) WordB).

(** [variable_pattern = re.compile(r"([A-Z][a-z]+|[a-z]+|[A-Z]+(?=[A-Z]|$))")] *)
Definition variable_pattern : regex :=
  Alt (Seq (Cls is_upper) (Plus is_lower))
      (Alt (Plus is_lower)
           (Seq (Plus is_upper) (Ahead (Alt (Cls is_upper) Eos)))).

(** ** Tokens *)

(** [whoosh.analysis.Token] with the keyword arguments this module sets. *)
Record Token : Type := mkToken {
  text : string;
  pos : nat;
  startchar : nat;
  end_pos : nat;
  endchar : nat
}.

(** [check_valid_token]: [token and len(token) > 1] *)
Definition check_valid_token (token : string) : bool :=
  (1 <? String.length token)%nat.

(** The state of the loops of [tokenize_call]: the next [pos], the running
    [offset] inside the current match, and [valid_tokens]. *)
Record tok_state : Type := TokState {
  ts_pos : nat;
  ts_offset : nat;
  ts_valid : list Token
}.

(** One iteration of the loops over [part]; [sep] is what is added to
    [offset] besides [len(part)]: 1 in the snake-case loop, 0 in the
    camel-case loop. *)
Definition part_step (span_start sep : nat) (st : tok_state) (part : string) : tok_state :=
  let st' :=
    if check_valid_token part then
      TokState (ts_pos st + 1) (ts_offset st)
        (ts_valid st ++
           [mkToken (lower part) (ts_pos st) (span_start + ts_offset st)
              (ts_pos st + 1) (span_start + String.length part + ts_offset st)])
    else st in
  TokState (ts_pos st') (ts_offset st' + String.length part + sep) (ts_valid st').

(** The body of [for m in matches]. *)
Definition match_step (code : string) (st : tok_state) (m : nat * nat) : tok_state :=
  let txt := slice code (fst m) (snd m) in
  let span_start := fst m in
  if contains_char "_" txt then
    fold_left (part_step span_start 1) (split_char "_" txt)
      (TokState (ts_pos st) 0 (ts_valid st))
  else
    match findall variable_pattern txt with
    | (_ :: _) as parts =>
        fold_left (part_step span_start 0) parts (TokState (ts_pos st) 0 (ts_valid st))
    | [] =>
        if check_valid_token txt then
          TokState (ts_pos st + 1) (ts_offset st)
            (ts_valid st ++
               [mkToken (lower txt) (ts_pos st) span_start (ts_pos st + 1)
                  (span_start + String.length txt)])
        else st
    end.

Definition tokenize_call (code : string) : list Token :=
  ts_valid (fold_left (match_step code) (finditer word_pattern code) (TokState 0 0 [])).

(** The state of the loop of [construct_bigrams]: [res] and [prev_token]. *)
Definition bigram_step (st : list Token * option Token) (token : Token)
  : list Token * option Token :=
  let '(res, prev_token) := st in
  match prev_token with
  | Some p =>
      (res ++ [mkToken (text p ++ "_" ++ text token) (pos p) (startchar p)
                 (end_pos token) (endchar token)],
       Some token)
  | None => (res, Some token)
  end.

Definition construct_bigrams (tokens : list Token) : list Token :=
  fst (fold_left bigram_step tokens ([], None)).

(** The state of the loop of [construct_trigrams]: [res], [prev_prev_token]
    and [prev_token]. *)
Definition trigram_step (st : list Token * option Token * option Token) (token : Token)
  : list Token * option Token * option Token :=
  let '(res, prev_prev_token, prev_token) := st in
  match prev_token, prev_prev_token with
  | Some p, Some pp =>
      (res ++ [mkToken (text pp ++ "_" ++ text p ++ "_" ++ text token) (pos pp)
                 (startchar pp) (end_pos token) (endchar token)],
       prev_token, Some token)
  | _, _ => (res, prev_token, Some token)
  end.

Definition construct_trigrams (tokens : list Token) : list Token :=
  fst (fst (fold_left trigram_step tokens ([], None, None))).

(** [CodeTokenizer.__call__]: the tokens the generator yields, in order. *)
Definition CodeTokenizer (value : string) : list Token :=
  let tokens := tokenize_call value in
  let bigrams := construct_bigrams tokens in
  let trigrams := construct_trigrams tokens in
  tokens ++ bigrams ++ trigrams.

(** The undecorated body of [compute_document_tokens]. *)
Definition document_tokens (content : string) : list string :=
  map text (CodeTokenizer content).

(** ** The inverted index *)

(** Caller-supplied metadata: an opaque dictionary, [{}] by default. *)
Definition Metadata : Type := list (string * string).

(** [Counter(tokens)]: the distinct tokens in order of first occurrence,
    each with its number of occurrences. *)
Fixpoint counter_add (token : string) (c : list (string * Z)) : list (string * Z) :=
  match c with
  | [] => [(token, 1%Z)]
  | (k, n) :: rest =>
      if String.eqb k token then (k, (n + 1)%Z) :: rest
      else (k, n) :: counter_add token rest
  end.

Definition Counter (tokens : list string) : list (string * Z) :=
  fold_left (fun c token => counter_add token c) tokens [].

(** [scores[doc_id] += v] on a [defaultdict(float)]: a missing key is first
    created with 0.0 at the end of the dictionary. *)
Fixpoint scores_add (scores : list (string * R)) (doc_id : string) (v : R)
  : list (string * R) :=
  match scores with
  | [] => [(doc_id, (0 + v)%R)]
  | (d, s) :: rest =>
      if String.eqb d doc_id then (d, (s + v)%R) :: rest
      else (d, s) :: scores_add rest doc_id v
  end.

(** [sorted(items, key=lambda x: x[1], reverse=True)]: a stable sort by
    decreasing score; entries of equal score keep their order. *)
Fixpoint insert_desc (x : string * R) (l : list (string * R)) : list (string * R) :=
  match l with
  | [] => [x]
  | y :: t => if Rlt_dec (snd x) (snd y) then y :: insert_desc x t else x :: y :: t
  end.

Definition sorted_desc (l : list (string * R)) : list (string * R) :=
  fold_right insert_desc [] l.

Module CustomIndex.

Record t : Type := mk {
  inverted_index : gmap string (list (string * Z));
  doc_lengths : gmap string Z;
  avg_doc_length : R;
  k1 : R;
  b : R;
  metadata : gmap string Metadata
}.

(** [__init__].  The attribute [tokenizer] is a [CodeTokenizer], which has
    no state: the methods below call [CodeTokenizer] directly. *)
Definition init : t :=
  mk ∅ ∅ 0%R 1.2%R 0.75%R ∅.

(** [self.inverted_index[term]] and [self.inverted_index.get(term, [])];
    on the [defaultdict] both read the empty list at a missing key.  The
    subscript also stores that empty list under the key, which no later
    read can tell from a missing key, so the index is not threaded through
    [bm25]. *)
Definition postings (self : t) (term : string) : list (string * Z) :=
  default [] (inverted_index self !! term).

(** [sum(d.values())] *)
Definition sum_values (d : gmap string Z) : Z :=
  map_fold (fun _ v acc => (v + acc)%Z) 0%Z d.

(** [self.inverted_index[token].append((doc_id, freq))] *)
Definition append_posting (doc_id : string)
  (inv : gmap string (list (string * Z))) (item : string * Z)
  : gmap string (list (string * Z)) :=
  <[fst item := default [] (inv !! fst item) ++ [(doc_id, snd item)]]> inv.

(** [index_document].  The division cannot raise: [doc_lengths] holds
    [doc_id] when its size is taken (lemma [index_document_size_pos]). *)
Definition index_document (self : t) (doc_id : string) (tokens : list string) : t :=
  let doc_length := Z.of_nat (length tokens) in
  let doc_lengths' := <[doc_id := doc_length]> (doc_lengths self) in
  let avg := (IZR (sum_values doc_lengths') / IZR (Z.of_nat (size doc_lengths')))%R in
  let token_freq := Counter tokens in
  mk (fold_left (append_posting doc_id) token_freq (inverted_index self))
     doc_lengths' avg (k1 self) (b self) (metadata self).

Definition add_document (self : t) (title : string) (tokens : list string)
  (meta : Metadata) : t :=
  let doc_id := title in
  let self' := mk (inverted_index self) (doc_lengths self) (avg_doc_length self)
                  (k1 self) (b self) (<[doc_id := meta]> (metadata self)) in
  index_document self' doc_id tokens.

(** [bm25] with the arithmetic of lines 64 to 74 taken exactly: an [int]
    operand enters as the real number it denotes.  [Binary64.bm25] below is
    the same method in double precision. *)
Definition bm25 (self : t) (doc_id term : string) (term_freq : Z) : result R :=
  let num_docs := Z.of_nat (size (doc_lengths self)) in
  let df := Z.of_nat (length (postings self term)) in
  q <- py_div (IZR (num_docs - df) + 0.5)%R (IZR df + 0.5)%R ;;
  idf <- py_log (q + 1.0)%R ;;
  doc_length <- match doc_lengths self !! doc_id with
                | Some l => Ok l
                | None => Raise KeyError
                end ;;
  ratio <- py_div (IZR doc_length) (avg_doc_length self) ;;
  tf <- py_div ((k1 self + 1) * IZR term_freq)%R
               (IZR term_freq + k1 self * (1 - b self + b self * ratio))%R ;;
  Ok (idf * tf)%R.

(** The body of the inner loop of [search_index]. *)
Definition score_step (self : t) (token : string) (scores : list (string * R))
  (posting : string * Z) : result (list (string * R)) :=
  v <- bm25 self (fst posting) token (snd posting) ;;
  Ok (scores_add scores (fst posting) v).

Definition search_index (self : t) (query : string)
  : result (list (string * R * Metadata)) :=
  let query_tokens := map text (CodeTokenizer query) in
  scores <- foldM (fun scores token =>
                     foldM (score_step self token) (postings self token) scores)
                  query_tokens [] ;;
  let sorted_scores := sorted_desc scores in
  Ok (map (fun '(doc_id, score) =>
             (doc_id, score, default [] (metadata self !! doc_id)))
          sorted_scores).

End CustomIndex.

(** ** The search orchestrator *)

(** [doc_id in res] *)
Definition dict_mem {V} (k : string) (d : list (string * V)) : bool :=
  existsb (fun kv => String.eqb (fst kv) k) d.

(** [res[k]] read back, for the statements below. *)
Definition dict_get {V} (k : string) (d : list (string * V)) : option V :=
  option_map snd (find (fun kv => String.eqb (fst kv) k) d).

(** The loop [for doc_id, score, _ in results_with_metadata]. *)
Definition first_seen (results : list (string * R * Metadata)) : list (string * R) :=
  fold_left (fun res r =>
               let '(doc_id, score, _) := r in
               if dict_mem doc_id res then res else res ++ [(doc_id, score)])
            results [].

(** [max(values)] and [min(values)] of a non-empty sequence. *)
Definition py_max (v : R) (vs : list R) : R :=
  fold_left (fun m x => if Rlt_dec m x then x else m) vs v.
Definition py_min (v : R) (vs : list R) : R :=
  fold_left (fun m x => if Rlt_dec x m then x else m) vs v.

(** Lines 310 to 316: the bounds and the dict comprehension. *)
Definition normalize (res : list (string * R)) : result (list (string * R)) :=
  let '(max_score, min_score) :=
    match map snd res with
    | [] => (1%R, 0%R)
    | v :: vs =>
        let max_score := py_max v vs in
        (max_score, if Rlt_dec (py_min v vs) max_score then py_min v vs else 0%R)
    end in
  mapM (fun kv => q <- py_div (snd kv - min_score)%R (max_score - min_score)%R ;;
                  Ok (fst kv, q)) res.

(** The body of the [try] statement of [search_index]. *)
Definition search_index_body (query : string) (index : CustomIndex.t)
  : result (list (string * R)) :=
  results_with_metadata <- CustomIndex.search_index index query ;;
  normalize (first_seen results_with_metadata).

(** The handlers of the [try] statement of [search_index]:
    [except SystemExit: raise SystemExit] and
    [except Exception as e: logger.exception(e); return {}]. *)
Definition search_index_except (body : result (list (string * R)))
  : result (list (string * R)) :=
  match body with
  | Ok res => Ok res
  | Raise SystemExit => Raise SystemExit
  | Raise e => if isinstance_Exception e then Ok [] else Raise e
  end.

Definition search_index (query : string) (index : option CustomIndex.t)
  : result (list (string * R)) :=
  match index with
  | None => Ok []
  | Some idx => search_index_except (search_index_body query idx)
  end.

(** ** The corpus builder *)

Record Document : Type := mkDocument {
  title : string;
  content : string;
  start : Z;
  end_ : Z
}.

(** Modelled from the spec: [sweepai.core.entities.Snippet] is not part of
    the sources; the builder reads its fields [file_path], [start] and [end]
    and calls its method [get_snippet], a parameter below. *)
Record Snippet : Type := mkSnippet {
  file_path : string;
  snippet_content : string;
  snippet_start : Z;
  snippet_end : Z
}.

Section Builder.

(** [snippet.get_snippet(add_ellipsis=False, add_lines=False)] *)
Variable get_snippet : Snippet -> string.

(** The decorator [file_cache()] of [sweepai.logn.cache]: it reads and
    writes files, so the decorated function may raise. *)
Variable file_cache : (string -> list string) -> string -> result (list string).

(** [sweepai.utils.progress.TicketProgress]: the two assignments to
    [search_progress] and the method [save], which may raise. *)
Variable TicketProgress : Type.
Variable set_indexing_total : TicketProgress -> Z -> TicketProgress.
Variable set_indexing_progress : TicketProgress -> Z -> TicketProgress.
Variable save : TicketProgress -> result unit.

Definition compute_document_tokens : string -> result (list string) :=
  file_cache document_tokens.

(** [s[n:]] *)
Definition drop_prefix (n : nat) (s : string) : string :=
  substring n (String.length s - n) s.

Definition snippets_to_docs (snippets : list Snippet) (len_repo_cache_dir : nat)
  : list Document :=
  map (fun snippet =>
         mkDocument (drop_prefix len_repo_cache_dir (file_path snippet))
                    (get_snippet snippet)
                    (snippet_start snippet) (snippet_end snippet))
      snippets.

(** [enumerate(l)] *)
Definition enumerate {A} (l : list A) : list (nat * A) :=
  combine (seq 0 (length l)) l.

(** The body of the first loop: tokenization and progress report. *)
Definition tokenize_step (st : list (list string) * option TicketProgress)
  (item : nat * Document) : result (list (list string) * option TicketProgress) :=
  let '(all_tokens, ticket_progress) := st in
  let '(i, doc) := item in
  document_tokens <- compute_document_tokens (content doc) ;;
  let all_tokens := all_tokens ++ [document_tokens] in
  match ticket_progress with
  | Some tp =>
      if (i mod 200 =? 0)%nat then
        let tp := set_indexing_progress tp (Z.of_nat i) in
        _ <- save tp ;; Ok (all_tokens, Some tp)
      else Ok (all_tokens, ticket_progress)
  | None => Ok (all_tokens, ticket_progress)
  end.

(** The body of the second loop. *)
Definition index_step (index : CustomIndex.t) (item : Document * list string)
  : CustomIndex.t :=
  let '(doc, document_tokens) := item in
  CustomIndex.add_document index
    (title doc ++ ":" ++ str_of_Z (start doc) ++ "-" ++ str_of_Z (end_ doc))
    document_tokens [].

(** The body of the [try] statement of [prepare_index_from_snippets]: the
    index as the statement leaves it, and how the statement ended. *)
Definition build_body (index : CustomIndex.t) (ticket_progress : option TicketProgress)
  (all_docs : list Document) : CustomIndex.t * result unit :=
  match foldM tokenize_step (enumerate all_docs) ([], ticket_progress) with
  | Raise e => (index, Raise e)
  | Ok (all_tokens, _) =>
      (fold_left index_step (combine all_docs all_tokens) index, Ok tt)
  end.

(** Lines 245 to 247, before the [try] statement: the total is reported
    when a progress sink is given. *)
Definition start_progress (ticket_progress : option TicketProgress) (total : nat)
  : result (option TicketProgress) :=
  match ticket_progress with
  | Some tp =>
      let tp := set_indexing_total tp (Z.of_nat total) in
      _ <- save tp ;; Ok (Some tp)
  | None => Ok None
  end.

Definition prepare_index_from_snippets (snippets : list Snippet)
  (len_repo_cache_dir : nat) (ticket_progress : option TicketProgress)
  : result (option CustomIndex.t) :=
  let all_docs := snippets_to_docs snippets len_repo_cache_dir in
  if (length all_docs =? 0)%nat then Ok None else
  let index := CustomIndex.init in
  ticket_progress <- start_progress ticket_progress (length all_docs) ;;
  match build_body index ticket_progress all_docs with
  | (index, Ok _) => Ok (Some index)
  | (index, Raise FileNotFoundError) => Ok (Some index)
  | (_, Raise e) => Raise e
  end.

End Builder.

(** ** Reference definitions

    Written after the words of the specification, to be compared with the
    definitions above. *)

(** "for every adjacent pair [(t[i], t[i+1])], emit ..." *)
Definition join2 (a b : Token) : Token :=
  mkToken (text a ++ "_" ++ text b) (pos a) (startchar a) (end_pos b) (endchar b).

(** "for every adjacent triple, same construction joining all three texts" *)
Definition join3 (a b c : Token) : Token :=
  mkToken (text a ++ "_" ++ text b ++ "_" ++ text c) (pos a) (startchar a)
          (end_pos c) (endchar c).

Fixpoint adjacent_pairs (tokens : list Token) : list Token :=
  match tokens with
  | a :: ((b :: _) as rest) => join2 a b :: adjacent_pairs rest
  | _ => []
  end.

Fixpoint adjacent_triples (tokens : list Token) : list Token :=
  match tokens with
  | a :: ((b :: c :: _) as rest) => join3 a b c :: adjacent_triples rest
  | _ => []
  end.

(** The documents of a load phase: title, tokens, metadata. *)
Definition doc_entry : Type := string * list string * Metadata.
Definition doc_title (d : doc_entry) : string := fst (fst d).
Definition doc_tokens (d : doc_entry) : list string := snd (fst d).
Definition doc_meta (d : doc_entry) : Metadata := snd d.

(** The index after a load phase: [add_document] called once per entry, in
    order, on a fresh index. *)
Definition populate (docs : list doc_entry) : CustomIndex.t :=
  fold_left (fun index d =>
               CustomIndex.add_document index (doc_title d) (doc_tokens d) (doc_meta d))
            docs CustomIndex.init.

(** The postings that a list of counted tokens contributes to [term] for
    the document [doc_id]. *)
Definition contribution (doc_id term : string) (items : list (string * Z))
  : list (string * Z) :=
  flat_map (fun item => if String.eqb (fst item) term then [(doc_id, snd item)] else [])
           items.

(** The value [bm25] returns when nothing raises, for a document of
    length [doc_length]. *)
Definition bm25_value (self : CustomIndex.t) (doc_length : Z) (term : string)
  (term_freq : Z) : R :=
  let num_docs := Z.of_nat (size (CustomIndex.doc_lengths self)) in
  let df := Z.of_nat (length (CustomIndex.postings self term)) in
  (ln ((IZR (num_docs - df) + 0.5) / (IZR df + 0.5) + 1.0) *
   (((CustomIndex.k1 self + 1) * IZR term_freq) /
    (IZR term_freq +
     CustomIndex.k1 self *
       (1 - CustomIndex.b self +
        CustomIndex.b self * (IZR doc_length / CustomIndex.avg_doc_length self)))))%R.

(** The score a [defaultdict(float)] holds for [doc_id]. *)
Definition score_of (doc_id : string) (scores : list (string * R)) : R :=
  match dict_get doc_id scores with
  | Some v => v
  | None => 0%R
  end.

(** "every occurrence of a query token", paired with every posting of the
    posting list of that token, in the order the loops visit them. *)
Definition query_postings (self : CustomIndex.t) (query_tokens : list string)
  : list (string * (string * Z)) :=
  flat_map (fun token => map (pair token) (CustomIndex.postings self token)) query_tokens.

(** The visits that concern the document [doc_id]. *)
Definition hits (doc_id : string) (visits : list (string * (string * Z)))
  : list (string * (string * Z)) :=
  List.filter (fun tp => String.eqb (fst (snd tp)) doc_id) visits.

(** "bm25(doc_id, token, stored term frequency)" for each visit. *)
Definition hit_scores (self : CustomIndex.t) (doc_id : string)
  (visits : list (string * (string * Z))) : result (list R) :=
  mapM (fun tp => CustomIndex.bm25 self doc_id (fst tp) (snd (snd tp))) visits.

Definition sum_list (vs : list R) : R := fold_right Rplus 0%R vs.

(** ** Section identifiers of the code-modification agent

    [sweepai/agents/assistant_function_modify.py]: the sections shown to the
    assistant are numbered in the letters of spreadsheet columns. *)

(** [chr(n)] and [ord(c)] on ASCII. *)
Definition chr (n : Z) : ascii := ascii_of_nat (Z.to_nat n).
Definition ord (c : ascii) : Z := Z.of_nat (nat_of_ascii c).

(** The [while n > 0] loop of [int_to_excel_col]; [fuel] bounds the number
    of iterations, and [Z.to_nat n] iterations always reach [n <= 0]
    (lemma [int_to_excel_col_loop_fuel]). *)
Fixpoint int_to_excel_col_loop (fuel : nat) (n : Z) (result : string) : string :=
  match fuel with
  | O => result
  | S fuel' =>
      if (0 <? n)%Z then
        let remainder := ((n - 1) mod 26)%Z in
        let n := ((n - 1) / 26)%Z in
        int_to_excel_col_loop fuel' n (String (chr (65 + remainder)) result)
      else result
  end.

Definition int_to_excel_col (n : Z) : string :=
  int_to_excel_col_loop (Z.to_nat n) n "".

(** The [for char in s] loop of [excel_col_to_int]. *)
Fixpoint excel_col_to_int_loop (s : string) (result : Z) : Z :=
  match s with
  | EmptyString => result
  | String char s' => excel_col_to_int_loop s' (result * 26 + (ord char - 64))%Z
  end.

Definition excel_col_to_int (s : string) : Z :=
  (excel_col_to_int_loop s 0 - 1)%Z.

(** Every character of [s] is one of [A] to [Z]. *)
Fixpoint all_upper (s : string) : bool :=
  match s with
  | EmptyString => true
  | String c s' => is_upper c && all_upper s'
  end.

(** What every token of [tokenize_call] satisfies: its text has passed
    [check_valid_token] and [lower()], it spans as many characters as its
    text has, and it takes one position. *)
Definition well_formed_token (t : Token) : Prop :=
  (2 <= String.length (text t))%nat /\
  lower (text t) = text t /\
  endchar t = (startchar t + String.length (text t))%nat /\
  end_pos t = (pos t + 1)%nat.

(** The invariant of the loops of [tokenize_call]. *)
Definition tok_state_ok (st : tok_state) : Prop :=
  ts_pos st = length (ts_valid st) /\
  map pos (ts_valid st) = seq 0 (length (ts_valid st)) /\
  Forall well_formed_token (ts_valid st).

(** ** The index of documentation pages *)

Module Documentation.
Record t : Type := mk {
  url : string;
  content : string
}.
End Documentation.

Section DocsBuilder.

(** The decorator [file_cache()], as in the builder above. *)
Variable file_cache : (string -> list string) -> string -> result (list string).

(** The [try] statement of [prepare_index_from_docs]: one loop, in which
    the tokens of a page are computed before [add_document] is called.  The
    index is returned as the statement leaves it, with how it ended. *)
Fixpoint docs_loop (all_docs : list Documentation.t) (index : CustomIndex.t)
  : CustomIndex.t * result unit :=
  match all_docs with
  | [] => (index, Ok tt)
  | doc :: rest =>
      match compute_document_tokens file_cache (Documentation.content doc) with
      | Ok tokens =>
          docs_loop rest (CustomIndex.add_document index (Documentation.url doc) tokens [])
      | Raise e => (index, Raise e)
      end
  end.

Definition prepare_index_from_docs (docs : list (string * string))
  : result (option CustomIndex.t) :=
  let all_docs := map (fun '(url, content) => Documentation.mk url content) docs in
  if (length all_docs =? 0)%nat then Ok None else
  let index := CustomIndex.init in
  match docs_loop all_docs index with
  | (index, Ok _) => Ok (Some index)
  | (index, Raise FileNotFoundError) => Ok (Some index)
  | (_, Raise e) => Raise e
  end.

End DocsBuilder.

(** The entry [add_document] receives for a page and for a snippet. *)
Definition page_entry (item : string * string * list string) : doc_entry :=
  (fst (fst item), snd item, []).

Definition snippet_entry (item : Document * list string) : doc_entry :=
  ((title (fst item) ++ ":" ++ str_of_Z (start (fst item)) ++ "-" ++
    str_of_Z (end_ (fst item)))%string,
   snd item, []).

(** The distinct elements of a list in order of first occurrence: the
    order in which a dictionary gets its keys. *)
Definition first_occurrences (l : list string) : list string :=
  fold_left (fun acc d => if existsb (String.eqb d) acc then acc else acc ++ [d]) l [].

(** [score == v] *)
Definition has_score (v : R) (s : R) : bool :=
  if Req_dec_T s v then true else false.

(** The offsets of a token delimit, in [code], the text it was made from. *)
Definition offsets_ok (code : string) (t : Token) : Prop :=
  lower (slice code (startchar t) (endchar t)) = text t.

(** A cursor of the matcher that stands in [code] at its offset. *)
Definition cursor_in (code : string) (cur : cursor) : Prop :=
  exists pre, code = String.append pre (c_rest cur) /\ String.length pre = c_off cur.

(** A word whose parts the tokenizer can place: it has an underscore, or
    [variable_pattern] matches nothing in it, or the matches of
    [variable_pattern] follow each other without a gap and cover it. *)
Definition placed_word (txt : string) : Prop :=
  contains_char "_" txt = true \/
  findall variable_pattern txt = [] \/
  String.concat "" (findall variable_pattern txt) = txt.

(** ** Addressing a section

    Lines 156 to 164 of [function_modify]: the section a replacement names
    is looked up among the chunks. *)

(** [l[i]] for a Python list: a negative index counts from the end, an
    index outside [-len(l), len(l))] raises [IndexError]. *)
Definition py_getitem {A} (l : list A) (i : Z) : result A :=
  let n := Z.of_nat (length l) in
  let j := if (i <? 0)%Z then (n + i)%Z else i in
  if ((0 <=? j) && (j <? n))%Z then
    match nth_error l (Z.to_nat j) with
    | Some x => Ok x
    | None => Raise (OtherException "IndexError")
    end
  else Raise (OtherException "IndexError").

(** The outcome of the lookup: the [error_message] set before [break], or
    the chunk read from [new_chunks]. *)
Definition section_lookup (file_path : string) (chunks new_chunks : list string)
  (section_letter : string) : result (string + string) :=
  let section_id := excel_col_to_int section_letter in
  if (Z.of_nat (length chunks) <=? section_id)%Z then
    Ok (inl ("Could not find section " ++ section_letter ++ " in file " ++ file_path
             ++ ", which has " ++ str_of_Z (Z.of_nat (length chunks)) ++ " sections.")%string)
  else
    chunk <- py_getitem new_chunks section_id ;;
    Ok (inr chunk).

(** ** The index in double precision

    The attributes [avg_doc_length], [k1] and [b] and every intermediate
    value of [bm25] are Python floats, that is IEEE 754 binary64 numbers.
    The module [CustomIndex] above reads the arithmetic of the source
    exactly, in the real numbers; this module reads the same lines with the
    operations of binary64 (the primitive floats), as the interpreter
    evaluates them: every operation rounds to nearest, ties to even, and an
    [int] operand of a float operation is first converted to a float. *)

Module Binary64.

Import PrimFloat FloatOps SpecFloat.
#[local] Set Warnings "-inexact-float".

(** The conversion of an [int] operand in [x + n], [x * n], [n / x]: the
    nearest float, and [OverflowError] ("int too large to convert to
    float") when that is not finite. *)
Definition float_of_int (n : Z) : result float :=
  let x := SF2Prim (binary_normalize prec emax n 0 false) in
  if is_infinity x then Raise OverflowError else Ok x.

Definition spec_float_of_int (n : Z) : spec_float :=
  match n with
  | Z0 => S754_zero false
  | Zpos p => S754_finite false p 0
  | Zneg p => S754_finite true p 0
  end.

(** [a / b] on two [int]s: the float nearest to the exact quotient. *)
Definition int_truediv (a b : Z) : result float :=
  if (b =? 0)%Z then Raise ZeroDivisionError
  else
    let x := SF2Prim (SFdiv prec emax (spec_float_of_int a) (spec_float_of_int b)) in
    if is_infinity x then Raise OverflowError else Ok x.

(** [x / y] on two floats. *)
Definition float_div (x y : float) : result float :=
  if (y =? 0)%float then Raise ZeroDivisionError else Ok (x / y)%float.

Record t : Type := mk {
  inverted_index : gmap string (list (string * Z));
  doc_lengths : gmap string Z;
  avg_doc_length : float;
  k1 : float;
  b : float;
  metadata : gmap string Metadata
}.

Definition init : t :=
  mk ∅ ∅ 0.0%float 1.2%float 0.75%float ∅.

Definition postings (self : t) (term : string) : list (string * Z) :=
  default [] (inverted_index self !! term).

(** [index_document].  The division of the two [int]s raises only when the
    quotient is beyond the floats; the state such a failure would leave
    behind is not kept. *)
Definition index_document (self : t) (doc_id : string) (tokens : list string)
  : result t :=
  let doc_length := Z.of_nat (length tokens) in
  let doc_lengths' := <[doc_id := doc_length]> (doc_lengths self) in
  avg <- int_truediv (CustomIndex.sum_values doc_lengths')
                     (Z.of_nat (size doc_lengths')) ;;
  let token_freq := Counter tokens in
  Ok (mk (fold_left (CustomIndex.append_posting doc_id) token_freq (inverted_index self))
         doc_lengths' avg (k1 self) (b self) (metadata self)).

Definition add_document (self : t) (title : string) (tokens : list string)
  (meta : Metadata) : result t :=
  let doc_id := title in
  let self' := mk (inverted_index self) (doc_lengths self) (avg_doc_length self)
                  (k1 self) (b self) (<[doc_id := meta]> (metadata self)) in
  index_document self' doc_id tokens.

(** A load phase: [add_document] once per entry, in order, on a fresh index. *)
Definition populate (docs : list doc_entry) : result t :=
  foldM (fun index d => add_document index (doc_title d) (doc_tokens d) (doc_meta d))
        docs init.

Section Libm.

(** The logarithm of the C library on a positive finite argument; its
    values are those of the platform. *)
Variable log : float -> float.

(** [math.log(x)] on a float: [ValueError] ("math domain error") for zero
    and for a negative argument, the argument itself for NaN and for
    positive infinity. *)
Definition math_log (x : float) : result float :=
  if is_nan x then Ok x
  else if (0 <? x)%float then Ok (if is_infinity x then x else log x)
  else Raise ValueError.

(** [bm25], in the order in which the interpreter evaluates it: the
    operands of an operator from left to right, the conversion of an [int]
    operand when the operator is applied. *)
Definition bm25 (self : t) (doc_id term : string) (term_freq : Z) : result float :=
  let num_docs := Z.of_nat (size (doc_lengths self)) in
  let df := Z.of_nat (length (postings self term)) in
  rest <- float_of_int (num_docs - df) ;;
  df' <- float_of_int df ;;
  q <- float_div (rest + 0.5)%float (df' + 0.5)%float ;;
  idf <- math_log (q + 1.0)%float ;;
  doc_length <- match doc_lengths self !! doc_id with
                | Some l => Ok l
                | None => Raise KeyError
                end ;;
  term_freq' <- float_of_int term_freq ;;
  doc_length' <- float_of_int doc_length ;;
  ratio <- float_div doc_length' (avg_doc_length self) ;;
  tf <- float_div ((k1 self + 1) * term_freq')%float
                  (term_freq' + k1 self * (1 - b self + b self * ratio))%float ;;
  Ok (idf * tf)%float.

End Libm.

End Binary64.

(** * Properties *)

(** ** The tokenizer on the examples of the specification *)

(** C4: the four equalities of the specification on emitted token texts:
    ["myVariableName"] gives my, variable, name; ["MY_CONST_VALUE"] gives
    my, const, value; ["a"] gives no token at all; ["x1_y2"] gives x1, y2. *)
Theorem tokenize_call_examples :
  map text (tokenize_call "myVariableName") = ["my"; "variable"; "name"] /\
  map text (tokenize_call "MY_CONST_VALUE") = ["my"; "const"; "value"] /\
  map text (tokenize_call "a") = [] /\
  map text (tokenize_call "x1_y2") = ["x1"; "y2"].
Proof. repeat split; vm_compute; reflexivity. Qed.

(** C9 at the input ["abc123def"]: the camel-case loop emits the token [def]
    with offsets 3 and 6, and the input between 3 and 6 reads ["123"].
    The digits that [findall] skips are not counted in [offset]. *)
Theorem tokenize_call_offset_drift :
  tokenize_call "abc123def" =
    [mkToken "abc" 0 0 1 3; mkToken "def" 1 3 2 6] /\
  lower (slice "abc123def" 3 6) = "123" /\
  lower (slice "abc123def" 3 6) <> "def".
Proof. split; [vm_compute; reflexivity | split; [reflexivity | discriminate]]. Qed.

(** ** N-grams *)

Lemma bigram_loop (tokens : list Token) :
  forall res p,
    fst (fold_left bigram_step tokens (res, Some p)) = res ++ adjacent_pairs (p :: tokens).
Proof.
  induction tokens as [|a tokens IH]; intros res p; simpl.
  - now rewrite app_nil_r.
  - rewrite IH. now rewrite <- app_assoc.
Qed.

Lemma construct_bigrams_pairs (tokens : list Token) :
  construct_bigrams tokens = adjacent_pairs tokens.
Proof.
  unfold construct_bigrams. destruct tokens as [|a tokens]; [reflexivity|].
  simpl fold_left. now rewrite bigram_loop.
Qed.

Lemma trigram_loop (tokens : list Token) :
  forall res pp p,
    fst (fst (fold_left trigram_step tokens (res, Some pp, Some p))) =
    res ++ adjacent_triples (pp :: p :: tokens).
Proof.
  induction tokens as [|a tokens IH]; intros res pp p; simpl.
  - now rewrite app_nil_r.
  - rewrite IH. now rewrite <- app_assoc.
Qed.

Lemma construct_trigrams_triples (tokens : list Token) :
  construct_trigrams tokens = adjacent_triples tokens.
Proof.
  unfold construct_trigrams. destruct tokens as [|a [|b tokens]]; [reflexivity..|].
  simpl fold_left. now rewrite trigram_loop.
Qed.

Lemma adjacent_pairs_nth (tokens : list Token) :
  forall i,
    nth_error (adjacent_pairs tokens) i =
    match nth_error tokens i, nth_error tokens (S i) with
    | Some a, Some b => Some (join2 a b)
    | _, _ => None
    end.
Proof.
  induction tokens as [|a [|b tokens] IH]; intros i.
  - now destruct i.
  - destruct i as [|i]; [reflexivity|]. simpl. now destruct i.
  - destruct i as [|i]; [reflexivity|].
    change (nth_error (adjacent_pairs (b :: tokens)) i =
            match nth_error (b :: tokens) i, nth_error (b :: tokens) (S i) with
            | Some a0, Some b0 => Some (join2 a0 b0)
            | _, _ => None
            end).
    apply IH.
Qed.

Lemma adjacent_triples_nth (tokens : list Token) :
  forall i,
    nth_error (adjacent_triples tokens) i =
    match nth_error tokens i, nth_error tokens (S i), nth_error tokens (S (S i)) with
    | Some a, Some b, Some c => Some (join3 a b c)
    | _, _, _ => None
    end.
Proof.
  induction tokens as [|a tokens IH]; intros i.
  - now destruct i.
  - destruct tokens as [|b [|c tokens]].
    + destruct i as [|i]; [reflexivity|]. simpl. now destruct i.
    + destruct i as [|[|i]]; [reflexivity..|]. simpl. now destruct i.
    + destruct i as [|i]; [reflexivity|].
      change (nth_error (adjacent_triples (b :: c :: tokens)) i =
              match nth_error (b :: c :: tokens) i,
                    nth_error (b :: c :: tokens) (S i),
                    nth_error (b :: c :: tokens) (S (S i)) with
              | Some a0, Some b0, Some c0 => Some (join3 a0 b0 c0)
              | _, _, _ => None
              end).
      apply IH.
Qed.

Lemma adjacent_pairs_length (tokens : list Token) :
  length (adjacent_pairs tokens) = (length tokens - 1)%nat.
Proof.
  induction tokens as [|a [|b tokens] IH]; [reflexivity..|].
  change (S (length (adjacent_pairs (b :: tokens))) = (length (a :: b :: tokens) - 1)%nat).
  rewrite IH. simpl. lia.
Qed.

Lemma adjacent_triples_length (tokens : list Token) :
  length (adjacent_triples tokens) = (length tokens - 2)%nat.
Proof.
  induction tokens as [|a tokens IH]; [reflexivity|].
  destruct tokens as [|b [|c tokens]]; [reflexivity..|].
  change (S (length (adjacent_triples (b :: c :: tokens))) =
          (length (a :: b :: c :: tokens) - 2)%nat).
  rewrite IH. simpl. lia.
Qed.

(** C5: [construct_bigrams] returns one token per adjacent pair, in input
    order: its [i]-th token joins the texts of tokens [i] and [i+1] with an
    underscore, takes [pos] and [startchar] from the first and [endchar]
    from the second; [construct_trigrams] does the same over adjacent
    triples; there are [n - 1] bigrams and [n - 2] trigrams (truncated
    subtraction), hence none for fewer than 2, respectively 3, tokens. *)
Theorem construct_ngrams_spec (tokens : list Token) (i : nat) :
  nth_error (construct_bigrams tokens) i =
    match nth_error tokens i, nth_error tokens (S i) with
    | Some a, Some b =>
        Some (mkToken (text a ++ "_" ++ text b) (pos a) (startchar a)
                (end_pos b) (endchar b))
    | _, _ => None
    end /\
  nth_error (construct_trigrams tokens) i =
    match nth_error tokens i, nth_error tokens (S i), nth_error tokens (S (S i)) with
    | Some a, Some b, Some c =>
        Some (mkToken (text a ++ "_" ++ text b ++ "_" ++ text c) (pos a)
                (startchar a) (end_pos c) (endchar c))
    | _, _, _ => None
    end /\
  length (construct_bigrams tokens) = (length tokens - 1)%nat /\
  length (construct_trigrams tokens) = (length tokens - 2)%nat /\
  construct_bigrams [] = [] /\
  construct_trigrams [] = [] /\
  (forall a, construct_bigrams [a] = [] /\ construct_trigrams [a] = []) /\
  (forall a b, construct_trigrams [a; b] = []).
Proof.
  rewrite construct_bigrams_pairs, construct_trigrams_triples.
  split; [apply adjacent_pairs_nth|].
  split; [apply adjacent_triples_nth|].
  split; [apply adjacent_pairs_length|].
  split; [apply adjacent_triples_length|].
  repeat split.
Qed.

(** ** Floats and results *)

Lemma py_div_ok (x y : R) : y <> 0%R -> py_div x y = Ok (x / y)%R.
Proof. intros H. unfold py_div. destruct (Req_dec_T y 0); [contradiction|reflexivity]. Qed.

Lemma py_div_zero (x y : R) : y = 0%R -> py_div x y = Raise ZeroDivisionError.
Proof. intros H. unfold py_div. destruct (Req_dec_T y 0); [reflexivity|contradiction]. Qed.

Lemma py_log_ok (x : R) : (0 < x)%R -> py_log x = Ok (ln x).
Proof. intros H. unfold py_log. destruct (Rlt_dec 0 x); [reflexivity|contradiction]. Qed.

Lemma py_div_raises (x y : R) (e : exn) : py_div x y = Raise e -> e = ZeroDivisionError.
Proof. unfold py_div. destruct (Req_dec_T y 0); congruence. Qed.

Lemma py_log_raises (x : R) (e : exn) : py_log x = Raise e -> e = ValueError.
Proof. unfold py_log. destruct (Rlt_dec 0 x); congruence. Qed.

Lemma bind_ok {A B} (m : result A) (f : A -> result B) (b : B) :
  bind m f = Ok b -> exists a, m = Ok a /\ f a = Ok b.
Proof. destruct m as [a|e]; simpl; [eauto|discriminate]. Qed.

Lemma bind_raise {A B} (m : result A) (f : A -> result B) (e : exn) :
  bind m f = Raise e -> m = Raise e \/ exists a, m = Ok a /\ f a = Raise e.
Proof. destruct m as [a|e']; simpl; [eauto|intros [= ->]; now left]. Qed.

Lemma foldM_app {S A} (body : S -> A -> result S) (l1 l2 : list A) (s : S) :
  foldM body (l1 ++ l2) s = bind (foldM body l1 s) (foldM body l2).
Proof.
  revert s. induction l1 as [|a l1 IH]; intros s; simpl; [reflexivity|].
  destruct (body s a); simpl; [apply IH|reflexivity].
Qed.

Lemma mapM_ok {A B} (f : A -> result B) (l : list A) (out : list B) :
  mapM f l = Ok out -> Forall2 (fun a b => f a = Ok b) l out.
Proof.
  revert out. induction l as [|a l IH]; intros out H; simpl in H.
  - injection H as <-. constructor.
  - apply bind_ok in H as (b & Hb & H). apply bind_ok in H as (bs & Hbs & [= <-]).
    constructor; auto.
Qed.

Lemma mapM_ok_in {A B} (f : A -> result B) (l : list A) (out : list B) (a : A) :
  mapM f l = Ok out -> In a l -> exists b, f a = Ok b.
Proof.
  revert out. induction l as [|a' l IH]; intros out H Hin; [destruct Hin|].
  simpl in H. apply bind_ok in H as (b & Hb & H).
  apply bind_ok in H as (bs & Hbs & _).
  destruct Hin as [->|Hin]; [eauto|]. now apply (IH bs).
Qed.

(** ** The corpus statistics *)

Lemma sum_values_empty : CustomIndex.sum_values ∅ = 0%Z.
Proof. reflexivity. Qed.

Lemma sum_values_insert (d : gmap string Z) (k : string) (v : Z) :
  d !! k = None ->
  CustomIndex.sum_values (<[k := v]> d) = (v + CustomIndex.sum_values d)%Z.
Proof.
  intros H. unfold CustomIndex.sum_values.
  apply (map_fold_insert_L (fun _ (v : Z) acc => (v + acc)%Z)); [|exact H].
  intros. lia.
Qed.

Lemma sum_values_delete (d : gmap string Z) (k : string) (v : Z) :
  d !! k = Some v ->
  CustomIndex.sum_values d = (v + CustomIndex.sum_values (delete k d))%Z.
Proof.
  intros H. unfold CustomIndex.sum_values.
  apply (map_fold_delete_L (fun _ (v : Z) acc => (v + acc)%Z)); [|exact H].
  intros. lia.
Qed.

Lemma sum_values_nonneg (d : gmap string Z) :
  (forall k v, d !! k = Some v -> (0 <= v)%Z) -> (0 <= CustomIndex.sum_values d)%Z.
Proof.
  induction d as [|k v d Hk IH] using map_ind; intros H.
  - rewrite sum_values_empty. lia.
  - rewrite sum_values_insert by exact Hk.
    assert (0 <= v)%Z by (apply (H k); apply lookup_insert_eq).
    assert (0 <= CustomIndex.sum_values d)%Z.
    { apply IH. intros k' v' Hk'. apply (H k').
      rewrite lookup_insert_ne; [exact Hk'|]. intros ->. congruence. }
    lia.
Qed.

Lemma sum_values_ge (d : gmap string Z) (k : string) (v : Z) :
  (forall k v, d !! k = Some v -> (0 <= v)%Z) ->
  d !! k = Some v -> (v <= CustomIndex.sum_values d)%Z.
Proof.
  intros H Hk. rewrite (sum_values_delete d k v Hk).
  assert (0 <= CustomIndex.sum_values (delete k d))%Z.
  { apply sum_values_nonneg. intros k' v' Hk'.
    apply lookup_delete_Some in Hk' as [_ Hk']. eauto. }
  lia.
Qed.

Lemma index_document_size_pos (d : gmap string Z) (k : string) (v : Z) :
  size (<[k := v]> d) <> 0%nat.
Proof.
  rewrite map_size_insert. destruct (d !! k) eqn:E; simpl; [|lia].
  intros H. apply map_size_empty_inv in H. subst d.
  rewrite lookup_empty in E. discriminate.
Qed.

(** C6: after every call to [add_document] (hence to [index_document]), on
    any index state, [avg_doc_length] is the sum of the values of
    [doc_lengths] divided by the number of its entries; the entries are the
    updated ones, so the divisor is not zero. *)
Theorem add_document_avg_doc_length
  (self : CustomIndex.t) (title : string) (tokens : list string) (meta : Metadata) :
  let self' := CustomIndex.add_document self title tokens meta in
  CustomIndex.avg_doc_length self' =
    (IZR (CustomIndex.sum_values (CustomIndex.doc_lengths self')) /
     IZR (Z.of_nat (size (CustomIndex.doc_lengths self'))))%R /\
  CustomIndex.doc_lengths self' !! title = Some (Z.of_nat (length tokens)) /\
  size (CustomIndex.doc_lengths self') <> 0%nat /\
  CustomIndex.avg_doc_length (CustomIndex.index_document self title tokens) =
    CustomIndex.avg_doc_length self'.
Proof.
  simpl. split; [reflexivity|]. split; [apply lookup_insert_eq|].
  split; [apply index_document_size_pos|reflexivity].
Qed.

(** ** The empty corpus *)

(** C7: on an empty snippet list the builder returns [None] and does not
    raise, whatever the collaborators are; on the absent index the
    orchestrator returns the empty mapping for every query. *)
Theorem empty_corpus
  (get_snippet : Snippet -> string)
  (file_cache : (string -> list string) -> string -> result (list string))
  (TicketProgress : Type)
  (set_indexing_total set_indexing_progress : TicketProgress -> Z -> TicketProgress)
  (save : TicketProgress -> result unit)
  (len_repo_cache_dir : nat) (ticket_progress : option TicketProgress)
  (query : string) :
  prepare_index_from_snippets get_snippet file_cache TicketProgress
    set_indexing_total set_indexing_progress save [] len_repo_cache_dir ticket_progress
  = Ok None /\
  search_index query None = Ok [].
Proof. split; reflexivity. Qed.

(** ** Token counts *)

Lemma counter_add_keys (token : string) (c : list (string * Z)) (k : string) :
  In k (map fst (counter_add token c)) <-> k = token \/ In k (map fst c).
Proof.
  induction c as [|[k' n] c IH]; simpl.
  - intuition.
  - destruct (String.eqb_spec k' token) as [->|Hne]; simpl; [intuition|].
    rewrite IH. intuition.
Qed.

Lemma counter_add_NoDup (token : string) (c : list (string * Z)) :
  List.NoDup (map fst c) -> List.NoDup (map fst (counter_add token c)).
Proof.
  induction c as [|[k' n] c IH]; simpl; intros H.
  - constructor; [intros []|constructor].
  - inversion H as [|? ? Hnotin Hnd]; subst.
    destruct (String.eqb_spec k' token) as [->|Hne]; simpl.
    + constructor; assumption.
    + constructor; [|auto].
      rewrite counter_add_keys. intros [->|Hin]; [congruence|contradiction].
Qed.

Lemma counter_add_pos (token : string) (c : list (string * Z)) :
  Forall (fun kv => (1 <= snd kv)%Z) c ->
  Forall (fun kv => (1 <= snd kv)%Z) (counter_add token c).
Proof.
  induction c as [|[k' n] c IH]; simpl; intros H.
  - repeat constructor. simpl. lia.
  - inversion H; subst; simpl in *.
    destruct (String.eqb k' token); constructor; simpl; auto; lia.
Qed.

Lemma Counter_invariant (tokens : list string) :
  forall c,
    List.NoDup (map fst c) -> Forall (fun kv => (1 <= snd kv)%Z) c ->
    let c' := fold_left (fun c token => counter_add token c) tokens c in
    List.NoDup (map fst c') /\ Forall (fun kv => (1 <= snd kv)%Z) c' /\
    (forall k, In k (map fst c') <-> In k tokens \/ In k (map fst c)).
Proof.
  induction tokens as [|tok tokens IH]; intros c Hnd Hpos; simpl.
  - intuition.
  - destruct (IH (counter_add tok c)) as (H1 & H2 & H3);
      [now apply counter_add_NoDup|now apply counter_add_pos|].
    split; [exact H1|]. split; [exact H2|].
    intros k. rewrite H3, counter_add_keys. intuition.
Qed.

Lemma Counter_NoDup (tokens : list string) : List.NoDup (map fst (Counter tokens)).
Proof. apply (Counter_invariant tokens []); constructor. Qed.

Lemma Counter_pos (tokens : list string) (k : string) (n : Z) :
  In (k, n) (Counter tokens) -> (1 <= n)%Z /\ In k tokens.
Proof.
  intros Hin.
  destruct (Counter_invariant tokens []) as (_ & Hpos & Hkeys); [constructor..|].
  split.
  - rewrite Forall_forall in Hpos. apply (Hpos (k, n)).
    apply list_elem_of_In. exact Hin.
  - destruct (Hkeys k) as [Hk _]. destruct Hk as [Hk|[]]; [|exact Hk].
    apply (in_map fst) in Hin. exact Hin.
Qed.

Lemma contribution_not_in (doc_id term : string) (items : list (string * Z)) :
  ~ In term (map fst items) -> contribution doc_id term items = [].
Proof.
  induction items as [|[k n] items IH]; simpl; intros H; [reflexivity|].
  destruct (String.eqb_spec k term) as [->|Hne]; [tauto|].
  simpl. apply IH. tauto.
Qed.

Lemma contribution_length (doc_id term : string) (items : list (string * Z)) :
  List.NoDup (map fst items) -> (length (contribution doc_id term items) <= 1)%nat.
Proof.
  induction items as [|[k n] items IH]; simpl; intros H; [lia|].
  inversion H as [|? ? Hnotin Hnd]; subst.
  destruct (String.eqb_spec k term) as [->|Hne]; simpl.
  - rewrite contribution_not_in by exact Hnotin. simpl. lia.
  - auto.
Qed.

Lemma contribution_in (doc_id term : string) (items : list (string * Z)) (d : string) (tf : Z) :
  In (d, tf) (contribution doc_id term items) <-> d = doc_id /\ In (term, tf) items.
Proof.
  induction items as [|[k n] items IH]; simpl; [tauto|].
  destruct (String.eqb_spec k term) as [->|Hne]; simpl.
  - rewrite IH. split.
    + intros [[= <- <-]|[-> H]]; auto.
    + intros [-> [[= ->]|H]]; auto.
  - rewrite IH. split.
    + intros [-> H]; auto.
    + intros [-> [[= -> ->]|H]]; [congruence|auto].
Qed.

(** ** The index after a load phase *)

Lemma append_postings (doc_id : string) (items : list (string * Z)) :
  forall (inv : gmap string (list (string * Z))) (term : string),
    default [] (fold_left (CustomIndex.append_posting doc_id) items inv !! term) =
    default [] (inv !! term) ++ contribution doc_id term items.
Proof.
  induction items as [|[k n] items IH]; intros inv term; simpl.
  - now rewrite app_nil_r.
  - rewrite IH. unfold CustomIndex.append_posting. simpl.
    destruct (String.eqb_spec k term) as [->|Hne].
    + rewrite lookup_insert_eq. simpl. now rewrite <- app_assoc.
    + rewrite lookup_insert_ne by exact Hne. reflexivity.
Qed.

Lemma add_document_postings (self : CustomIndex.t) (title : string)
  (tokens : list string) (meta : Metadata) (term : string) :
  CustomIndex.postings (CustomIndex.add_document self title tokens meta) term =
  CustomIndex.postings self term ++ contribution title term (Counter tokens).
Proof. unfold CustomIndex.postings. simpl. apply append_postings. Qed.

Lemma populate_snoc (docs : list doc_entry) (d : doc_entry) :
  populate (docs ++ [d]) =
  CustomIndex.add_document (populate docs) (doc_title d) (doc_tokens d) (doc_meta d).
Proof. unfold populate. now rewrite fold_left_app. Qed.

Lemma populate_postings (docs : list doc_entry) (term : string) :
  CustomIndex.postings (populate docs) term =
  flat_map (fun d => contribution (doc_title d) term (Counter (doc_tokens d))) docs.
Proof.
  induction docs as [|d docs IH] using rev_ind; [reflexivity|].
  rewrite populate_snoc, add_document_postings, IH, flat_map_app. simpl.
  now rewrite app_nil_r.
Qed.

Lemma populate_constants (docs : list doc_entry) :
  CustomIndex.k1 (populate docs) = 1.2%R /\ CustomIndex.b (populate docs) = 0.75%R.
Proof.
  induction docs as [|d docs IH] using rev_ind; [split; reflexivity|].
  rewrite populate_snoc. exact IH.
Qed.

Lemma populate_doc_lengths_dom (docs : list doc_entry) (t : string) :
  is_Some (CustomIndex.doc_lengths (populate docs) !! t) <-> In t (map doc_title docs).
Proof.
  induction docs as [|d docs IH] using rev_ind.
  - simpl. rewrite lookup_empty. split; [intros [? [=]]|intros []].
  - rewrite populate_snoc, map_app, in_app_iff. simpl.
    destruct (decide (doc_title d = t)) as [->|Hne].
    + rewrite lookup_insert_eq. split; [auto|eauto].
    + rewrite lookup_insert_ne by exact Hne. rewrite IH. tauto.
Qed.

Lemma populate_doc_lengths_nonneg (docs : list doc_entry) (t : string) (l : Z) :
  CustomIndex.doc_lengths (populate docs) !! t = Some l -> (0 <= l)%Z.
Proof.
  revert l. induction docs as [|d docs IH] using rev_ind; intros l.
  - simpl. rewrite lookup_empty. discriminate.
  - rewrite populate_snoc. simpl.
    destruct (decide (doc_title d = t)) as [->|Hne].
    + rewrite lookup_insert_eq. intros [= <-]. lia.
    + rewrite lookup_insert_ne by exact Hne. apply IH.
Qed.

Lemma populate_doc_lengths_lookup (docs : list doc_entry) (d : doc_entry) :
  List.NoDup (map doc_title docs) -> In d docs ->
  CustomIndex.doc_lengths (populate docs) !! doc_title d =
    Some (Z.of_nat (length (doc_tokens d))).
Proof.
  induction docs as [|d' docs IH] using rev_ind; intros Hnd Hin; [destruct Hin|].
  rewrite map_app in Hnd. simpl in Hnd.
  apply List.NoDup_remove in Hnd as [Hnd Hnotin]. rewrite app_nil_r in Hnd, Hnotin.
  rewrite populate_snoc. simpl.
  apply in_app_iff in Hin as [Hin|[->|[]]].
  - rewrite lookup_insert_ne; [now apply IH|].
    intros E. apply Hnotin. rewrite E. now apply in_map.
  - apply lookup_insert_eq.
Qed.

Lemma populate_size (docs : list doc_entry) :
  List.NoDup (map doc_title docs) ->
  size (CustomIndex.doc_lengths (populate docs)) = length docs.
Proof.
  induction docs as [|d docs IH] using rev_ind; intros Hnd; [reflexivity|].
  rewrite map_app in Hnd. simpl in Hnd.
  apply List.NoDup_remove in Hnd as [Hnd Hnotin]. rewrite app_nil_r in Hnd, Hnotin.
  rewrite populate_snoc. simpl. rewrite map_size_insert_None.
  - rewrite IH by exact Hnd. rewrite length_app. simpl. lia.
  - destruct (CustomIndex.doc_lengths (populate docs) !! doc_title d) eqn:E; [|reflexivity].
    exfalso. apply Hnotin. apply populate_doc_lengths_dom. eauto.
Qed.

Lemma populate_avg_doc_length (docs : list doc_entry) :
  docs <> [] ->
  CustomIndex.avg_doc_length (populate docs) =
    (IZR (CustomIndex.sum_values (CustomIndex.doc_lengths (populate docs))) /
     IZR (Z.of_nat (size (CustomIndex.doc_lengths (populate docs)))))%R.
Proof.
  destruct docs as [|d docs] using rev_ind; [congruence|].
  intros _. now rewrite populate_snoc.
Qed.

(** Without repeated titles a term has at most as many postings as there
    are documents. *)
Lemma populate_postings_length (docs : list doc_entry) (term : string) :
  (length (CustomIndex.postings (populate docs) term) <= length docs)%nat.
Proof.
  rewrite populate_postings.
  induction docs as [|d docs IH]; simpl; [lia|].
  rewrite length_app.
  pose proof (contribution_length (doc_title d) term (Counter (doc_tokens d))
                (Counter_NoDup _)).
  lia.
Qed.

(** A posting of the loaded index comes from a document of the load, with a
    positive frequency, and that document has at least one token. *)
Lemma populate_postings_in (docs : list doc_entry) (term d : string) (tf : Z) :
  In (d, tf) (CustomIndex.postings (populate docs) term) ->
  exists doc, In doc docs /\ doc_title doc = d /\ (1 <= tf)%Z /\
              (1 <= length (doc_tokens doc))%nat.
Proof.
  rewrite populate_postings, in_flat_map. intros (doc & Hdoc & Hin).
  apply contribution_in in Hin as [-> Hin].
  apply Counter_pos in Hin as [Htf Htok].
  exists doc. repeat split; auto.
  destruct (doc_tokens doc); [destruct Htok|simpl; lia].
Qed.

(** ** BM25 *)

Lemma IZR_of_nat_nonneg (n : nat) : (0 <= IZR (Z.of_nat n))%R.
Proof. apply IZR_le. lia. Qed.

Lemma idf_quotient (n d : R) :
  (d + 0.5 <> 0)%R ->
  ((n - d + 0.5) / (d + 0.5) + 1.0 = (n + 1) / (d + 0.5))%R.
Proof.
  assert (H1 : 0.5%R = (1 / 2)%R) by lra.
  assert (H2 : 1.0%R = 1%R) by lra.
  rewrite H1, H2. intros H. field. lra.
Qed.

(** The divisor of the idf quotient is never zero and the argument of the
    logarithm is positive, whatever the index holds. *)
Lemma idf_defined (n df : nat) :
  (IZR (Z.of_nat df) + 0.5 <> 0)%R /\
  (0 < (IZR (Z.of_nat n - Z.of_nat df) + 0.5) / (IZR (Z.of_nat df) + 0.5) + 1.0)%R.
Proof.
  pose proof (IZR_of_nat_nonneg n). pose proof (IZR_of_nat_nonneg df).
  split; [lra|]. rewrite minus_IZR, idf_quotient by lra.
  apply Rdiv_lt_0_compat; lra.
Qed.

(** With no more postings than documents the idf is positive. *)
Lemma idf_pos (n df : nat) :
  (df <= n)%nat ->
  (0 < ln ((IZR (Z.of_nat n - Z.of_nat df) + 0.5) / (IZR (Z.of_nat df) + 0.5) + 1.0))%R.
Proof.
  intros Hle. pose proof (IZR_of_nat_nonneg df).
  assert (0 <= IZR (Z.of_nat n - Z.of_nat df))%R by (apply IZR_le; lia).
  rewrite <- ln_1. apply ln_increasing; [lra|].
  assert (0 < (IZR (Z.of_nat n - Z.of_nat df) + 0.5) / (IZR (Z.of_nat df) + 0.5))%R
    by (apply Rdiv_lt_0_compat; lra).
  lra.
Qed.

Lemma bm25_ok (self : CustomIndex.t) (doc_id term : string) (term_freq l : Z) :
  CustomIndex.doc_lengths self !! doc_id = Some l ->
  CustomIndex.avg_doc_length self <> 0%R ->
  (IZR term_freq +
   CustomIndex.k1 self *
     (1 - CustomIndex.b self +
      CustomIndex.b self * (IZR l / CustomIndex.avg_doc_length self)) <> 0)%R ->
  CustomIndex.bm25 self doc_id term term_freq = Ok (bm25_value self l term term_freq).
Proof.
  intros Hl Havg Hden. unfold CustomIndex.bm25, bm25_value.
  destruct (idf_defined (size (CustomIndex.doc_lengths self))
              (length (CustomIndex.postings self term))) as [H1 H2].
  rewrite py_div_ok by exact H1. simpl.
  rewrite py_log_ok by exact H2. simpl.
  rewrite Hl. simpl.
  rewrite py_div_ok by exact Havg. simpl.
  rewrite py_div_ok by exact Hden. reflexivity.
Qed.

(** [bm25] raises nothing but [KeyError] and [ZeroDivisionError]. *)
Lemma bm25_raises (self : CustomIndex.t) (doc_id term : string) (term_freq : Z) (e : exn) :
  CustomIndex.bm25 self doc_id term term_freq = Raise e ->
  e = KeyError \/ e = ZeroDivisionError.
Proof.
  unfold CustomIndex.bm25.
  destruct (idf_defined (size (CustomIndex.doc_lengths self))
              (length (CustomIndex.postings self term))) as [H1 H2].
  rewrite py_div_ok by exact H1. simpl.
  rewrite py_log_ok by exact H2. simpl.
  destruct (CustomIndex.doc_lengths self !! doc_id) as [l|]; simpl;
    [|intros [= <-]; now left].
  intros H. apply bind_raise in H as [H|(ratio & _ & H)];
    [apply py_div_raises in H; now right|].
  apply bind_raise in H as [H|(tf & _ & H)];
    [apply py_div_raises in H; now right|discriminate].
Qed.

Lemma div_lt_cross (a b c d : R) :
  (0 < b)%R -> (0 < d)%R -> (a * d < c * b)%R -> (a / b < c / d)%R.
Proof.
  intros Hb Hd H.
  replace (a / b)%R with ((a * d) * / (b * d))%R by (field; lra).
  replace (c / d)%R with ((c * b) * / (b * d))%R by (field; lra).
  apply Rmult_lt_compat_r; [|exact H].
  apply Rinv_0_lt_compat. apply Rmult_lt_0_compat; assumption.
Qed.


(** The saturation term of the tf quotient, [k1 * (1 - b + b * dl / avg)],
    is positive on a loaded index whose average length is positive. *)
Lemma saturation_pos (k1 b avg : R) (l : Z) :
  k1 = 1.2%R -> b = 0.75%R -> (0 < avg)%R -> (0 <= l)%Z ->
  (0 < k1 * (1 - b + b * (IZR l / avg)))%R.
Proof.
  intros -> -> Havg Hl.
  assert (0 <= IZR l / avg)%R.
  { apply Rmult_le_pos; [now apply IZR_le|]. left. now apply Rinv_0_lt_compat. }
  lra.
Qed.


Section Loaded.

Variable docs : list doc_entry.
Hypothesis titles_NoDup : List.NoDup (map doc_title docs).
Hypothesis avg_pos : (0 < CustomIndex.avg_doc_length (populate docs))%R.

Lemma loaded_df_le (term : string) :
  (length (CustomIndex.postings (populate docs) term) <=
   size (CustomIndex.doc_lengths (populate docs)))%nat.
Proof. rewrite populate_size by exact titles_NoDup. apply populate_postings_length. Qed.

Lemma loaded_bm25 (doc_id term : string) (l term_freq : Z) :
  CustomIndex.doc_lengths (populate docs) !! doc_id = Some l ->
  (0 <= term_freq)%Z ->
  CustomIndex.bm25 (populate docs) doc_id term term_freq =
    Ok (bm25_value (populate docs) l term term_freq).
Proof.
  intros Hl Htf. apply bm25_ok; [exact Hl|lra|].
  destruct (populate_constants docs) as [Hk Hb].
  pose proof (saturation_pos _ _ _ l Hk Hb avg_pos
                (populate_doc_lengths_nonneg _ _ _ Hl)).
  assert (0 <= IZR term_freq)%R by now apply IZR_le.
  lra.
Qed.



End Loaded.


(** A corpus of two documents, used to instantiate the statements. *)
Lemma two_docs_NoDup :
  List.NoDup (map doc_title [("A", ["xx"], []); ("B", ["xx"; "yy"], [])]).
Proof.
  simpl. constructor; [simpl; intros [H|[]]; discriminate|].
  constructor; [intros []|constructor].
Defined.

Lemma two_docs_avg_pos :
  (0 < CustomIndex.avg_doc_length
         (populate [("A", ["xx"], []); ("B", ["xx"; "yy"], [])]))%R.
Proof.
  rewrite populate_avg_doc_length by discriminate.
  rewrite populate_size by exact two_docs_NoDup.
  assert (E : CustomIndex.sum_values
                (CustomIndex.doc_lengths
                   (populate [("A", ["xx"], []); ("B", ["xx"; "yy"], [])])) = 3%Z)
    by (vm_compute; reflexivity).
  rewrite E. simpl. change (Z.of_nat 2) with 2%Z. lra.
Defined.


Section DoublePrecision.

Import PrimFloat.


End DoublePrecision.

(** ** The score dictionary *)

Lemma scores_add_keys (scores : list (string * R)) (doc_id : string) (v : R) (k : string) :
  In k (map fst (scores_add scores doc_id v)) <-> k = doc_id \/ In k (map fst scores).
Proof.
  induction scores as [|[d s] scores IH]; simpl.
  - intuition.
  - destruct (String.eqb_spec d doc_id) as [->|Hne]; simpl; [intuition|].
    rewrite IH. intuition.
Qed.

Lemma scores_add_NoDup (scores : list (string * R)) (doc_id : string) (v : R) :
  List.NoDup (map fst scores) -> List.NoDup (map fst (scores_add scores doc_id v)).
Proof.
  induction scores as [|[d s] scores IH]; simpl; intros H.
  - constructor; [intros []|constructor].
  - inversion H as [|? ? Hnotin Hnd]; subst.
    destruct (String.eqb_spec d doc_id) as [->|Hne]; simpl.
    + constructor; assumption.
    + constructor; [|auto].
      rewrite scores_add_keys. intros [->|Hin]; [congruence|contradiction].
Qed.

Lemma score_of_add (scores : list (string * R)) (doc_id : string) (v : R) (k : string) :
  score_of k (scores_add scores doc_id v) =
  if String.eqb doc_id k then (score_of k scores + v)%R else score_of k scores.
Proof.
  unfold score_of, dict_get.
  induction scores as [|[d s] scores IH]; simpl.
  - destruct (String.eqb doc_id k); reflexivity.
  - destruct (String.eqb_spec d doc_id) as [->|Hne]; simpl.
    + destruct (String.eqb doc_id k); reflexivity.
    + destruct (String.eqb_spec d k) as [->|Hne']; simpl.
      * destruct (String.eqb_spec doc_id k) as [->|_]; [congruence|reflexivity].
      * exact IH.
Qed.

Lemma dict_get_in {V} (d : list (string * V)) (k : string) (v : V) :
  List.NoDup (map fst d) -> In (k, v) d -> dict_get k d = Some v.
Proof.
  unfold dict_get.
  induction d as [|[k' v'] d IH]; simpl; intros Hnd Hin; [destruct Hin|].
  inversion Hnd as [|? ? Hnotin Hnd']; subst.
  destruct Hin as [[= -> ->]|Hin].
  - now rewrite String.eqb_refl.
  - destruct (String.eqb_spec k' k) as [->|Hne]; [|now apply IH].
    exfalso. apply Hnotin. apply (in_map fst) in Hin. exact Hin.
Qed.

(** ** Sorting by decreasing score *)

Lemma insert_desc_perm (x : string * R) (l : list (string * R)) :
  Permutation (insert_desc x l) (x :: l).
Proof.
  induction l as [|y l IH]; simpl; [reflexivity|].
  destruct (Rlt_dec (snd x) (snd y)); [|reflexivity].
  rewrite IH. apply perm_swap.
Qed.

Lemma sorted_desc_perm (l : list (string * R)) : Permutation (sorted_desc l) l.
Proof.
  induction l as [|x l IH]; simpl; [reflexivity|].
  rewrite insert_desc_perm. now constructor.
Qed.

Lemma insert_desc_sorted (x : string * R) (l : list (string * R)) :
  StronglySorted (fun a b => (snd b <= snd a)%R) l ->
  StronglySorted (fun a b => (snd b <= snd a)%R) (insert_desc x l).
Proof.
  induction l as [|y l IH]; simpl; intros H.
  - repeat constructor.
  - inversion H as [|? ? Hl Hy]; subst.
    destruct (Rlt_dec (snd x) (snd y)) as [Hlt|Hge].
    + constructor; [auto|].
      apply Forall_forall. intros z Hz.
      apply list_elem_of_In in Hz.
      apply (Permutation_in _ (insert_desc_perm x l)) in Hz as [<-|Hz]; [lra|].
      rewrite Forall_forall in Hy. apply Hy. now apply list_elem_of_In.
    + constructor; [exact H|].
      constructor; [lra|].
      apply Forall_forall. intros z Hz.
      rewrite Forall_forall in Hy. specialize (Hy z Hz). lra.
Qed.

Lemma sorted_desc_sorted (l : list (string * R)) :
  StronglySorted (fun a b => (snd b <= snd a)%R) (sorted_desc l).
Proof.
  induction l as [|x l IH]; simpl; [constructor|now apply insert_desc_sorted].
Qed.

(** ** The scoring loops of [CustomIndex.search_index] *)

Lemma foldM_map {S A B} (body : S -> B -> result S) (g : A -> B) (l : list A) (s : S) :
  foldM body (map g l) s = foldM (fun s a => body s (g a)) l s.
Proof.
  revert s. induction l as [|a l IH]; intros s; simpl; [reflexivity|].
  destruct (body s (g a)); simpl; [apply IH|reflexivity].
Qed.

(** The two nested loops are one loop over [query_postings]. *)
Lemma search_loops_flat (self : CustomIndex.t) (query_tokens : list string) :
  forall scores,
    foldM (fun scores token =>
             foldM (CustomIndex.score_step self token)
                   (CustomIndex.postings self token) scores)
          query_tokens scores =
    foldM (fun scores tp => CustomIndex.score_step self (fst tp) scores (snd tp))
          (query_postings self query_tokens) scores.
Proof.
  induction query_tokens as [|token query_tokens IH]; intros scores; [reflexivity|].
  unfold query_postings. simpl. fold (query_postings self query_tokens).
  rewrite foldM_app, foldM_map. simpl.
  destruct (foldM _ (CustomIndex.postings self token) scores); simpl;
    [apply IH|reflexivity].
Qed.

Lemma score_loop (self : CustomIndex.t) (visits : list (string * (string * Z))) :
  forall scores scores',
    foldM (fun scores tp => CustomIndex.score_step self (fst tp) scores (snd tp))
          visits scores = Ok scores' ->
    (List.NoDup (map fst scores) -> List.NoDup (map fst scores')) /\
    (forall d, In d (map fst scores') <->
               In d (map fst scores) \/ In d (map (fun tp => fst (snd tp)) visits)) /\
    (forall d, exists vs,
        hit_scores self d (hits d visits) = Ok vs /\
        score_of d scores' = (score_of d scores + sum_list vs)%R).
Proof.
  induction visits as [|[token [d0 tf]] visits IH]; intros scores scores' H.
  - injection H as <-. split; [auto|]. split; [simpl; tauto|].
    intros d. exists []. split; [reflexivity|]. simpl. lra.
  - simpl in H. apply bind_ok in H as (scores1 & Hstep & Hrest).
    unfold CustomIndex.score_step in Hstep. simpl in Hstep.
    apply bind_ok in Hstep as (v & Hv & [= <-]).
    destruct (IH _ _ Hrest) as (IH1 & IH2 & IH3).
    split; [intros Hnd; apply IH1; now apply scores_add_NoDup|].
    split.
    + intros d. rewrite IH2, scores_add_keys. simpl. intuition.
    + intros d. destruct (IH3 d) as (vs & Hvs & Hsum).
      rewrite score_of_add in Hsum. unfold hits. simpl.
      destruct (String.eqb_spec d0 d) as [->|Hne].
      * exists (v :: vs). unfold hit_scores in *. simpl. rewrite Hv. simpl.
        unfold hits in Hvs. rewrite Hvs. simpl. split; [reflexivity|]. lra.
      * exists vs. split; [exact Hvs|exact Hsum].
Qed.

(** The loops raise only what [bm25] raises. *)
Lemma score_loop_raises (self : CustomIndex.t) (visits : list (string * (string * Z))) :
  forall scores e,
    foldM (fun scores tp => CustomIndex.score_step self (fst tp) scores (snd tp))
          visits scores = Raise e ->
    exists tp, In tp visits /\
               CustomIndex.bm25 self (fst (snd tp)) (fst tp) (snd (snd tp)) = Raise e.
Proof.
  induction visits as [|tp visits IH]; intros scores e H; [discriminate|].
  simpl in H. apply bind_raise in H as [H|(scores1 & _ & H)].
  - unfold CustomIndex.score_step in H.
    apply bind_raise in H as [H|(v & _ & H)]; [|discriminate].
    exists tp. split; [now left|exact H].
  - destruct (IH _ _ H) as (tp' & Hin & Hr). exists tp'. split; [now right|exact Hr].
Qed.

Lemma query_postings_in (self : CustomIndex.t) (query_tokens : list string)
  (token d : string) (tf : Z) :
  In (token, (d, tf)) (query_postings self query_tokens) <->
  In token query_tokens /\ In (d, tf) (CustomIndex.postings self token).
Proof.
  unfold query_postings. rewrite in_flat_map. split.
  - intros (t & Ht & Hin). apply in_map_iff in Hin as (p & [= <- <-] & Hp). auto.
  - intros [Ht Hp]. exists token. split; [exact Ht|]. now apply in_map.
Qed.

(** What [CustomIndex.search_index] returns, in terms of the score
    dictionary its loops leave. *)
Lemma search_index_scores (self : CustomIndex.t) (query : string)
  (results : list (string * R * Metadata)) :
  CustomIndex.search_index self query = Ok results ->
  exists scores,
    foldM (fun scores tp => CustomIndex.score_step self (fst tp) scores (snd tp))
          (query_postings self (document_tokens query)) [] = Ok scores /\
    results = map (fun '(doc_id, score) =>
                     (doc_id, score, default [] (CustomIndex.metadata self !! doc_id)))
                  (sorted_desc scores).
Proof.
  unfold CustomIndex.search_index. rewrite search_loops_flat. intros H.
  apply bind_ok in H as (scores & Hs & [= <-]). exists scores. split; [exact Hs|reflexivity].
Qed.

Lemma search_index_raises (self : CustomIndex.t) (query : string) (e : exn) :
  CustomIndex.search_index self query = Raise e ->
  exists token d tf,
    In token (document_tokens query) /\ In (d, tf) (CustomIndex.postings self token) /\
    CustomIndex.bm25 self d token tf = Raise e.
Proof.
  unfold CustomIndex.search_index. rewrite search_loops_flat. intros H.
  apply bind_raise in H as [H|(scores & _ & H)]; [|discriminate].
  apply score_loop_raises in H as ([token [d tf]] & Hin & Hr).
  apply query_postings_in in Hin as [Ht Hp]. exists token, d, tf. auto.
Qed.

Lemma with_metadata_sorted (meta : gmap string Metadata) (l : list (string * R)) :
  StronglySorted (fun a b => (snd b <= snd a)%R) l ->
  StronglySorted (fun r1 r2 : string * R * Metadata => (snd (fst r2) <= snd (fst r1))%R)
    (map (fun '(doc_id, score) => (doc_id, score, default [] (meta !! doc_id))) l).
Proof.
  induction 1 as [|[d s] l Hl IHl Hall]; simpl; constructor; [exact IHl|].
  apply Forall_forall. intros r Hr.
  apply list_elem_of_In, in_map_iff in Hr as ([d' s'] & <- & Hr).
  rewrite Forall_forall in Hall.
  apply (Hall (d', s')). now apply list_elem_of_In.
Qed.

(** The loops return when every visited posting can be scored. *)
Lemma search_index_returns (self : CustomIndex.t) (query : string) :
  (forall token d tf,
     In token (document_tokens query) -> In (d, tf) (CustomIndex.postings self token) ->
     exists v, CustomIndex.bm25 self d token tf = Ok v) ->
  exists results, CustomIndex.search_index self query = Ok results.
Proof.
  intros Hok.
  destruct (CustomIndex.search_index self query) as [results|e] eqn:E; [eauto|].
  apply search_index_raises in E as (token & d & tf & Ht & Hp & Hr).
  destruct (Hok token d tf Ht Hp) as [v Hv]. congruence.
Qed.

(** C1: [CustomIndex.search_index] tokenizes the query with the pipeline of
    [compute_document_tokens] (the tokenizer followed by the bigrams and
    trigrams), and it returns a list as soon as [bm25] returns for every
    posting of a query token.  In the list it returns: each document is
    listed once; the listed documents are exactly those of the posting
    lists of the query tokens; the score of a document is the sum, over
    every occurrence of a query token and every posting of that token for
    the document, of [bm25(doc_id, token, term_freq)]; its third component
    is the stored metadata ([{}] when none is stored); the list is in order
    of non-increasing score. *)
Theorem search_index_spec (self : CustomIndex.t) (query : string)
  (results : list (string * R * Metadata)) :
  CustomIndex.search_index self query = Ok results ->
  let query_tokens := document_tokens query in
  query_tokens = map text (tokenize_call query ++
                           construct_bigrams (tokenize_call query) ++
                           construct_trigrams (tokenize_call query)) /\
  ((forall token d tf,
      In token query_tokens -> In (d, tf) (CustomIndex.postings self token) ->
      exists v, CustomIndex.bm25 self d token tf = Ok v) <->
   exists results', CustomIndex.search_index self query = Ok results') /\
  List.NoDup (map (fun r => fst (fst r)) results) /\
  (forall d, In d (map (fun r => fst (fst r)) results) <->
             exists token tf, In token query_tokens /\
                              In (d, tf) (CustomIndex.postings self token)) /\
  (forall d s m, In (d, s, m) results ->
     m = default [] (CustomIndex.metadata self !! d) /\
     exists vs,
       hit_scores self d (hits d (query_postings self query_tokens)) = Ok vs /\
       s = sum_list vs) /\
  StronglySorted (fun r1 r2 => (snd (fst r2) <= snd (fst r1))%R) results.
Proof.
  intros H query_tokens. split; [reflexivity|].
  split.
  { split; [apply search_index_returns|].
    intros _ token d tf Ht Hp.
    destruct (CustomIndex.bm25 self d token tf) as [v|e] eqn:E; [eauto|].
    apply search_index_scores in H as (scores & Hloop & _).
    destruct (score_loop _ _ _ _ Hloop) as (_ & _ & Hsum).
    destruct (Hsum d) as (vs & Hvs & _).
    assert (Hin : In (token, (d, tf)) (hits d (query_postings self query_tokens))).
    { unfold hits. apply List.filter_In. split; [now apply query_postings_in|].
      simpl. apply String.eqb_refl. }
    destruct (mapM_ok_in _ _ _ _ Hvs Hin) as [v Hv]. simpl in Hv. congruence. }
  apply search_index_scores in H as (scores & Hloop & ->).
  destruct (score_loop _ _ _ _ Hloop) as (Hnd & Hkeys & Hsum).
  specialize (Hnd (List.NoDup_nil _)).
  assert (Hdocs : map (fun r : string * R * Metadata => fst (fst r))
                    (map (fun '(doc_id, score) =>
                            (doc_id, score,
                             default [] (CustomIndex.metadata self !! doc_id)))
                         (sorted_desc scores)) = map fst (sorted_desc scores)).
  { rewrite map_map. apply map_ext. now intros [d s]. }
  rewrite Hdocs.
  assert (Hperm : Permutation (map fst (sorted_desc scores)) (map fst scores))
    by (apply Permutation_map, sorted_desc_perm).
  split; [now apply (Permutation_NoDup (Permutation_sym Hperm))|].
  split.
  - intros d. split.
    + intros Hin. apply (Permutation_in _ Hperm) in Hin.
      apply Hkeys in Hin as [[]|Hin].
      apply in_map_iff in Hin as ([token [d' tf]] & <- & Hin).
      apply query_postings_in in Hin. exists token, tf. exact Hin.
    + intros (token & tf & Ht & Hp).
      apply (Permutation_in _ (Permutation_sym Hperm)). apply Hkeys. right.
      apply in_map_iff. exists (token, (d, tf)). split; [reflexivity|].
      apply query_postings_in. auto.
  - split.
    + intros d s m Hin. apply in_map_iff in Hin as ([d' s'] & [= -> -> <-] & Hin).
      split; [reflexivity|].
      apply (Permutation_in _ (sorted_desc_perm scores)) in Hin.
      destruct (Hsum d) as (vs & Hvs & Hscore). exists vs. split; [exact Hvs|].
      unfold score_of in Hscore. rewrite (dict_get_in _ _ _ Hnd Hin) in Hscore.
      simpl in Hscore. lra.
    + apply with_metadata_sorted, sorted_desc_sorted.
Qed.

(** ** Searching a loaded index *)

Lemma loaded_bm25_pos (docs : list doc_entry) (l tf : Z) (term : string) :
  List.NoDup (map doc_title docs) ->
  (0 < CustomIndex.avg_doc_length (populate docs))%R ->
  (0 <= l)%Z -> (1 <= tf)%Z ->
  (0 < bm25_value (populate docs) l term tf)%R.
Proof.
  intros Hnd Havg Hl Htf. unfold bm25_value.
  destruct (populate_constants docs) as [Hk Hb].
  pose proof (saturation_pos _ _ _ l Hk Hb Havg Hl) as Hsat.
  assert (1 <= IZR tf)%R by now apply IZR_le.
  apply Rmult_lt_0_compat; [apply idf_pos; now apply loaded_df_le|].
  rewrite Hk in *. apply Rdiv_lt_0_compat; lra.
Qed.

(** A document with a token makes the average length positive. *)
Lemma loaded_avg_pos (docs : list doc_entry) (doc : doc_entry) :
  List.NoDup (map doc_title docs) -> In doc docs ->
  (1 <= length (doc_tokens doc))%nat ->
  (0 < CustomIndex.avg_doc_length (populate docs))%R.
Proof.
  intros Hnd Hin Hlen.
  rewrite populate_avg_doc_length by (intros ->; destruct Hin).
  rewrite populate_size by exact Hnd.
  pose proof (populate_doc_lengths_lookup docs doc Hnd Hin) as Hl.
  pose proof (sum_values_ge _ _ _ (populate_doc_lengths_nonneg docs) Hl) as Hsum.
  apply Rdiv_lt_0_compat; apply IZR_lt.
  - lia.
  - destruct docs; [destruct Hin|simpl; lia].
Qed.

(** On an index loaded with distinct titles every posting can be scored. *)
Lemma loaded_posting_scored (docs : list doc_entry) (term d : string) (tf : Z) :
  List.NoDup (map doc_title docs) ->
  In (d, tf) (CustomIndex.postings (populate docs) term) ->
  exists l,
    CustomIndex.doc_lengths (populate docs) !! d = Some l /\ (1 <= l)%Z /\ (1 <= tf)%Z /\
    (0 < CustomIndex.avg_doc_length (populate docs))%R /\
    CustomIndex.bm25 (populate docs) d term tf = Ok (bm25_value (populate docs) l term tf).
Proof.
  intros Hnd Hin.
  apply populate_postings_in in Hin as (doc & Hdoc & <- & Htf & Hlen).
  pose proof (populate_doc_lengths_lookup docs doc Hnd Hdoc) as Hl.
  pose proof (loaded_avg_pos docs doc Hnd Hdoc Hlen) as Havg.
  exists (Z.of_nat (length (doc_tokens doc))).
  split; [exact Hl|]. split; [lia|]. split; [exact Htf|]. split; [exact Havg|].
  apply loaded_bm25; [exact Havg|exact Hl|lia].
Qed.

Lemma loaded_search_returns (docs : list doc_entry) (query : string) :
  List.NoDup (map doc_title docs) ->
  exists results, CustomIndex.search_index (populate docs) query = Ok results.
Proof.
  intros Hnd.
  destruct (CustomIndex.search_index (populate docs) query) as [results|e] eqn:E;
    [eauto|].
  apply search_index_raises in E as (token & d & tf & _ & Hp & Hr).
  destruct (loaded_posting_scored docs token d tf Hnd Hp) as (l & _ & _ & _ & _ & Hok).
  congruence.
Qed.

(** C10, amended: on an index loaded through [add_document] with pairwise
    distinct titles, for every query, [CustomIndex.search_index] returns a
    list: no lookup fails and no division is by zero.  Every document of a
    posting list has an entry of [doc_lengths] that is at least 1; when
    some posting list is not empty [avg_doc_length] is positive; for every
    posting the divisor of the tf quotient is positive; and the divisor of
    the idf quotient and the argument of the logarithm are positive for
    every term. *)
Theorem loaded_search_defined (docs : list doc_entry) :
  List.NoDup (map doc_title docs) ->
  let self := populate docs in
  (forall query, exists results, CustomIndex.search_index self query = Ok results) /\
  (forall term d tf,
     In (d, tf) (CustomIndex.postings self term) ->
     exists l,
       CustomIndex.doc_lengths self !! d = Some l /\ (1 <= l)%Z /\
       (0 < CustomIndex.avg_doc_length self)%R /\
       (0 < IZR tf + CustomIndex.k1 self *
              (1 - CustomIndex.b self +
               CustomIndex.b self * (IZR l / CustomIndex.avg_doc_length self)))%R /\
       exists v, CustomIndex.bm25 self d term tf = Ok v) /\
  (forall term,
     let num_docs := Z.of_nat (size (CustomIndex.doc_lengths self)) in
     let df := Z.of_nat (length (CustomIndex.postings self term)) in
     (0 < IZR df + 0.5)%R /\
     (0 < (IZR (num_docs - df) + 0.5) / (IZR df + 0.5) + 1.0)%R).
Proof.
  intros Hnd self. split; [intros query; now apply loaded_search_returns|]. split.
  - intros term d tf Hin.
    destruct (loaded_posting_scored docs term d tf Hnd Hin)
      as (l & Hl & Hl1 & Htf & Havg & Hok).
    exists l. split; [exact Hl|]. split; [exact Hl1|]. split; [exact Havg|].
    split; [|eauto].
    destruct (populate_constants docs) as [Hk Hb].
    pose proof (saturation_pos _ _ _ l Hk Hb Havg ltac:(lia)) as Hsat.
    assert (1 <= IZR tf)%R by now apply IZR_le.
    fold self in Hsat. lra.
  - intros term num_docs df.
    pose proof (IZR_of_nat_nonneg (length (CustomIndex.postings self term))).
    split; [subst df; lra|]. apply idf_defined.
Qed.

Lemma one_doc_NoDup : List.NoDup (map doc_title [("A", ["xx"], [])]).
Proof. simpl. constructor; [intros []|constructor]. Defined.

Lemma loaded_search_defined_witness :
  exists results,
    CustomIndex.search_index (populate [("A", ["xx"], [])]) "xx" = Ok results.
Proof.
  destruct (loaded_search_defined [("A", ["xx"], [])] one_doc_NoDup) as (H & _).
  apply H.
Defined.

(** The index after [add_document("A", ["xx"])] and [add_document("A", [])]:
    the posting of the first call stays, the length of the second call
    replaces the first, and the average length is 0. *)
Lemma duplicate_title_index :
  let self := populate [("A", ["xx"], []); ("A", [], [])] in
  CustomIndex.postings self "xx" = [("A", 1%Z)] /\
  CustomIndex.doc_lengths self !! "A" = Some 0%Z /\
  CustomIndex.avg_doc_length self = 0%R.
Proof.
  intros self. split; [|split].
  - subst self. rewrite populate_postings. vm_compute. reflexivity.
  - subst self. change [("A", ["xx"], []); ("A", [], [])]
      with ([("A", ["xx"], [])] ++ [("A", [], []) : doc_entry]).
    rewrite populate_snoc. apply lookup_insert_eq.
  - subst self. rewrite populate_avg_doc_length by discriminate.
    assert (E : CustomIndex.sum_values
                  (CustomIndex.doc_lengths
                     (populate [("A", ["xx"], []); ("A", [], [])])) = 0%Z)
      by (vm_compute; reflexivity).
    rewrite E. unfold Rdiv. apply Rmult_0_l.
Qed.

Lemma bm25_zero_avg (self : CustomIndex.t) (doc_id term : string) (term_freq l : Z) :
  CustomIndex.doc_lengths self !! doc_id = Some l ->
  CustomIndex.avg_doc_length self = 0%R ->
  CustomIndex.bm25 self doc_id term term_freq = Raise ZeroDivisionError.
Proof.
  intros Hl Havg. unfold CustomIndex.bm25.
  destruct (idf_defined (size (CustomIndex.doc_lengths self))
              (length (CustomIndex.postings self term))) as [H1 H2].
  rewrite py_div_ok by exact H1. simpl.
  rewrite py_log_ok by exact H2. simpl.
  rewrite Hl. simpl. now rewrite py_div_zero.
Qed.

Lemma query_xx : document_tokens "xx" = ["xx"].
Proof. vm_compute. reflexivity. Qed.

(** C10 as stated fails: nothing but [add_document] is called, yet the
    document of a posting has the stored length 0, the average length is 0
    and the search for ["xx"] raises [ZeroDivisionError]. *)
Lemma duplicate_title_search_raises :
  let self := populate [("A", ["xx"], []); ("A", [], [])] in
  In ("A", 1%Z) (CustomIndex.postings self "xx") /\
  CustomIndex.doc_lengths self !! "A" = Some 0%Z /\
  CustomIndex.search_index self "xx" = Raise ZeroDivisionError.
Proof.
  intros self. destruct duplicate_title_index as (Hp & Hl & Havg). fold self in Hp, Hl, Havg.
  split; [rewrite Hp; now left|]. split; [exact Hl|].
  unfold CustomIndex.search_index. rewrite search_loops_flat.
  fold (document_tokens "xx"). rewrite query_xx.
  unfold query_postings. simpl flat_map. rewrite Hp. simpl.
  unfold CustomIndex.score_step. simpl.
  now rewrite (bm25_zero_avg self "A" "xx" 1 0 Hl Havg).
Qed.

(** ** Normalization *)

Lemma py_max_spec (vs : list R) :
  forall v, (forall x, In x (v :: vs) -> (x <= py_max v vs)%R) /\ In (py_max v vs) (v :: vs).
Proof.
  unfold py_max. induction vs as [|y vs IH]; intros v; simpl.
  - split; [intros x [<-|[]]; lra|now left].
  - destruct (Rlt_dec v y) as [Hlt|Hge].
    + destruct (IH y) as [H1 H2]. split.
      * intros x [<-|Hx]; [|now apply H1].
        specialize (H1 y (or_introl eq_refl)). lra.
      * now right.
    + destruct (IH v) as [H1 H2]. split.
      * intros x [<-|[<-|Hx]]; [apply H1; now left| |apply H1; now right].
        specialize (H1 v (or_introl eq_refl)). lra.
      * destruct H2 as [H2|H2]; [now left|now right; right].
Qed.

Lemma py_min_spec (vs : list R) :
  forall v, (forall x, In x (v :: vs) -> (py_min v vs <= x)%R) /\ In (py_min v vs) (v :: vs).
Proof.
  unfold py_min. induction vs as [|y vs IH]; intros v; simpl.
  - split; [intros x [<-|[]]; lra|now left].
  - destruct (Rlt_dec y v) as [Hlt|Hge].
    + destruct (IH y) as [H1 H2]. split.
      * intros x [<-|Hx]; [|now apply H1].
        specialize (H1 y (or_introl eq_refl)). lra.
      * now right.
    + destruct (IH v) as [H1 H2]. split.
      * intros x [<-|[<-|Hx]]; [apply H1; now left| |apply H1; now right].
        specialize (H1 v (or_introl eq_refl)). lra.
      * destruct H2 as [H2|H2]; [now left|now right; right].
Qed.


(** The scale factors of [normalize] on a non-empty dictionary. *)
Lemma normalize_ok (res out : list (string * R)) (v : R) (vs : list R) :
  map snd res = v :: vs ->
  normalize res = Ok out ->
  let max_score := py_max v vs in
  let min_score := if Rlt_dec (py_min v vs) max_score then py_min v vs else 0%R in
  (max_score - min_score <> 0)%R /\
  out = map (fun kv => (fst kv, ((snd kv - min_score) / (max_score - min_score))%R)) res.
Proof.
  intros Hvals H max_score min_score. unfold normalize in H. rewrite Hvals in H.
  fold max_score in H. fold min_score in H.
  apply mapM_ok in H.
  assert (Hne : (max_score - min_score <> 0)%R).
  { destruct res as [|kv res]; [discriminate|].
    inversion H as [|? b ? ? Hb _]; subst.
    destruct (Req_dec_T (max_score - min_score) 0) as [E|E]; [|exact E].
    rewrite py_div_zero in Hb by exact E. discriminate. }
  split; [exact Hne|].
  clear Hvals. induction H as [|kv b res out Hb _ IH]; [reflexivity|].
  rewrite py_div_ok in Hb by exact Hne. simpl in Hb. injection Hb as <-.
  simpl. now rewrite IH.
Qed.

Lemma normalize_bounds (res out : list (string * R)) :
  normalize res = Ok out ->
  map fst out = map fst res /\
  (forall d v, In (d, v) out -> (0 <= v <= 1)%R) /\
  (forall d s, In (d, s) res -> (forall d' s', In (d', s') res -> (s' <= s)%R) ->
               In (d, 1%R) out) /\
  ((forall d s d' s', In (d, s) res -> In (d', s') res -> s = s') ->
   forall d v, In (d, v) out -> v = 1%R).
Proof.
  intros H. destruct (map snd res) as [|v vs] eqn:Hvals.
  { destruct res; [|discriminate]. injection H as <-.
    split; [reflexivity|]. repeat split; intros; contradiction. }
  destruct (normalize_ok res out v vs Hvals H) as [Hne ->]. simpl in Hne.
  destruct (py_max_spec vs v) as [Hmax Hmax_in].
  destruct (py_min_spec vs v) as [Hmin Hmin_in].
  rewrite <- Hvals in Hmax, Hmin, Hmax_in, Hmin_in.
  set (mx := py_max v vs) in *. set (mn := py_min v vs) in *.
  assert (Hval : forall d s, In (d, s) res -> (mn <= s <= mx)%R).
  { intros d s Hin. apply (in_map snd) in Hin. split; [now apply Hmin|now apply Hmax]. }
  split; [rewrite map_map; reflexivity|].
  destruct (Rlt_dec mn mx) as [Hlt|Hge].
  - split; [|split].
    + intros d w Hin. apply in_map_iff in Hin as ([d' s] & [= <- <-] & Hin).
      simpl. destruct (Hval _ _ Hin).
      split.
      * apply Rmult_le_pos; [lra|]. left. apply Rinv_0_lt_compat. lra.
      * apply Rmult_le_reg_r with (mx - mn)%R; [lra|].
        unfold Rdiv. rewrite Rmult_assoc, Rinv_l by lra. lra.
    + intros d s Hin Htop.
      apply in_map_iff. exists (d, s). split; [|exact Hin]. simpl. f_equal.
      assert (s = mx) as ->.
      { apply in_map_iff in Hmax_in as ([d' s'] & E & Hin'). simpl in E. subst s'.
        specialize (Htop _ _ Hin'). destruct (Hval _ _ Hin). lra. }
      unfold Rdiv. apply Rinv_r. lra.
    + intros Heq d w Hin. exfalso.
      apply in_map_iff in Hmax_in as ([d1 s1] & E1 & Hin1). simpl in E1.
      apply in_map_iff in Hmin_in as ([d2 s2] & E2 & Hin2). simpl in E2.
      specialize (Heq _ _ _ _ Hin1 Hin2). lra.
  - assert (Hall : forall d s, In (d, s) res -> s = mx).
    { intros d s Hin. destruct (Hval _ _ Hin).
      assert (mn <= mx)%R by (apply Hmax; exact Hmin_in). lra. }
    assert (Hone : forall d w,
               In (d, w) (map (fun kv : string * R =>
                                 (fst kv, ((snd kv - 0) / (mx - 0))%R)) res) ->
               w = 1%R).
    { intros d w Hin. apply in_map_iff in Hin as ([d' s] & [= <- <-] & Hin).
      simpl. rewrite (Hall _ _ Hin). unfold Rdiv. apply Rinv_r. exact Hne. }
    split; [|split].
    + intros d w Hin. rewrite (Hone _ _ Hin). lra.
    + intros d s Hin _. apply in_map_iff. exists (d, s). split; [|exact Hin].
      simpl. f_equal. rewrite (Hall _ _ Hin). unfold Rdiv. apply Rinv_r. exact Hne.
    + intros _. exact Hone.
Qed.

Lemma dict_mem_false {V} (k : string) (d : list (string * V)) :
  ~ In k (map fst d) -> dict_mem k d = false.
Proof.
  unfold dict_mem. induction d as [|[k' v] d IH]; simpl; intros H; [reflexivity|].
  destruct (String.eqb_spec k' k) as [->|Hne]; [tauto|]. simpl. apply IH. tauto.
Qed.

(** When every document is listed once, the loop over the results copies
    them all. *)
Lemma first_seen_loop (results : list (string * R * Metadata)) :
  forall res,
    List.NoDup (map (fun r => fst (fst r)) results) ->
    (forall d, In d (map (fun r => fst (fst r)) results) -> ~ In d (map fst res)) ->
    fold_left (fun res r =>
                 let '(doc_id, score, _) := r in
                 if dict_mem doc_id res then res else res ++ [(doc_id, score)])
              results res =
    res ++ map (fun r => (fst (fst r), snd (fst r))) results.
Proof.
  induction results as [|[[d s] m] results IH]; intros res Hnd Hfresh; simpl.
  - now rewrite app_nil_r.
  - simpl in Hnd. inversion Hnd as [|? ? Hnotin Hnd']; subst.
    rewrite dict_mem_false by (apply Hfresh; now left).
    rewrite IH; [now rewrite <- app_assoc|exact Hnd'|].
    intros d' Hd'. rewrite map_app, in_app_iff. simpl.
    intros [Hin|[<-|[]]]; [|contradiction].
    apply (Hfresh d'); [now right|exact Hin].
Qed.

Lemma search_index_docs_NoDup (self : CustomIndex.t) (query : string)
  (results : list (string * R * Metadata)) :
  CustomIndex.search_index self query = Ok results ->
  List.NoDup (map (fun r => fst (fst r)) results).
Proof.
  intros H. apply search_index_scores in H as (scores & Hloop & ->).
  destruct (score_loop _ _ _ _ Hloop) as (Hnd & _ & _).
  specialize (Hnd (List.NoDup_nil _)).
  rewrite map_map.
  rewrite (map_ext _ fst) by now intros [d s].
  apply (Permutation_NoDup (Permutation_sym (Permutation_map fst (sorted_desc_perm scores)))).
  exact Hnd.
Qed.

Lemma first_seen_results (self : CustomIndex.t) (query : string)
  (results : list (string * R * Metadata)) :
  CustomIndex.search_index self query = Ok results ->
  first_seen results = map (fun r => (fst (fst r), snd (fst r))) results.
Proof.
  intros H. unfold first_seen.
  rewrite first_seen_loop; [reflexivity|now apply (search_index_docs_NoDup self query)|].
  intros d _ [].
Qed.

(** A mapping that is not empty comes from the body of the [try]. *)
Lemma search_index_nonempty (query : string) (index : option CustomIndex.t)
  (res : list (string * R)) :
  search_index query index = Ok res -> res <> [] ->
  exists idx raw,
    index = Some idx /\ CustomIndex.search_index idx query = Ok raw /\
    normalize (first_seen raw) = Ok res.
Proof.
  intros H Hne. destruct index as [idx|]; [|injection H as <-; congruence].
  simpl in H. unfold search_index_except in H.
  destruct (search_index_body query idx) as [res'|e] eqn:Hbody.
  - injection H as ->. unfold search_index_body in Hbody.
    apply bind_ok in Hbody as (raw & Hraw & Hnorm). exists idx, raw. auto.
  - destruct e; simpl in H; try discriminate; injection H as <-; congruence.
Qed.

(** C2: when the orchestrator returns a mapping that is not empty, every
    value lies between 0 and 1, the mapping has the documents of
    [CustomIndex.search_index], a document whose raw score is the highest
    is mapped to 1, and when all raw scores are equal every document is
    mapped to 1. *)
Theorem search_index_normalized (query : string) (index : option CustomIndex.t)
  (res : list (string * R)) :
  search_index query index = Ok res ->
  res <> [] ->
  (forall d v, In (d, v) res -> (0 <= v <= 1)%R) /\
  exists idx raw,
    index = Some idx /\ CustomIndex.search_index idx query = Ok raw /\
    map fst res = map (fun r => fst (fst r)) raw /\
    (forall d s m,
       In (d, s, m) raw ->
       (forall d' s' m', In (d', s', m') raw -> (s' <= s)%R) ->
       dict_get d res = Some 1%R) /\
    ((forall r r', In r raw -> In r' raw -> snd (fst r) = snd (fst r')) ->
     forall d v, In (d, v) res -> v = 1%R).
Proof.
  intros H Hne.
  destruct (search_index_nonempty _ _ _ H Hne) as (idx & raw & -> & Hraw & Hnorm).
  rewrite (first_seen_results idx query raw Hraw) in Hnorm.
  destruct (normalize_bounds _ _ Hnorm) as (Hkeys & Hbounds & Htop & Heq).
  rewrite map_map in Hkeys. simpl in Hkeys.
  split; [exact Hbounds|]. exists idx, raw.
  split; [reflexivity|]. split; [exact Hraw|]. split; [exact Hkeys|]. split.
  - intros d s m Hin Hmax. apply dict_get_in.
    + rewrite Hkeys. now apply (search_index_docs_NoDup idx query).
    + apply (Htop d s).
      * apply in_map_iff. exists (d, s, m). auto.
      * intros d' s' Hin'. apply in_map_iff in Hin' as ([[d2 s2] m2] & [= <- <-] & Hin').
        now apply (Hmax d2 s2 m2).
  - intros Hall. apply Heq. intros d s d' s' Hin Hin'.
    apply in_map_iff in Hin as (r & [= <- <-] & Hin).
    apply in_map_iff in Hin' as (r' & [= <- <-] & Hin').
    now apply Hall.
Qed.

(** ** A corpus of one document *)

Lemma one_doc_search :
  exists v : R,
    (0 < v)%R /\
    CustomIndex.search_index (populate [("A", ["xx"], [])]) "xx" =
      Ok [("A", (0 + v)%R,
           default [] (CustomIndex.metadata (populate [("A", ["xx"], [])]) !! "A"))].
Proof.
  assert (Hp : CustomIndex.postings (populate [("A", ["xx"], [])]) "xx" = [("A", 1%Z)])
    by (rewrite populate_postings; vm_compute; reflexivity).
  destruct (loaded_posting_scored [("A", ["xx"], [])] "xx" "A" 1 one_doc_NoDup)
    as (l & Hl & Hl1 & _ & Havg & Hok); [rewrite Hp; now left|].
  exists (bm25_value (populate [("A", ["xx"], [])]) l "xx" 1).
  split; [apply loaded_bm25_pos; [exact one_doc_NoDup|exact Havg|lia|lia]|].
  remember (populate [("A", ["xx"], [])]) as self eqn:Hself.
  unfold CustomIndex.search_index. rewrite search_loops_flat.
  fold (document_tokens "xx"). rewrite query_xx.
  unfold query_postings. simpl flat_map. rewrite Hp. simpl.
  unfold CustomIndex.score_step. simpl. rewrite Hok. reflexivity.
Defined.

Lemma one_doc_orchestrated :
  exists res,
    search_index "xx" (Some (populate [("A", ["xx"], [])])) = Ok res /\ res <> [].
Proof.
  destruct one_doc_search as (v & Hv & Hsearch).
  exists [("A", ((0 + v - 0) / (0 + v - 0))%R)]. split; [|discriminate].
  remember (populate [("A", ["xx"], [])]) as self eqn:Hself.
  simpl. unfold search_index_body. rewrite Hsearch. simpl.
  unfold normalize, py_max, py_min. simpl.
  destruct (Rlt_dec (0 + v) (0 + v)) as [Hlt|_]; [lra|].
  simpl. rewrite py_div_ok by lra. reflexivity.
Defined.

Lemma search_index_normalized_witness :
  exists res,
    search_index "xx" (Some (populate [("A", ["xx"], [])])) = Ok res /\
    res <> [] /\
    forall d v, In (d, v) res -> (0 <= v <= 1)%R.
Proof.
  destruct one_doc_orchestrated as (res & H & Hne).
  exists res. split; [exact H|]. split; [exact Hne|].
  apply (search_index_normalized "xx" (Some (populate [("A", ["xx"], [])])) res H Hne).
Defined.

Lemma search_index_spec_witness :
  exists results,
    CustomIndex.search_index (populate [("A", ["xx"], [])]) "xx" = Ok results /\
    List.NoDup (map (fun r => fst (fst r)) results) /\
    StronglySorted (fun r1 r2 : string * R * Metadata => (snd (fst r2) <= snd (fst r1))%R)
      results.
Proof.
  destruct one_doc_search as (v & _ & H).
  eexists. split; [exact H|].
  destruct (search_index_spec _ _ _ H) as (_ & _ & Hnd & _ & _ & Hsorted).
  split; [exact Hnd|exact Hsorted].
Defined.

(** ** Failures at the boundary *)

Lemma mapM_raises {A B} (f : A -> result B) (l : list A) (e : exn) :
  mapM f l = Raise e -> exists a, In a l /\ f a = Raise e.
Proof.
  induction l as [|a l IH]; simpl; intros H; [discriminate|].
  apply bind_raise in H as [H|(b & _ & H)]; [exists a; auto|].
  apply bind_raise in H as [H|(bs & _ & H)]; [|discriminate].
  destruct (IH H) as (a' & Hin & Ha'). exists a'. auto.
Qed.

(** The body of the [try] statement of the orchestrator raises nothing but
    [KeyError] and [ZeroDivisionError]. *)
Lemma search_index_body_raises (query : string) (idx : CustomIndex.t) (e : exn) :
  search_index_body query idx = Raise e -> e = KeyError \/ e = ZeroDivisionError.
Proof.
  unfold search_index_body. intros H.
  apply bind_raise in H as [H|(raw & _ & H)].
  - apply search_index_raises in H as (token & d & tf & _ & _ & H).
    now apply bm25_raises in H.
  - unfold normalize in H. destruct (match map snd (first_seen raw) with
                                     | [] => _ | _ :: _ => _ end) as [mx mn].
    apply mapM_raises in H as (kv & _ & H).
    apply bind_raise in H as [H|(q & _ & H)]; [|discriminate].
    apply py_div_raises in H. now right.
Qed.

Lemma tokenize_loop_keeps_index
  (file_cache : (string -> list string) -> string -> result (list string))
  (TicketProgress : Type)
  (set_indexing_progress : TicketProgress -> Z -> TicketProgress)
  (save : TicketProgress -> result unit)
  (index index' : CustomIndex.t) (ticket_progress : option TicketProgress)
  (all_docs : list Document) (e : exn) :
  build_body file_cache TicketProgress set_indexing_progress save
    index ticket_progress all_docs = (index', Raise e) ->
  index' = index /\
  foldM (tokenize_step file_cache TicketProgress set_indexing_progress save)
        (enumerate all_docs) ([], ticket_progress) = Raise e.
Proof.
  unfold build_body.
  destruct (foldM _ (enumerate all_docs) ([], ticket_progress)) as [[all_tokens tp]|e'].
  - discriminate.
  - intros [= <- <-]. auto.
Qed.

(** The search for [xx] in the index of [add_document("A", ["xx"])] and
    [add_document("A", [])] divides by the average length 0. *)
Lemma duplicate_title_body_raises :
  search_index_body "xx" (populate [("A", ["xx"], []); ("A", [], [])]) =
    Raise ZeroDivisionError.
Proof.
  destruct duplicate_title_index as (Hp & Hl & Havg).
  remember (populate [("A", ["xx"], []); ("A", [], [])]) as self eqn:Hself.
  unfold search_index_body, CustomIndex.search_index. rewrite search_loops_flat.
  fold (document_tokens "xx"). rewrite query_xx.
  unfold query_postings. simpl flat_map. rewrite Hp. simpl.
  unfold CustomIndex.score_step. simpl.
  now rewrite (bm25_zero_avg self "A" "xx" 1 0 Hl Havg).
Qed.

(** C8: at the orchestrator, for every query and index, when the body of
    the [try] statement raises an exception other than [SystemExit] the
    function returns the empty mapping, so that for every query and index
    the function returns a mapping; the handlers turn every instance of
    [Exception] into the empty mapping and raise [SystemExit] again.  At
    the builder, when the [try] statement ends with [FileNotFoundError]
    the function returns the index as the statement left it; the exception
    can only come from the tokenization loop, so the index holds the
    documents added before the failure, which are none. *)
Theorem failures_absorbed
  (get_snippet : Snippet -> string)
  (file_cache : (string -> list string) -> string -> result (list string))
  (TicketProgress : Type)
  (set_indexing_total set_indexing_progress : TicketProgress -> Z -> TicketProgress)
  (save : TicketProgress -> result unit) :
  (forall query idx e,
     search_index_body query idx = Raise e -> e <> SystemExit ->
     search_index query (Some idx) = Ok []) /\
  (forall query idx, exists res, search_index query (Some idx) = Ok res) /\
  (forall e, isinstance_Exception e = true -> search_index_except (Raise e) = Ok []) /\
  search_index_except (Raise SystemExit) = Raise SystemExit /\
  (forall snippets len_repo_cache_dir ticket_progress tp index,
     snippets <> [] ->
     start_progress TicketProgress set_indexing_total save ticket_progress
       (length (snippets_to_docs get_snippet snippets len_repo_cache_dir)) = Ok tp ->
     build_body file_cache TicketProgress set_indexing_progress save
       CustomIndex.init tp (snippets_to_docs get_snippet snippets len_repo_cache_dir)
     = (index, Raise FileNotFoundError) ->
     prepare_index_from_snippets get_snippet file_cache TicketProgress
       set_indexing_total set_indexing_progress save
       snippets len_repo_cache_dir ticket_progress = Ok (Some index) /\
     index = populate []).
Proof.
  split; [|split; [|split; [|split]]].
  - intros query idx e Hbody _. simpl. rewrite Hbody.
    now destruct (search_index_body_raises _ _ _ Hbody) as [-> | ->].
  - intros query idx. simpl.
    destruct (search_index_body query idx) as [res|e] eqn:Hbody; [now exists res|].
    exists []. now destruct (search_index_body_raises _ _ _ Hbody) as [-> | ->].
  - intros e He. destruct e; try discriminate; reflexivity.
  - reflexivity.
  - intros snippets n ticket_progress tp index Hne Hstart Hbody.
    unfold prepare_index_from_snippets. cbv zeta.
    assert (E : (length (snippets_to_docs get_snippet snippets n) =? 0)%nat = false)
      by (destruct snippets; [congruence|reflexivity]).
    rewrite E, Hstart. cbn [bind]. rewrite Hbody.
    split; [reflexivity|].
    now apply tokenize_loop_keeps_index in Hbody as [-> _].
Qed.

Lemma failures_absorbed_witness :
  search_index "xx" (Some (populate [("A", ["xx"], []); ("A", [], [])])) = Ok [] /\
  search_index_except (Raise KeyError) = Ok [] /\
  prepare_index_from_snippets snippet_content (fun _ _ => Raise FileNotFoundError)
    unit (fun tp _ => tp) (fun tp _ => tp) (fun _ => Ok tt)
    [mkSnippet "a.py" "x = 1" 0 1] 0 None = Ok (Some (populate [])).
Proof.
  destruct (failures_absorbed snippet_content (fun _ _ => Raise FileNotFoundError)
              unit (fun tp _ => tp) (fun tp _ => tp) (fun _ => Ok tt))
    as (Hbody & _ & Hcatch & _ & Hbuild).
  split; [|split].
  - apply (Hbody "xx" _ ZeroDivisionError duplicate_title_body_raises). discriminate.
  - apply Hcatch. reflexivity.
  - apply (Hbuild [mkSnippet "a.py" "x = 1" 0 1] 0%nat None None (populate []));
      [discriminate|reflexivity|reflexivity].
Defined.

(** ** Section identifiers *)

Lemma str_app_cons (c : ascii) (s1 s2 : string) :
  String.append (String c s1) s2 = String c (String.append s1 s2).
Proof. reflexivity. Qed.

Lemma str_app_nil_l (s : string) : String.append "" s = s.
Proof. reflexivity. Qed.

Lemma str_app_assoc (s1 s2 s3 : string) :
  String.append s1 (String.append s2 s3) = String.append (String.append s1 s2) s3.
Proof.
  induction s1 as [|c s1 IH]; [reflexivity|].
  rewrite !str_app_cons. now rewrite IH.
Qed.

Lemma str_app_nil_r (s : string) : String.append s "" = s.
Proof.
  induction s as [|c s IH]; [reflexivity|]. rewrite str_app_cons. now rewrite IH.
Qed.

Lemma int_to_excel_col_loop_app (fuel : nat) :
  forall n result,
    int_to_excel_col_loop fuel n result =
    String.append (int_to_excel_col_loop fuel n "") result.
Proof.
  induction fuel as [|fuel IH]; intros n result; simpl; [reflexivity|].
  destruct (0 <? n)%Z; [|reflexivity].
  rewrite IH. rewrite (IH _ (String _ "")).
  rewrite <- str_app_assoc. reflexivity.
Qed.

Lemma excel_quotient_lt (n : Z) :
  (0 < n)%Z -> (0 <= (n - 1) / 26 < n)%Z /\ (0 <= (n - 1) mod 26 < 26)%Z.
Proof.
  intros H. pose proof (Z.div_mod (n - 1) 26 ltac:(lia)).
  pose proof (Z.mod_pos_bound (n - 1) 26 ltac:(lia)). lia.
Qed.

(** The loop has stopped by itself within [Z.to_nat n] iterations: more
    fuel changes nothing. *)
Lemma int_to_excel_col_loop_fuel (fuel1 : nat) :
  forall fuel2 n result,
    (Z.to_nat n <= fuel1)%nat -> (Z.to_nat n <= fuel2)%nat ->
    int_to_excel_col_loop fuel1 n result = int_to_excel_col_loop fuel2 n result.
Proof.
  induction fuel1 as [|fuel1 IH]; intros fuel2 n result H1 H2.
  - destruct fuel2 as [|fuel2]; [reflexivity|]. simpl.
    destruct (Z.ltb_spec 0 n); [lia|reflexivity].
  - destruct fuel2 as [|fuel2]; simpl.
    + destruct (Z.ltb_spec 0 n); [lia|reflexivity].
    + destruct (Z.ltb_spec 0 n) as [Hn|Hn]; [|reflexivity].
      destruct (excel_quotient_lt n Hn) as [Hq _]. apply IH; lia.
Qed.

Lemma int_to_excel_col_nonpos (n : Z) : (n <= 0)%Z -> int_to_excel_col n = "".
Proof.
  intros H. unfold int_to_excel_col.
  destruct (Z.to_nat n) eqn:E; [reflexivity|lia].
Qed.

Lemma int_to_excel_col_pos (n : Z) :
  (0 < n)%Z ->
  int_to_excel_col n =
  String.append (int_to_excel_col ((n - 1) / 26))
                (String (chr (65 + (n - 1) mod 26)) "").
Proof.
  intros Hn. unfold int_to_excel_col at 1.
  destruct (Z.to_nat n) as [|fuel] eqn:E; [lia|]. simpl.
  destruct (Z.ltb_spec 0 n); [|lia].
  rewrite int_to_excel_col_loop_app. f_equal.
  destruct (excel_quotient_lt n Hn) as [Hq _].
  apply int_to_excel_col_loop_fuel; lia.
Qed.

Lemma excel_col_to_int_loop_app (s1 s2 : string) :
  forall result,
    excel_col_to_int_loop (String.append s1 s2) result =
    excel_col_to_int_loop s2 (excel_col_to_int_loop s1 result).
Proof. induction s1 as [|c s1 IH]; intros result; simpl; [reflexivity|apply IH]. Qed.

Lemma ord_chr_letter (r : Z) : (0 <= r < 26)%Z -> ord (chr (65 + r)) = (65 + r)%Z.
Proof.
  intros H. unfold ord, chr. rewrite nat_ascii_embedding; lia.
Qed.

Lemma chr_ord (c : ascii) : chr (ord c) = c.
Proof. unfold chr, ord. rewrite Nat2Z.id. apply ascii_nat_embedding. Qed.

Lemma is_upper_ord (c : ascii) : is_upper c = true <-> (65 <= ord c <= 90)%Z.
Proof.
  unfold is_upper, ord. rewrite andb_true_iff, !Nat.leb_le. lia.
Qed.

Lemma all_upper_app (s1 s2 : string) :
  all_upper (String.append s1 s2) = all_upper s1 && all_upper s2.
Proof.
  induction s1 as [|c s1 IH]; simpl; [reflexivity|].
  rewrite IH. now rewrite andb_assoc.
Qed.

Lemma excel_value_round_trip (n : Z) :
  (0 <= n)%Z -> excel_col_to_int_loop (int_to_excel_col n) 0 = n.
Proof.
  intros Hn. remember (Z.to_nat n) as k eqn:Hk. revert n Hn Hk.
  induction k as [k IH] using lt_wf_ind. intros n Hn ->.
  destruct (Z.eq_dec n 0%Z) as [->|Hne]; [reflexivity|].
  destruct (excel_quotient_lt n ltac:(lia)) as [Hq Hr].
  rewrite int_to_excel_col_pos by lia.
  rewrite excel_col_to_int_loop_app.
  rewrite (IH (Z.to_nat ((n - 1) / 26))) by lia.
  simpl. rewrite ord_chr_letter by exact Hr.
  pose proof (Z.div_mod (n - 1) 26 ltac:(lia)). lia.
Qed.

Lemma int_to_excel_col_upper (n : Z) : all_upper (int_to_excel_col n) = true.
Proof.
  destruct (Z.le_gt_cases n 0%Z) as [Hn|Hn];
    [now rewrite int_to_excel_col_nonpos|].
  remember (Z.to_nat n) as k eqn:Hk. revert n Hn Hk.
  induction k as [k IH] using lt_wf_ind. intros n Hn ->.
  destruct (excel_quotient_lt n Hn) as [Hq Hr].
  rewrite int_to_excel_col_pos by exact Hn.
  rewrite all_upper_app. simpl.
  assert (Hc : is_upper (chr (65 + (n - 1) mod 26)) = true)
    by (apply is_upper_ord; rewrite ord_chr_letter; lia).
  rewrite Hc.
  destruct (Z.eq_dec ((n - 1) / 26)%Z 0%Z) as [->|Hne]; [reflexivity|].
  rewrite (IH (Z.to_nat ((n - 1) / 26))); [reflexivity|lia|lia|reflexivity].
Qed.

Lemma excel_string_round_trip (s : string) :
  forall a,
    (0 <= a)%Z -> all_upper s = true ->
    int_to_excel_col (excel_col_to_int_loop s a) =
    String.append (int_to_excel_col a) s.
Proof.
  induction s as [|c s IH]; intros a Ha Hs; simpl.
  - now rewrite str_app_nil_r.
  - simpl in Hs. apply andb_true_iff in Hs as [Hc Hs].
    apply is_upper_ord in Hc.
    rewrite IH by (try exact Hs; lia).
    rewrite (int_to_excel_col_pos (a * 26 + (ord c - 64))) by lia.
    replace ((a * 26 + (ord c - 64) - 1) / 26)%Z with a
      by (apply (Z.div_unique _ 26 a (ord c - 65)); lia).
    replace ((a * 26 + (ord c - 64) - 1) mod 26)%Z with (ord c - 65)%Z
      by (apply (Z.mod_unique _ 26 a (ord c - 65)); lia).
    replace (65 + (ord c - 65))%Z with (ord c) by lia.
    rewrite chr_ord. rewrite <- str_app_assoc. reflexivity.
Qed.

(** X1: the identifier shown for the section of rank [i] (0-based; the
    code passes [i + 1]) is read back as [i]: [excel_col_to_int] inverts
    [int_to_excel_col] up to the shift by one between the two numberings. *)
Theorem excel_col_round_trip (i : Z) :
  (0 <= i)%Z -> excel_col_to_int (int_to_excel_col (i + 1)) = i.
Proof.
  intros Hi. unfold excel_col_to_int.
  rewrite excel_value_round_trip by lia. lia.
Qed.

Lemma excel_col_round_trip_witness :
  excel_col_to_int (int_to_excel_col (27 + 1)) = 27%Z.
Proof. apply excel_col_round_trip. lia. Defined.

(** X2: [int_to_excel_col] returns the empty string for every [n <= 0]
    and otherwise a non-empty string of the letters [A] to [Z] only. *)
Theorem int_to_excel_col_letters (n : Z) :
  all_upper (int_to_excel_col n) = true /\
  (int_to_excel_col n = "" <-> (n <= 0)%Z).
Proof.
  split; [apply int_to_excel_col_upper|]. split.
  - intros H. destruct (Z.le_gt_cases n 0%Z) as [Hn|Hn]; [exact Hn|].
    rewrite int_to_excel_col_pos in H by exact Hn.
    destruct (int_to_excel_col ((n - 1) / 26)); discriminate.
  - apply int_to_excel_col_nonpos.
Qed.

(** X3: every string of the letters [A] to [Z] is the identifier of the
    section it is read as: [int_to_excel_col (excel_col_to_int s + 1) = s].
    With X1, the two functions are inverse bijections between the section
    ranks and the strings of capital letters. *)
Theorem excel_col_round_trip_string (s : string) :
  all_upper s = true -> int_to_excel_col (excel_col_to_int s + 1) = s.
Proof.
  intros Hs. unfold excel_col_to_int.
  replace (excel_col_to_int_loop s 0 - 1 + 1)%Z with (excel_col_to_int_loop s 0) by lia.
  rewrite excel_string_round_trip by (try exact Hs; lia).
  reflexivity.
Qed.

Lemma excel_col_round_trip_string_witness :
  int_to_excel_col (excel_col_to_int "AB" + 1) = "AB".
Proof. apply excel_col_round_trip_string. reflexivity. Defined.

(** ** What the tokenizer emits *)

Lemma lower_length (s : string) : String.length (lower s) = String.length s.
Proof. induction s as [|c s IH]; simpl; [reflexivity|now rewrite IH]. Qed.

Lemma lower_char_idem (c : ascii) : lower_char (lower_char c) = lower_char c.
Proof. destruct c as [[] [] [] [] [] [] [] []]; reflexivity. Qed.

Lemma lower_idem (s : string) : lower (lower s) = lower s.
Proof.
  induction s as [|c s IH]; simpl; [reflexivity|].
  now rewrite lower_char_idem, IH.
Qed.

Lemma lower_app (s1 s2 : string) :
  lower (String.append s1 s2) = String.append (lower s1) (lower s2).
Proof.
  induction s1 as [|c s1 IH]; [reflexivity|].
  rewrite str_app_cons. simpl. now rewrite IH.
Qed.

Lemma str_length_app (s1 s2 : string) :
  String.length (String.append s1 s2) = (String.length s1 + String.length s2)%nat.
Proof.
  induction s1 as [|c s1 IH]; [reflexivity|].
  rewrite str_app_cons. simpl. now rewrite IH.
Qed.

Lemma tok_state_ok_push (st : tok_state) (t : Token) (offset : nat) :
  tok_state_ok st -> well_formed_token t -> pos t = ts_pos st ->
  tok_state_ok (TokState (ts_pos st + 1) offset (ts_valid st ++ [t])).
Proof.
  intros (Hpos & Hseq & Hall) Ht Hp. unfold tok_state_ok. simpl.
  rewrite length_app, map_app, Hseq. simpl.
  split; [lia|]. split.
  - rewrite Nat.add_1_r, seq_S. simpl. now rewrite Hp, Hpos.
  - apply Forall_app. split; [exact Hall|]. now constructor.
Qed.

Lemma part_step_ok (span_start sep : nat) (st : tok_state) (part : string) :
  tok_state_ok st -> tok_state_ok (part_step span_start sep st part).
Proof.
  intros Hst. unfold part_step, check_valid_token.
  destruct (Nat.ltb_spec 1 (String.length part)) as [Hlen|Hlen].
  - pose proof (tok_state_ok_push st
                  (mkToken (lower part) (ts_pos st) (span_start + ts_offset st)
                     (ts_pos st + 1) (span_start + String.length part + ts_offset st))
                  (ts_offset st + String.length part + sep) Hst) as H.
    apply H; [|reflexivity].
    unfold well_formed_token. simpl. rewrite lower_length, lower_idem.
    repeat split; lia.
  - destruct Hst as (H1 & H2 & H3). repeat split; assumption.
Qed.

Lemma part_loop_ok (span_start sep : nat) (parts : list string) :
  forall st, tok_state_ok st ->
             tok_state_ok (fold_left (part_step span_start sep) parts st).
Proof.
  induction parts as [|part parts IH]; intros st Hst; simpl; [exact Hst|].
  apply IH. now apply part_step_ok.
Qed.

Lemma match_step_ok (code : string) (st : tok_state) (m : nat * nat) :
  tok_state_ok st -> tok_state_ok (match_step code st m).
Proof.
  intros Hst. unfold match_step.
  assert (Hreset : tok_state_ok (TokState (ts_pos st) 0 (ts_valid st)))
    by (destruct Hst as (H1 & H2 & H3); repeat split; assumption).
  destruct (contains_char "_" (slice code (fst m) (snd m)));
    [now apply part_loop_ok|].
  destruct (findall variable_pattern (slice code (fst m) (snd m))) as [|p parts];
    [|now apply part_loop_ok].
  unfold check_valid_token.
  destruct (Nat.ltb_spec 1 (String.length (slice code (fst m) (snd m)))) as [Hlen|Hlen];
    [|exact Hst].
  apply tok_state_ok_push; [exact Hst| |reflexivity].
  unfold well_formed_token. simpl. rewrite lower_length, lower_idem.
  repeat split; lia.
Qed.

Lemma tokenize_call_ok (code : string) :
  map pos (tokenize_call code) = seq 0 (length (tokenize_call code)) /\
  Forall well_formed_token (tokenize_call code).
Proof.
  unfold tokenize_call.
  assert (H : forall ms st, tok_state_ok st ->
                            tok_state_ok (fold_left (match_step code) ms st)).
  { induction ms as [|m ms IH]; intros st Hst; simpl; [exact Hst|].
    apply IH. now apply match_step_ok. }
  destruct (H (finditer word_pattern code) (TokState 0 0 [])) as (_ & H2 & H3).
  - repeat split. constructor.
  - split; assumption.
Qed.

(** X4: every token [tokenize_call] emits has a text of at least two
    characters that is in lower case ([lower()] leaves it unchanged),
    whatever the input is and whichever of the three branches emitted it. *)
Theorem tokenize_call_texts (code : string) :
  Forall (fun t => (2 <= String.length (text t))%nat /\ lower (text t) = text t)
         (tokenize_call code).
Proof.
  destruct (tokenize_call_ok code) as [_ H].
  eapply Forall_impl; [exact H|].
  intros t (H1 & H2 & _). split; assumption.
Qed.

(** X5: the tokens of [tokenize_call] are numbered densely from 0 in the
    order they are emitted, a dropped part takes no number, and each token
    ends one position after it starts.  On ASCII input, where [lower()]
    keeps the length of a string, the character span of a token is as long
    as its text. *)
Theorem tokenize_call_positions (code : string) :
  map pos (tokenize_call code) = seq 0 (length (tokenize_call code)) /\
  Forall (fun t => end_pos t = (pos t + 1)%nat) (tokenize_call code) /\
  (isascii code = true ->
   Forall (fun t => endchar t = (startchar t + String.length (text t))%nat)
          (tokenize_call code)).
Proof.
  destruct (tokenize_call_ok code) as [H1 H2]. split; [exact H1|].
  split; [|intros _]; (eapply Forall_impl; [exact H2|]);
    intros t (_ & _ & H3 & H4); assumption.
Qed.

Lemma tokenize_call_positions_witness :
  map pos (tokenize_call "get_user fooBar x1") = [0; 1; 2; 3]%nat /\
  Forall (fun t => endchar t = (startchar t + String.length (text t))%nat)
         (tokenize_call "get_user fooBar x1").
Proof.
  destruct (tokenize_call_positions "get_user fooBar x1") as (H1 & _ & H3).
  split; [rewrite H1; vm_compute; reflexivity|].
  apply H3. reflexivity.
Defined.

(** ** What the tokenizer yields with its n-grams *)

Lemma firstn_seq_min (k : nat) : forall s n, firstn k (seq s n) = seq s (Nat.min k n).
Proof.
  induction k as [|k IH]; intros s n; [reflexivity|].
  destruct n as [|n]; [reflexivity|]. simpl. now rewrite IH.
Qed.

Lemma adjacent_pairs_pos (tokens : list Token) :
  map pos (adjacent_pairs tokens) = firstn (length tokens - 1) (map pos tokens).
Proof.
  induction tokens as [|a [|b tokens] IH]; [reflexivity..|].
  assert (E : (length (a :: b :: tokens) - 1 = S (length (b :: tokens) - 1))%nat)
    by (simpl; lia).
  rewrite E.
  change (pos a :: map pos (adjacent_pairs (b :: tokens)) =
          pos a :: firstn (length (b :: tokens) - 1) (map pos (b :: tokens))).
  now rewrite IH.
Qed.

Lemma adjacent_triples_pos (tokens : list Token) :
  map pos (adjacent_triples tokens) = firstn (length tokens - 2) (map pos tokens).
Proof.
  induction tokens as [|a tokens IH]; [reflexivity|].
  destruct tokens as [|b [|c tokens]]; [reflexivity..|].
  assert (E : (length (a :: b :: c :: tokens) - 2 =
               S (length (b :: c :: tokens) - 2))%nat) by (simpl; lia).
  rewrite E.
  change (pos a :: map pos (adjacent_triples (b :: c :: tokens)) =
          pos a :: firstn (length (b :: c :: tokens) - 2)
                          (map pos (b :: c :: tokens))).
  now rewrite IH.
Qed.

Lemma adjacent_pairs_in (tokens : list Token) (t : Token) :
  In t (adjacent_pairs tokens) ->
  exists a b, In a tokens /\ In b tokens /\ t = join2 a b.
Proof.
  induction tokens as [|a [|b tokens] IH]; [intros []..|].
  intros [<-|Hin].
  - exists a, b. split; [now left|]. split; [right; now left|reflexivity].
  - destruct (IH Hin) as (a' & b' & Ha & Hb & ->).
    exists a', b'. split; [now right|]. split; [now right|reflexivity].
Qed.

Lemma adjacent_triples_in (tokens : list Token) (t : Token) :
  In t (adjacent_triples tokens) ->
  exists a b c, In a tokens /\ In b tokens /\ In c tokens /\ t = join3 a b c.
Proof.
  induction tokens as [|a tokens IH]; [intros []|].
  destruct tokens as [|b [|c tokens]]; [intros []..|].
  intros [<-|Hin].
  - exists a, b, c. split; [now left|]. split; [right; now left|].
    split; [right; right; now left|reflexivity].
  - destruct (IH Hin) as (a' & b' & c' & Ha & Hb & Hc & ->).
    exists a', b', c'. split; [now right|]. split; [now right|].
    split; [now right|reflexivity].
Qed.

(** X6: for [n] tokens of [tokenize_call] the tokenizer yields
    [n + (n - 1) + (n - 2)] tokens (truncated subtractions), in this
    order: the [n] tokens, then the [n - 1] bigrams, then the [n - 2]
    trigrams.  The token at rank [n + i] joins the tokens [i] and [i + 1],
    the token at rank [n + (n - 1) + i] joins the tokens [i], [i + 1] and
    [i + 2].  The bigrams are numbered from 0 like the tokens, and so are
    the trigrams.  What is indexed is the text of each token yielded, and
    every text is in lower case and has at least two characters. *)
Theorem CodeTokenizer_yields (value : string) :
  let tokens := tokenize_call value in
  let n := length tokens in
  length (CodeTokenizer value) = (n + (n - 1) + (n - 2))%nat /\
  document_tokens value = map text (CodeTokenizer value) /\
  (forall i, (i < n)%nat -> nth_error (CodeTokenizer value) i = nth_error tokens i) /\
  (forall i a b,
     nth_error tokens i = Some a -> nth_error tokens (S i) = Some b ->
     nth_error (CodeTokenizer value) (n + i) =
       Some (mkToken (text a ++ "_" ++ text b) (pos a) (startchar a)
               (end_pos b) (endchar b))) /\
  (forall i a b c,
     nth_error tokens i = Some a -> nth_error tokens (S i) = Some b ->
     nth_error tokens (S (S i)) = Some c ->
     nth_error (CodeTokenizer value) (n + (n - 1) + i) =
       Some (mkToken (text a ++ "_" ++ text b ++ "_" ++ text c) (pos a)
               (startchar a) (end_pos c) (endchar c))) /\
  map pos (firstn (n - 1) (skipn n (CodeTokenizer value))) = seq 0 (n - 1) /\
  map pos (skipn (n + (n - 1)) (CodeTokenizer value)) = seq 0 (n - 2) /\
  Forall (fun token => (2 <= String.length token)%nat /\ lower token = token)
         (document_tokens value).
Proof.
  intros tokens n. unfold document_tokens, CodeTokenizer. fold tokens.
  rewrite construct_bigrams_pairs, construct_trigrams_triples.
  destruct (tokenize_call_ok value) as [Hpos Hok]. fold tokens in Hpos, Hok. fold n in Hpos.
  pose proof (adjacent_pairs_length tokens) as Hlen2. fold n in Hlen2.
  pose proof (adjacent_triples_length tokens) as Hlen3. fold n in Hlen3.
  split; [rewrite !length_app; lia|]. split; [reflexivity|].
  split; [intros i Hi; now rewrite nth_error_app1|].
  split.
  { intros i a b Ha Hb.
    rewrite nth_error_app2 by (fold n; lia).
    replace (n + i - length tokens)%nat with i by (fold n; lia).
    assert (Hi : (S i < n)%nat)
      by (unfold n; apply List.nth_error_Some; rewrite Hb; discriminate).
    rewrite nth_error_app1 by lia.
    now rewrite adjacent_pairs_nth, Ha, Hb. }
  split.
  { intros i a b c Ha Hb Hc.
    rewrite nth_error_app2 by (fold n; lia).
    rewrite nth_error_app2 by (fold n; lia).
    replace (n + (n - 1) + i - length tokens - length (adjacent_pairs tokens))%nat
      with i by (fold n; lia).
    now rewrite adjacent_triples_nth, Ha, Hb, Hc. }
  split.
  { replace (skipn n (tokens ++ adjacent_pairs tokens ++ adjacent_triples tokens))
      with (adjacent_pairs tokens ++ adjacent_triples tokens)
      by (symmetry; apply drop_app_length).
    replace (firstn (n - 1) (adjacent_pairs tokens ++ adjacent_triples tokens))
      with (adjacent_pairs tokens)
      by (rewrite <- Hlen2; symmetry; apply take_app_length).
    rewrite adjacent_pairs_pos, Hpos, firstn_seq_min. fold n. f_equal. lia. }
  split.
  { replace (skipn (n + (n - 1))
               (tokens ++ adjacent_pairs tokens ++ adjacent_triples tokens))
      with (adjacent_triples tokens).
    - rewrite adjacent_triples_pos, Hpos, firstn_seq_min. fold n. f_equal. lia.
    - rewrite app_assoc.
      replace (n + (n - 1))%nat with (length (tokens ++ adjacent_pairs tokens))
        by (rewrite length_app; fold n; lia).
      symmetry. apply drop_app_length. }
  assert (Htok : forall t, In t tokens ->
                           (2 <= String.length (text t))%nat /\ lower (text t) = text t).
  { intros t Ht. rewrite List.Forall_forall in Hok.
    destruct (Hok t Ht) as (H1 & H2 & _). auto. }
  apply List.Forall_forall. intros s Hs.
  apply in_map_iff in Hs as (t & <- & Ht).
  apply in_app_iff in Ht as [Ht|Ht]; [now apply Htok|].
  apply in_app_iff in Ht as [Ht|Ht].
  - apply adjacent_pairs_in in Ht as (a & b & Ha & Hb & ->).
    destruct (Htok a Ha) as [Ha1 Ha2]. destruct (Htok b Hb) as [Hb1 Hb2].
    unfold join2. simpl text. split.
    + rewrite !str_length_app. lia.
    + rewrite !lower_app, Ha2, Hb2. reflexivity.
  - apply adjacent_triples_in in Ht as (a & b & c & Ha & Hb & Hc & ->).
    destruct (Htok a Ha) as [Ha1 Ha2]. destruct (Htok b Hb) as [Hb1 Hb2].
    destruct (Htok c Hc) as [Hc1 Hc2].
    unfold join3. simpl text. split.
    + rewrite !str_length_app. lia.
    + rewrite !lower_app, Ha2, Hb2, Hc2. reflexivity.
Qed.

Lemma CodeTokenizer_yields_witness :
  map text (CodeTokenizer "get_user fooBar") =
    ["get"; "user"; "foo"; "bar";
     "get_user"; "user_foo"; "foo_bar"; "get_user_foo"; "user_foo_bar"] /\
  nth_error (CodeTokenizer "get_user fooBar") (4 + 1) =
    Some (mkToken "user_foo" 1 4 3 12).
Proof.
  destruct (CodeTokenizer_yields "get_user fooBar") as (_ & _ & _ & H & _).
  split; [vm_compute; reflexivity|].
  apply (H 1%nat (mkToken "user" 1 4 2 8) (mkToken "foo" 2 9 3 12)); vm_compute; reflexivity.
Defined.

(** ** Adding a document *)

Lemma counter_add_get (token : string) (c : list (string * Z)) (k : string) :
  dict_get k (counter_add token c) =
  if String.eqb token k
  then Some (match dict_get token c with Some n => n + 1 | None => 1 end)%Z
  else dict_get k c.
Proof.
  unfold dict_get.
  induction c as [|[k' n] c IH]; simpl.
  - destruct (String.eqb token k); reflexivity.
  - destruct (String.eqb_spec k' token) as [->|Hne]; simpl.
    + destruct (String.eqb token k); reflexivity.
    + destruct (String.eqb_spec k' k) as [->|Hne']; simpl.
      * destruct (String.eqb_spec token k) as [->|_]; [congruence|reflexivity].
      * rewrite IH. destruct (String.eqb_spec token k) as [->|_]; [|reflexivity].
        destruct (String.eqb_spec k' k); [congruence|reflexivity].
Qed.

Lemma Counter_loop_get (tokens : list string) (k : string) :
  forall c,
    dict_get k (fold_left (fun c token => counter_add token c) tokens c) =
    match count_occ string_dec tokens k with
    | O => dict_get k c
    | S m => Some (match dict_get k c with Some n => n | None => 0 end
                   + Z.of_nat (S m))%Z
    end.
Proof.
  induction tokens as [|token tokens IH]; intros c; [reflexivity|].
  simpl fold_left. rewrite IH, counter_add_get.
  destruct (string_dec token k) as [->|Hne].
  - rewrite count_occ_cons_eq by reflexivity. rewrite String.eqb_refl.
    destruct (count_occ string_dec tokens k); f_equal;
      destruct (dict_get k c); lia.
  - rewrite count_occ_cons_neq by exact Hne.
    destruct (String.eqb_spec token k); [congruence|reflexivity].
Qed.

Lemma Counter_get (tokens : list string) (k : string) :
  dict_get k (Counter tokens) =
  match count_occ string_dec tokens k with
  | O => None
  | S m => Some (Z.of_nat (S m))
  end.
Proof.
  unfold Counter. rewrite Counter_loop_get.
  destruct (count_occ string_dec tokens k); [reflexivity|]. f_equal.
Qed.

Lemma contribution_dict_get (doc_id term : string) (items : list (string * Z)) :
  List.NoDup (map fst items) ->
  contribution doc_id term items =
  match dict_get term items with
  | Some n => [(doc_id, n)]
  | None => []
  end.
Proof.
  unfold dict_get.
  induction items as [|[k n] items IH]; simpl; intros Hnd; [reflexivity|].
  inversion Hnd as [|? ? Hnotin Hnd']; subst.
  destruct (String.eqb_spec k term) as [->|Hne]; simpl.
  - now rewrite (contribution_not_in doc_id term items Hnotin).
  - now apply IH.
Qed.

(** X7: [add_document] appends to the posting list of each distinct token
    of the document exactly one posting, the title with the number of
    occurrences of the token, and leaves the posting lists of all other
    terms as they were.  It stores the token count and the metadata under
    the title, keeps the lengths and metadata of every other title, and
    keeps [k1] and [b]. *)
Theorem add_document_effect (self : CustomIndex.t) (title : string)
  (tokens : list string) (meta : Metadata) (term d : string) :
  let self' := CustomIndex.add_document self title tokens meta in
  CustomIndex.postings self' term =
    CustomIndex.postings self term ++
    match count_occ string_dec tokens term with
    | O => []
    | S m => [(title, Z.of_nat (S m))]
    end /\
  CustomIndex.doc_lengths self' !! d =
    (if String.eqb title d then Some (Z.of_nat (length tokens))
     else CustomIndex.doc_lengths self !! d) /\
  CustomIndex.metadata self' !! d =
    (if String.eqb title d then Some meta else CustomIndex.metadata self !! d) /\
  CustomIndex.k1 self' = CustomIndex.k1 self /\
  CustomIndex.b self' = CustomIndex.b self.
Proof.
  intros self'. split.
  - subst self'. rewrite add_document_postings.
    rewrite contribution_dict_get by apply Counter_NoDup.
    rewrite Counter_get. now destruct (count_occ string_dec tokens term).
  - subst self'. simpl.
    destruct (String.eqb_spec title d) as [->|Hne].
    + rewrite !lookup_insert_eq. auto.
    + rewrite !lookup_insert_ne by exact Hne. auto.
Qed.

(** ** How [bm25] fails and how far it goes on the postings of the index *)

Lemma sum_values_zero (d : gmap string Z) :
  (forall k v, d !! k = Some v -> v = 0%Z) -> CustomIndex.sum_values d = 0%Z.
Proof.
  induction d as [|k v d Hk IH] using map_ind; intros H; [reflexivity|].
  rewrite sum_values_insert by exact Hk.
  rewrite (H k v) by apply lookup_insert_eq.
  rewrite IH; [reflexivity|].
  intros k' v' Hk'. apply (H k').
  rewrite lookup_insert_ne; [exact Hk'|]. intros ->. congruence.
Qed.

(** The average length of an index built by [add_document] is not
    negative, and it is 0 exactly when every stored length is 0. *)
Lemma populate_avg_zero (docs : list doc_entry) :
  docs <> [] ->
  (0 <= CustomIndex.avg_doc_length (populate docs))%R /\
  (CustomIndex.avg_doc_length (populate docs) = 0%R <->
   forall t l, CustomIndex.doc_lengths (populate docs) !! t = Some l -> l = 0%Z).
Proof.
  intros Hne. rewrite populate_avg_doc_length by exact Hne.
  pose proof (sum_values_nonneg _ (populate_doc_lengths_nonneg docs)) as Hsum.
  assert (Hsize : (0 < Z.of_nat (size (CustomIndex.doc_lengths (populate docs))))%Z).
  { destruct docs as [|d docs _] using rev_ind; [congruence|].
    rewrite populate_snoc. simpl.
    pose proof (index_document_size_pos (CustomIndex.doc_lengths (populate docs))
                  (doc_title d) (Z.of_nat (length (doc_tokens d)))).
    lia. }
  apply IZR_le in Hsum. apply IZR_lt in Hsize.
  set (total := CustomIndex.sum_values _) in *.
  set (n := Z.of_nat _) in *.
  split; [apply Rmult_le_pos; [exact Hsum|left; now apply Rinv_0_lt_compat]|].
  split.
  - intros Havg t l Hl.
    assert (Htotal : total = 0%Z).
    { apply eq_IZR. apply Rmult_eq_reg_r with (/ IZR n)%R.
      - rewrite Rmult_0_l. exact Havg.
      - apply Rinv_neq_0_compat. lra. }
    pose proof (sum_values_ge _ _ _ (populate_doc_lengths_nonneg docs) Hl) as Hle.
    pose proof (populate_doc_lengths_nonneg _ _ _ Hl). fold total in Hle. lia.
  - intros Hall. unfold total. rewrite (sum_values_zero _ Hall).
    unfold Rdiv. apply Rmult_0_l.
Qed.

(** X8: on an index built by [add_document] alone, titles repeated or not,
    scoring a posting of the index never fails a lookup: the document of
    the posting has a stored length.  [bm25] returns a score for the
    posting unless the average length is 0, which is when every stored
    length is 0, and then it raises [ZeroDivisionError]. *)
Theorem bm25_failures (docs : list doc_entry) (term d : string) (tf : Z) :
  In (d, tf) (CustomIndex.postings (populate docs) term) ->
  let self := populate docs in
  (exists l, CustomIndex.doc_lengths self !! d = Some l /\ (0 <= l)%Z) /\
  (1 <= tf)%Z /\
  (CustomIndex.avg_doc_length self = 0%R <->
   forall t l, CustomIndex.doc_lengths self !! t = Some l -> l = 0%Z) /\
  (CustomIndex.avg_doc_length self = 0%R ->
   CustomIndex.bm25 self d term tf = Raise ZeroDivisionError) /\
  (CustomIndex.avg_doc_length self <> 0%R ->
   exists s, CustomIndex.bm25 self d term tf = Ok s).
Proof.
  intros Hin self.
  assert (Hne : docs <> []).
  { intros ->. rewrite populate_postings in Hin. destruct Hin. }
  destruct (populate_avg_zero docs Hne) as [Havg0 Hzero]. fold self in Havg0, Hzero.
  apply populate_postings_in in Hin as (doc & Hdoc & <- & Htf & _).
  assert (Hd : is_Some (CustomIndex.doc_lengths self !! doc_title doc))
    by (apply populate_doc_lengths_dom; now apply in_map).
  destruct Hd as [l Hl].
  pose proof (populate_doc_lengths_nonneg _ _ _ Hl) as Hl0.
  split; [exists l; auto|]. split; [exact Htf|]. split; [exact Hzero|]. split.
  - intros Havg. now apply (bm25_zero_avg self _ term tf l).
  - intros Havg. exists (bm25_value self l term tf).
    apply loaded_bm25; [|exact Hl|lia].
    destruct Havg0 as [Hlt|Heq]; [exact Hlt|now symmetry in Heq].
Qed.

Lemma bm25_failures_witness :
  CustomIndex.bm25 (populate [("A", ["xx"], []); ("A", [], [])]) "A" "xx" 1 =
    Raise ZeroDivisionError.
Proof.
  destruct duplicate_title_index as (Hp & _ & Havg).
  destruct (bm25_failures [("A", ["xx"], []); ("A", [], [])] "xx" "A" 1)
    as (_ & _ & _ & H & _); [rewrite Hp; now left|].
  apply H. exact Havg.
Defined.

(** The idf is the logarithm of [(N + 1) / (df + 0.5)], so it is strictly
    decreasing in the number of postings. *)
Lemma idf_decreasing (n df1 df2 : nat) :
  (df1 < df2)%nat ->
  (ln ((IZR (Z.of_nat n - Z.of_nat df2) + 0.5) / (IZR (Z.of_nat df2) + 0.5) + 1.0) <
   ln ((IZR (Z.of_nat n - Z.of_nat df1) + 0.5) / (IZR (Z.of_nat df1) + 0.5) + 1.0))%R.
Proof.
  intros Hlt.
  pose proof (IZR_of_nat_nonneg n). pose proof (IZR_of_nat_nonneg df1).
  assert (IZR (Z.of_nat df1) < IZR (Z.of_nat df2))%R by (apply IZR_lt; lia).
  rewrite !minus_IZR, !idf_quotient by lra.
  apply ln_increasing; [apply Rdiv_lt_0_compat; lra|].
  apply div_lt_cross; try lra. nra.
Qed.

(** X9: on an index loaded with distinct titles, the score of a posting of
    the index (a document and the stored frequency of a term in it) is
    positive and stays below [(k1 + 1)] times the idf of the term, however
    often the term occurs in the document. *)
Theorem bm25_saturates (docs : list doc_entry) (d term : string) (tf : Z) :
  List.NoDup (map doc_title docs) ->
  In (d, tf) (CustomIndex.postings (populate docs) term) ->
  let self := populate docs in
  let num_docs := Z.of_nat (size (CustomIndex.doc_lengths self)) in
  let df := Z.of_nat (length (CustomIndex.postings self term)) in
  exists s,
    CustomIndex.bm25 self d term tf = Ok s /\
    (0 < s < (1.2 + 1) * ln ((IZR (num_docs - df) + 0.5) / (IZR df + 0.5) + 1.0))%R.
Proof.
  intros Hnd Hin self num_docs df.
  destruct (loaded_posting_scored docs term d tf Hnd Hin)
    as (l & Hl & Hl1 & Htf & Havg & Hok).
  exists (bm25_value self l term tf). split; [exact Hok|].
  split; [apply loaded_bm25_pos; [exact Hnd|exact Havg|lia|exact Htf]|].
  unfold bm25_value. fold num_docs. fold df.
  destruct (populate_constants docs) as [Hk Hb]. fold self in Hk, Hb.
  pose proof (saturation_pos _ _ _ l Hk Hb Havg ltac:(lia)) as Hsat. fold self in Hsat.
  set (K := (CustomIndex.k1 self * _)%R) in *.
  assert (1 <= IZR tf)%R by now apply IZR_le.
  pose proof (idf_pos _ _ (loaded_df_le docs Hnd term)) as Hidf.
  fold self in Hidf. fold num_docs in Hidf. fold df in Hidf.
  set (idf := ln _) in *.
  rewrite Hk.
  assert (Hq : ((1.2 + 1) * IZR tf / (IZR tf + K) < 1.2 + 1)%R).
  { apply Rmult_lt_reg_r with (IZR tf + K)%R; [lra|].
    unfold Rdiv. rewrite Rmult_assoc, Rinv_l by lra. nra. }
  rewrite (Rmult_comm (1.2 + 1) idf).
  apply Rmult_lt_compat_l; assumption.
Qed.

Lemma two_docs_postings :
  CustomIndex.postings (populate [("A", ["xx"], []); ("B", ["xx"; "yy"], [])]) "xx" =
    [("A", 1%Z); ("B", 1%Z)] /\
  CustomIndex.postings (populate [("A", ["xx"], []); ("B", ["xx"; "yy"], [])]) "yy" =
    [("B", 1%Z)].
Proof. rewrite !populate_postings. split; vm_compute; reflexivity. Qed.

Lemma bm25_saturates_witness :
  exists s,
    CustomIndex.bm25 (populate [("A", ["xx"], []); ("B", ["xx"; "yy"], [])]) "A" "xx" 1
      = Ok s /\ (0 < s)%R.
Proof.
  destruct two_docs_postings as [Hxx _].
  destruct (bm25_saturates [("A", ["xx"], []); ("B", ["xx"; "yy"], [])] "A" "xx" 1
              two_docs_NoDup)
    as (s & Hs & Hpos & _); [rewrite Hxx; now left|exists s; auto].
Defined.

(** X10: on an index loaded with distinct titles, when two terms occur
    equally often in a document, the term with fewer postings gives the
    document a strictly higher score than the term with more postings. *)
Theorem bm25_rarer_term_scores_higher (docs : list doc_entry)
  (d term1 term2 : string) (tf : Z) :
  List.NoDup (map doc_title docs) ->
  In (d, tf) (CustomIndex.postings (populate docs) term1) ->
  In (d, tf) (CustomIndex.postings (populate docs) term2) ->
  (length (CustomIndex.postings (populate docs) term1) <
   length (CustomIndex.postings (populate docs) term2))%nat ->
  exists s1 s2,
    CustomIndex.bm25 (populate docs) d term1 tf = Ok s1 /\
    CustomIndex.bm25 (populate docs) d term2 tf = Ok s2 /\
    (s2 < s1)%R.
Proof.
  intros Hnd Hin1 Hin2 Hdf.
  destruct (loaded_posting_scored docs term1 d tf Hnd Hin1)
    as (l & Hl & Hl1 & Htf & Havg & Hok1).
  destruct (loaded_posting_scored docs term2 d tf Hnd Hin2)
    as (l' & Hl' & _ & _ & _ & Hok2).
  assert (l' = l) as -> by congruence.
  exists (bm25_value (populate docs) l term1 tf), (bm25_value (populate docs) l term2 tf).
  split; [exact Hok1|]. split; [exact Hok2|].
  unfold bm25_value.
  destruct (populate_constants docs) as [Hk Hb].
  pose proof (saturation_pos _ _ _ l Hk Hb Havg ltac:(lia)) as Hsat.
  set (K := (CustomIndex.k1 (populate docs) * _)%R) in *.
  assert (1 <= IZR tf)%R by now apply IZR_le.
  apply Rmult_lt_compat_r; [|now apply idf_decreasing].
  rewrite Hk. apply Rdiv_lt_0_compat; lra.
Qed.

Lemma bm25_rarer_term_scores_higher_witness :
  exists s1 s2,
    CustomIndex.bm25 (populate [("A", ["xx"], []); ("B", ["xx"; "yy"], [])]) "B" "yy" 1
      = Ok s1 /\
    CustomIndex.bm25 (populate [("A", ["xx"], []); ("B", ["xx"; "yy"], [])]) "B" "xx" 1
      = Ok s2 /\
    (s2 < s1)%R.
Proof.
  destruct two_docs_postings as [Hxx Hyy].
  apply (bm25_rarer_term_scores_higher
           [("A", ["xx"], []); ("B", ["xx"; "yy"], [])] "B" "yy" "xx" 1
           two_docs_NoDup).
  - rewrite Hyy. now left.
  - rewrite Hxx. right. now left.
  - rewrite Hxx, Hyy. simpl. lia.
Defined.

(** ** Searching what was loaded *)

Lemma dict_get_some_in {V} (d : list (string * V)) (k : string) (v : V) :
  dict_get k d = Some v -> In (k, v) d.
Proof.
  unfold dict_get. induction d as [|[k' v'] d IH]; simpl; [discriminate|].
  destruct (String.eqb_spec k' k) as [->|Hne]; simpl.
  - intros [= ->]. now left.
  - intros H. right. now apply IH.
Qed.

Lemma populate_postings_iff (docs : list doc_entry) (term d : string) (tf : Z) :
  In (d, tf) (CustomIndex.postings (populate docs) term) <->
  exists doc,
    In doc docs /\ doc_title doc = d /\ In term (doc_tokens doc) /\
    tf = Z.of_nat (count_occ string_dec (doc_tokens doc) term).
Proof.
  rewrite populate_postings, in_flat_map. split.
  - intros (doc & Hdoc & Hin). apply contribution_in in Hin as [-> Hin].
    apply (dict_get_in _ _ _ (Counter_NoDup _)) in Hin. rewrite Counter_get in Hin.
    exists doc. split; [exact Hdoc|]. split; [reflexivity|].
    destruct (count_occ string_dec (doc_tokens doc) term) as [|m] eqn:E; [discriminate|].
    injection Hin as <-. split; [|reflexivity].
    apply (count_occ_In string_dec). lia.
  - intros (doc & Hdoc & <- & Hterm & ->). exists doc. split; [exact Hdoc|].
    apply contribution_in. split; [reflexivity|].
    apply dict_get_some_in. rewrite Counter_get.
    apply (count_occ_In string_dec) in Hterm.
    destruct (count_occ string_dec (doc_tokens doc) term); [lia|reflexivity].
Qed.

Lemma populate_metadata_lookup (docs : list doc_entry) (d : doc_entry) :
  List.NoDup (map doc_title docs) -> In d docs ->
  CustomIndex.metadata (populate docs) !! doc_title d = Some (doc_meta d).
Proof.
  induction docs as [|d' docs IH] using rev_ind; intros Hnd Hin; [destruct Hin|].
  rewrite map_app in Hnd. simpl in Hnd.
  apply List.NoDup_remove in Hnd as [Hnd Hnotin]. rewrite app_nil_r in Hnd, Hnotin.
  rewrite populate_snoc. simpl.
  apply in_app_iff in Hin as [Hin|[->|[]]].
  - rewrite lookup_insert_ne; [now apply IH|].
    intros E. apply Hnotin. rewrite E. now apply in_map.
  - apply lookup_insert_eq.
Qed.

(** The entries of a returned list, read off the score dictionary. *)
Lemma search_index_entries (self : CustomIndex.t) (query : string)
  (results : list (string * R * Metadata)) :
  CustomIndex.search_index self query = Ok results ->
  (forall d, In d (map (fun r => fst (fst r)) results) <->
             exists token tf, In token (document_tokens query) /\
                              In (d, tf) (CustomIndex.postings self token)) /\
  (forall d s m, In (d, s, m) results ->
     m = default [] (CustomIndex.metadata self !! d) /\
     exists vs,
       hit_scores self d (hits d (query_postings self (document_tokens query))) = Ok vs /\
       s = sum_list vs).
Proof.
  intros H. apply search_index_scores in H as (scores & Hloop & ->).
  destruct (score_loop _ _ _ _ Hloop) as (Hnd & Hkeys & Hsum).
  specialize (Hnd (List.NoDup_nil _)).
  assert (Hperm : Permutation (map fst (sorted_desc scores)) (map fst scores))
    by (apply Permutation_map, sorted_desc_perm).
  rewrite map_map. rewrite (map_ext _ fst) by now intros [d s].
  split.
  - intros d. split.
    + intros Hin. apply (Permutation_in _ Hperm) in Hin.
      apply Hkeys in Hin as [[]|Hin].
      apply in_map_iff in Hin as ([token [d' tf]] & <- & Hin).
      apply query_postings_in in Hin. exists token, tf. exact Hin.
    + intros (token & tf & Ht & Hp).
      apply (Permutation_in _ (Permutation_sym Hperm)). apply Hkeys. right.
      apply in_map_iff. exists (token, (d, tf)). split; [reflexivity|].
      apply query_postings_in. auto.
  - intros d s m Hin. apply in_map_iff in Hin as ([d' s'] & [= -> -> <-] & Hin).
    split; [reflexivity|].
    apply (Permutation_in _ (sorted_desc_perm scores)) in Hin.
    destruct (Hsum d) as (vs & Hvs & Hscore). exists vs. split; [exact Hvs|].
    unfold score_of in Hscore. rewrite (dict_get_in _ _ _ Hnd Hin) in Hscore.
    simpl in Hscore. lra.
Qed.

Lemma sum_list_pos (vs : list R) :
  Forall (fun v => (0 < v)%R) vs -> vs <> [] -> (0 < sum_list vs)%R.
Proof.
  induction 1 as [|v vs Hv Hvs IH]; intros Hne; [congruence|].
  simpl. destruct vs as [|v' vs]; [simpl; lra|].
  assert (0 < sum_list (v' :: vs))%R by (apply IH; discriminate).
  lra.
Qed.

Lemma mapM_Forall {A B} (f : A -> result B) (P : B -> Prop) (l : list A) (out : list B) :
  mapM f l = Ok out ->
  (forall a b, In a l -> f a = Ok b -> P b) ->
  Forall P out /\ length out = length l.
Proof.
  revert out. induction l as [|a l IH]; intros out H HP; simpl in H.
  - injection H as <-. split; [constructor|reflexivity].
  - apply bind_ok in H as (b & Hb & H). apply bind_ok in H as (bs & Hbs & [= <-]).
    destruct (IH bs Hbs) as [IH1 IH2]; [intros a' b' Ha'; apply HP; now right|].
    split; [constructor; [apply (HP a); [now left|exact Hb]|exact IH1]|].
    simpl. now rewrite IH2.
Qed.

(** On a loaded index every returned score is positive. *)
Lemma loaded_scores_pos (docs : list doc_entry) (query : string)
  (results : list (string * R * Metadata)) :
  List.NoDup (map doc_title docs) ->
  CustomIndex.search_index (populate docs) query = Ok results ->
  forall d s m, In (d, s, m) results -> (0 < s)%R.
Proof.
  intros Hnd H d s m Hin.
  destruct (search_index_entries _ _ _ H) as [Hdocs Hentry].
  destruct (Hentry d s m Hin) as (_ & vs & Hvs & Hs).
  assert (Hd : In d (map (fun r : string * R * Metadata => fst (fst r)) results))
    by (apply in_map_iff; exists (d, s, m); auto).
  apply Hdocs in Hd as (token & tf & Ht & Hp).
  unfold hit_scores in Hvs. rewrite Hs. clear Hs Hin.
  destruct (mapM_Forall _ (fun v => (0 < v)%R) _ _ Hvs) as [Hall Hlen].
  - intros [token' [d' tf']] v Ha Hv. simpl in Hv.
    apply List.filter_In in Ha as [Ha Hd']. simpl in Hd'.
    apply String.eqb_eq in Hd'. subst d'.
    apply query_postings_in in Ha as [_ Hp'].
    destruct (loaded_posting_scored docs token' d tf' Hnd Hp')
      as (l & _ & Hl1 & Htf & Havg & Hok).
    rewrite Hok in Hv. injection Hv as <-.
    apply loaded_bm25_pos; [exact Hnd|exact Havg|lia|exact Htf].
  - apply sum_list_pos; [exact Hall|].
    intros ->. simpl in Hlen.
    assert (Hhit : In (token, (d, tf))
                      (hits d (query_postings (populate docs) (document_tokens query)))).
    { apply List.filter_In. split; [now apply query_postings_in|].
      simpl. apply String.eqb_refl. }
    destruct (hits d _); [destruct Hhit|discriminate].
Qed.

(** X11: on an index loaded with distinct titles, for every query the
    search returns a list; a document is listed exactly when one of its
    tokens is one of the query tokens; each listed document has a positive
    score and comes with the metadata it was added with. *)
Theorem loaded_search_finds (docs : list doc_entry) (query : string) :
  List.NoDup (map doc_title docs) ->
  exists results,
    CustomIndex.search_index (populate docs) query = Ok results /\
    (forall d,
       In d (map (fun r => fst (fst r)) results) <->
       exists doc token,
         In doc docs /\ doc_title doc = d /\
         In token (document_tokens query) /\ In token (doc_tokens doc)) /\
    (forall d s m,
       In (d, s, m) results ->
       (0 < s)%R /\ exists doc, In doc docs /\ doc_title doc = d /\ m = doc_meta doc).
Proof.
  intros Hnd.
  destruct (loaded_search_returns docs query Hnd) as [results H].
  exists results. split; [exact H|].
  destruct (search_index_entries _ _ _ H) as [Hdocs Hentry].
  split.
  - intros d. rewrite Hdocs. split.
    + intros (token & tf & Ht & Hp).
      apply populate_postings_iff in Hp as (doc & Hdoc & Htitle & Hterm & _).
      exists doc, token. auto.
    + intros (doc & token & Hdoc & Htitle & Ht & Hterm).
      exists token, (Z.of_nat (count_occ string_dec (doc_tokens doc) token)).
      split; [exact Ht|]. apply populate_postings_iff. exists doc. auto.
  - intros d s m Hin. split; [now apply (loaded_scores_pos docs query results Hnd H d s m)|].
    destruct (Hentry d s m Hin) as (Hm & _).
    assert (Hd : In d (map (fun r : string * R * Metadata => fst (fst r)) results))
      by (apply in_map_iff; exists (d, s, m); auto).
    apply Hdocs in Hd as (token & tf & _ & Hp).
    apply populate_postings_iff in Hp as (doc & Hdoc & Htitle & _).
    exists doc. split; [exact Hdoc|]. split; [exact Htitle|].
    rewrite Hm, <- Htitle.
    pose proof (populate_metadata_lookup docs doc Hnd Hdoc) as E.
    unfold Metadata in *. now rewrite E.
Qed.

Lemma loaded_search_finds_witness :
  exists results,
    CustomIndex.search_index (populate [("A", ["xx"], []); ("B", ["xx"; "yy"], [])]) "yy"
      = Ok results /\
    forall d s m, In (d, s, m) results -> (0 < s)%R.
Proof.
  destruct (loaded_search_finds [("A", ["xx"], []); ("B", ["xx"; "yy"], [])] "yy"
              two_docs_NoDup) as (results & H & _ & Hpos).
  exists results. split; [exact H|].
  intros d s m Hin. now destruct (Hpos d s m Hin).
Defined.

(** ** The orchestrator on a loaded index *)

Lemma normalize_scaled (res : list (string * R)) (max_score min_score : R) :
  (max_score - min_score <> 0)%R ->
  mapM (fun kv => q <- py_div (snd kv - min_score)%R (max_score - min_score)%R ;;
                  Ok (fst kv, q)) res =
  Ok (map (fun kv => (fst kv, ((snd kv - min_score) / (max_score - min_score))%R)) res).
Proof.
  intros Hne. induction res as [|kv res IH]; [reflexivity|].
  simpl. rewrite py_div_ok by exact Hne. simpl. now rewrite IH.
Qed.

Lemma normalize_returns (res : list (string * R)) :
  (forall d s, In (d, s) res -> (0 < s)%R) ->
  exists out, normalize res = Ok out /\ map fst out = map fst res.
Proof.
  intros Hpos. unfold normalize.
  destruct (map snd res) as [|v vs] eqn:Hvals.
  - destruct res; [|discriminate]. exists []. split; reflexivity.
  - destruct (py_max_spec vs v) as [Hmax Hmax_in].
    destruct (py_min_spec vs v) as [Hmin Hmin_in].
    set (mx := py_max v vs) in *. set (mn := py_min v vs) in *.
    assert (Hmx : (0 < mx)%R).
    { rewrite <- Hvals in Hmax_in. apply in_map_iff in Hmax_in as ([d s] & E & Hin).
      simpl in E. subst s. now apply (Hpos d). }
    assert (Hne : (mx - (if Rlt_dec mn mx then mn else 0) <> 0)%R)
      by (destruct (Rlt_dec mn mx); lra).
    rewrite (normalize_scaled res _ _ Hne).
    eexists. split; [reflexivity|]. rewrite map_map. reflexivity.
Qed.

Lemma loaded_results_docs (docs : list doc_entry) (query : string)
  (results : list (string * R * Metadata)) :
  CustomIndex.search_index (populate docs) query = Ok results ->
  forall d,
    In d (map (fun r => fst (fst r)) results) <->
    exists doc token,
      In doc docs /\ doc_title doc = d /\
      In token (document_tokens query) /\ In token (doc_tokens doc).
Proof.
  intros H d. destruct (search_index_entries _ _ _ H) as [Hdocs _].
  rewrite Hdocs. split.
  - intros (token & tf & Ht & Hp).
    apply populate_postings_iff in Hp as (doc & Hdoc & Htitle & Hterm & _).
    exists doc, token. auto.
  - intros (doc & token & Hdoc & Htitle & Ht & Hterm).
    exists token, (Z.of_nat (count_occ string_dec (doc_tokens doc) token)).
    split; [exact Ht|]. apply populate_postings_iff. exists doc. auto.
Qed.

(** X12: on an index loaded with distinct titles the body of the [try]
    statement of the orchestrator never raises, so no failure is turned
    into an empty mapping: for every query the function returns a mapping
    whose keys are, in ranking order, the documents that share a token
    with the query; it is empty exactly when no document does. *)
Theorem loaded_orchestrator_returns (docs : list doc_entry) (query : string) :
  List.NoDup (map doc_title docs) ->
  exists raw res,
    CustomIndex.search_index (populate docs) query = Ok raw /\
    search_index_body query (populate docs) = Ok res /\
    search_index query (Some (populate docs)) = Ok res /\
    map fst res = map (fun r => fst (fst r)) raw /\
    (forall d,
       In d (map fst res) <->
       exists doc token,
         In doc docs /\ doc_title doc = d /\
         In token (document_tokens query) /\ In token (doc_tokens doc)).
Proof.
  intros Hnd.
  destruct (loaded_search_returns docs query Hnd) as [raw Hraw].
  destruct (normalize_returns (first_seen raw)) as (res & Hres & Hkeys).
  { rewrite (first_seen_results _ _ _ Hraw). intros d s Hin.
    apply in_map_iff in Hin as ([[d' s'] m] & [= <- <-] & Hin).
    now apply (loaded_scores_pos docs query raw Hnd Hraw d' s' m). }
  rewrite (first_seen_results _ _ _ Hraw), map_map in Hkeys. simpl in Hkeys.
  assert (Hbody : search_index_body query (populate docs) = Ok res)
    by (unfold search_index_body; rewrite Hraw; exact Hres).
  exists raw, res. split; [exact Hraw|]. split; [exact Hbody|].
  split; [simpl; now rewrite Hbody|]. split; [exact Hkeys|].
  intros d. rewrite Hkeys. now apply loaded_results_docs.
Qed.

Lemma loaded_orchestrator_returns_witness :
  exists res,
    search_index "yy" (Some (populate [("A", ["xx"], []); ("B", ["xx"; "yy"], [])]))
      = Ok res.
Proof.
  destruct (loaded_orchestrator_returns [("A", ["xx"], []); ("B", ["xx"; "yy"], [])]
              "yy" two_docs_NoDup) as (raw & res & _ & _ & H & _).
  exists res. exact H.
Defined.

Lemma normalize_lookup (res out : list (string * R)) (v : R) (vs : list R) (d : string) (s : R) :
  map snd res = v :: vs ->
  normalize res = Ok out ->
  List.NoDup (map fst res) ->
  In (d, s) res ->
  let max_score := py_max v vs in
  let min_score := if Rlt_dec (py_min v vs) max_score then py_min v vs else 0%R in
  dict_get d out = Some ((s - min_score) / (max_score - min_score))%R.
Proof.
  intros Hvals Hnorm Hnd Hin max_score min_score.
  destruct (normalize_ok res out v vs Hvals Hnorm) as [_ ->].
  fold max_score. fold min_score.
  apply dict_get_in.
  - rewrite map_map. exact Hnd.
  - apply in_map_iff. exists (d, s). split; [reflexivity|exact Hin].
Qed.

(** The search for [xx] in the corpus of [A = xx] and [B = xx yy]: both
    documents are found, and the shorter one scores strictly higher. *)
Lemma two_docs_search :
  exists vA vB : R,
    (0 < vB < vA)%R /\
    CustomIndex.search_index (populate [("A", ["xx"], []); ("B", ["xx"; "yy"], [])]) "xx" =
      Ok [("A", (0 + vA)%R, []); ("B", (0 + vB)%R, [])].
Proof.
  destruct two_docs_postings as [Hxx _].
  pose proof two_docs_NoDup as Hnd. pose proof two_docs_avg_pos as Havg.
  pose proof (loaded_df_le _ Hnd "xx") as Hdf.
  destruct (populate_constants [("A", ["xx"], []); ("B", ["xx"; "yy"], [])]) as [Hk Hb].
  assert (HlA : CustomIndex.doc_lengths
                  (populate [("A", ["xx"], []); ("B", ["xx"; "yy"], [])]) !! "A" =
                Some 1%Z)
    by (apply (populate_doc_lengths_lookup _ ("A", ["xx"], []) Hnd); now left).
  assert (HlB : CustomIndex.doc_lengths
                  (populate [("A", ["xx"], []); ("B", ["xx"; "yy"], [])]) !! "B" =
                Some 2%Z)
    by (apply (populate_doc_lengths_lookup _ ("B", ["xx"; "yy"], []) Hnd);
        right; now left).
  assert (HmA : CustomIndex.metadata
                  (populate [("A", ["xx"], []); ("B", ["xx"; "yy"], [])]) !! "A" =
                Some [])
    by (apply (populate_metadata_lookup _ ("A", ["xx"], []) Hnd); now left).
  assert (HmB : CustomIndex.metadata
                  (populate [("A", ["xx"], []); ("B", ["xx"; "yy"], [])]) !! "B" =
                Some [])
    by (apply (populate_metadata_lookup _ ("B", ["xx"; "yy"], []) Hnd);
        right; now left).
  pose proof (loaded_bm25 _ Havg "A" "xx" 1 1 HlA ltac:(lia)) as HokA.
  pose proof (loaded_bm25 _ Havg "B" "xx" 2 1 HlB ltac:(lia)) as HokB.
  pose proof (loaded_bm25_pos _ 2 1 "xx" Hnd Havg ltac:(lia) ltac:(lia)) as HposB.
  pose proof (idf_pos _ _ Hdf) as Hidf.
  unfold Metadata in *.
  remember (populate [("A", ["xx"], []); ("B", ["xx"; "yy"], [])]) as self eqn:Hself.
  exists (bm25_value self 1 "xx" 1), (bm25_value self 2 "xx" 1).
  assert (Hlt : (bm25_value self 2 "xx" 1 < bm25_value self 1 "xx" 1)%R).
  { unfold bm25_value. rewrite Hk, Hb.
    set (idf := ln _) in *.
    pose proof (saturation_pos 1.2 0.75 _ 1 eq_refl eq_refl Havg ltac:(lia)) as H1.
    pose proof (saturation_pos 1.2 0.75 _ 2 eq_refl eq_refl Havg ltac:(lia)) as H2.
    assert (Hratio : (IZR 1 / CustomIndex.avg_doc_length self <
                      IZR 2 / CustomIndex.avg_doc_length self)%R).
    { apply Rmult_lt_compat_r; [now apply Rinv_0_lt_compat|lra]. }
    apply Rmult_lt_compat_l; [exact Hidf|].
    apply div_lt_cross; lra. }
  split; [split; [exact HposB|exact Hlt]|].
  unfold CustomIndex.search_index. rewrite search_loops_flat.
  fold (document_tokens "xx"). rewrite query_xx.
  unfold query_postings. simpl flat_map. rewrite Hxx. simpl.
  unfold CustomIndex.score_step. simpl. rewrite HokA. simpl. rewrite HokB. simpl.
  destruct (Rlt_dec (0 + bm25_value self 1 "xx" 1) (0 + bm25_value self 2 "xx" 1));
    [lra|].
  cbn [map]. unfold Metadata in *. now rewrite HmA, HmB.
Qed.

(** On an index loaded with distinct titles the orchestrator returns the
    documents of the ranking, in its order. *)
Lemma loaded_body_returns (docs : list doc_entry) (query : string) :
  List.NoDup (map doc_title docs) ->
  exists raw res,
    CustomIndex.search_index (populate docs) query = Ok raw /\
    search_index query (Some (populate docs)) = Ok res /\
    map fst res = map (fun r => fst (fst r)) raw.
Proof.
  intros Hnd.
  destruct (loaded_search_returns docs query Hnd) as [raw Hraw].
  destruct (normalize_returns (first_seen raw)) as (res & Hres & Hkeys).
  { rewrite (first_seen_results _ _ _ Hraw). intros d s Hin.
    apply in_map_iff in Hin as ([[d' s'] m] & [= <- <-] & Hin).
    now apply (loaded_scores_pos docs query raw Hnd Hraw d' s' m). }
  rewrite (first_seen_results _ _ _ Hraw), map_map in Hkeys. simpl in Hkeys.
  exists raw, res. split; [exact Hraw|]. split; [|exact Hkeys].
  simpl. unfold search_index_body. rewrite Hraw. simpl. now rewrite Hres.
Qed.

(** X13: the normalization keeps the ranking: of two documents of a
    non-empty mapping, the one with the lower raw score never gets the
    higher normalized value; and when the raw scores are not all equal, a
    document with the lowest raw score is mapped to 0. *)
Theorem search_index_keeps_order (query : string) (index : option CustomIndex.t)
  (res : list (string * R)) :
  search_index query index = Ok res ->
  res <> [] ->
  exists idx raw,
    index = Some idx /\ CustomIndex.search_index idx query = Ok raw /\
    (forall d1 s1 m1 d2 s2 m2,
       In (d1, s1, m1) raw -> In (d2, s2, m2) raw -> (s1 <= s2)%R ->
       exists n1 n2,
         dict_get d1 res = Some n1 /\ dict_get d2 res = Some n2 /\ (n1 <= n2)%R) /\
    (forall d s m d' s' m',
       In (d, s, m) raw -> In (d', s', m') raw -> (s < s')%R ->
       (forall d'' s'' m'', In (d'', s'', m'') raw -> (s <= s'')%R) ->
       dict_get d res = Some 0%R).
Proof.
  intros H Hne.
  destruct (search_index_nonempty _ _ _ H Hne) as (idx & raw & -> & Hraw & Hnorm).
  exists idx, raw. split; [reflexivity|]. split; [exact Hraw|].
  rewrite (first_seen_results idx query raw Hraw) in Hnorm.
  set (res0 := map (fun r : string * R * Metadata => (fst (fst r), snd (fst r))) raw) in *.
  assert (Hnd : List.NoDup (map fst res0)).
  { unfold res0. rewrite map_map. simpl.
    now apply (search_index_docs_NoDup idx query). }
  assert (Hin0 : forall d s m, In (d, s, m) raw -> In (d, s) res0).
  { intros d s m Hin. apply in_map_iff. exists (d, s, m). auto. }
  destruct (map snd res0) as [|v vs] eqn:Hvals.
  { destruct res0; [|discriminate]. injection Hnorm as <-. congruence. }
  destruct (normalize_ok res0 res v vs Hvals Hnorm) as [Hdiv _]. simpl in Hdiv.
  pose proof (fun d s Hin => normalize_lookup res0 res v vs d s Hvals Hnorm Hnd Hin) as Hget.
  simpl in Hget.
  destruct (py_max_spec vs v) as [Hmax Hmax_in].
  destruct (py_min_spec vs v) as [Hmin Hmin_in].
  rewrite <- Hvals in Hmax, Hmin, Hmax_in, Hmin_in.
  set (mx := py_max v vs) in *. set (mn := py_min v vs) in *.
  assert (Hval : forall d s, In (d, s) res0 -> (mn <= s <= mx)%R).
  { intros d s Hin. apply (in_map snd) in Hin. split; [now apply Hmin|now apply Hmax]. }
  split.
  - intros d1 s1 m1 d2 s2 m2 H1 H2 Hle.
    apply Hin0 in H1, H2.
    eexists. eexists. split; [apply (Hget _ _ H1)|]. split; [apply (Hget _ _ H2)|].
    destruct (Hval _ _ H1). destruct (Hval _ _ H2).
    destruct (Rlt_dec mn mx) as [Hlt|Hge].
    + apply Rmult_le_compat_r; [left; apply Rinv_0_lt_compat; lra|lra].
    + assert (s1 = s2) as -> by lra. lra.
  - intros d s m d' s' m' H1 H2 Hlt Hlow.
    apply Hin0 in H1, H2. rewrite (Hget _ _ H1).
    destruct (Hval _ _ H1). destruct (Hval _ _ H2).
    destruct (Rlt_dec mn mx) as [_|Hge]; [|lra].
    assert (s = mn) as ->.
    { apply in_map_iff in Hmin_in as ([d0 s0] & E & Hin'). simpl in E. subst s0.
      apply in_map_iff in Hin' as ([[d1 s1] m1] & [= <- <-] & Hin').
      specialize (Hlow _ _ _ Hin'). lra. }
    f_equal. unfold Rdiv. rewrite Rminus_diag. apply Rmult_0_l.
Qed.

Lemma search_index_keeps_order_witness :
  exists res nA,
    search_index "xx" (Some (populate [("A", ["xx"], []); ("B", ["xx"; "yy"], [])])) =
      Ok res /\
    map fst res = ["A"; "B"] /\
    dict_get "A" res = Some nA /\ dict_get "B" res = Some 0%R /\ (0 <= nA)%R.
Proof.
  destruct (loaded_body_returns [("A", ["xx"], []); ("B", ["xx"; "yy"], [])] "xx"
              two_docs_NoDup) as (raw0 & res & Hraw0 & Hres & Hkeys).
  destruct two_docs_search as (vA & vB & [HvB Hlt] & Hsearch).
  rewrite Hsearch in Hraw0. injection Hraw0 as <-. simpl in Hkeys.
  assert (Hne : res <> []) by (intros ->; discriminate).
  destruct (search_index_keeps_order _ _ _ Hres Hne)
    as (idx & raw & E & Hraw & Hord & Hlow).
  injection E as <-. rewrite Hsearch in Hraw. injection Hraw as <-.
  assert (HB : dict_get "B" res = Some 0%R).
  { apply (Hlow "B" (0 + vB)%R [] "A" (0 + vA)%R []);
      [right; now left|now left|lra|].
    intros d s m [[= <- <- <-]|[[= <- <- <-]|[]]]; lra. }
  destruct (Hord "B" (0 + vB)%R [] "A" (0 + vA)%R [])
    as (nB & nA & HnB & HnA & Hle); [right; now left|now left|lra|].
  exists res, nA. split; [exact Hres|]. split; [exact Hkeys|].
  split; [exact HnA|]. split; [exact HB|].
  rewrite HB in HnB. injection HnB as <-. exact Hle.
Defined.

(** ** The builders *)

Lemma docs_loop_done
  (file_cache : (string -> list string) -> string -> result (list string))
  (done : list (string * string)) (tokens : list (list string)) :
  Forall2 (fun d toks => compute_document_tokens file_cache (snd d) = Ok toks)
          done tokens ->
  forall rest index,
    docs_loop file_cache
      (map (fun '(url, content) => Documentation.mk url content) done ++ rest) index =
    docs_loop file_cache rest
      (fold_left (fun index d =>
                    CustomIndex.add_document index (doc_title d) (doc_tokens d) (doc_meta d))
                 (map page_entry (combine done tokens)) index).
Proof.
  induction 1 as [|[url content] toks done tokens Hd _ IH]; intros rest index;
    [reflexivity|].
  simpl in Hd. simpl. rewrite Hd. apply IH.
Qed.

(** X14: [prepare_index_from_docs] returns [None] for no page.  When every
    page can be tokenized it returns the index of all pages, added in
    order under their URLs.  When the tokenization of a page raises
    [FileNotFoundError] it returns the index of exactly the pages before
    that one: the failing page and the pages after it are not added.  Any
    other exception leaves the function. *)
Theorem prepare_index_from_docs_spec
  (file_cache : (string -> list string) -> string -> result (list string)) :
  prepare_index_from_docs file_cache [] = Ok None /\
  (forall docs tokens,
     docs <> [] ->
     Forall2 (fun d toks => compute_document_tokens file_cache (snd d) = Ok toks)
             docs tokens ->
     prepare_index_from_docs file_cache docs =
       Ok (Some (populate (map page_entry (combine docs tokens))))) /\
  (forall done tokens failing rest e,
     Forall2 (fun d toks => compute_document_tokens file_cache (snd d) = Ok toks)
             done tokens ->
     compute_document_tokens file_cache (snd failing) = Raise e ->
     prepare_index_from_docs file_cache (done ++ failing :: rest) =
       match e with
       | FileNotFoundError =>
           Ok (Some (populate (map page_entry (combine done tokens))))
       | _ => Raise e
       end).
Proof.
  split; [reflexivity|]. split.
  - intros docs tokens Hne H. unfold prepare_index_from_docs. cbv zeta.
    assert (E : (length (map (fun '(url, content) => Documentation.mk url content) docs)
                 =? 0)%nat = false)
      by (destruct docs; [congruence|reflexivity]).
    rewrite E.
    rewrite <- (app_nil_r (map _ docs)).
    rewrite (docs_loop_done file_cache docs tokens H). reflexivity.
  - intros done tokens [url content] rest e H He. unfold prepare_index_from_docs. cbv zeta.
    assert (E : (length (map (fun '(url, content) => Documentation.mk url content)
                           (done ++ (url, content) :: rest)) =? 0)%nat = false)
      by (rewrite length_map, length_app; simpl; apply Nat.eqb_neq; lia).
    rewrite E, map_app.
    rewrite (docs_loop_done file_cache done tokens H). simpl in He. simpl. rewrite He.
    destruct e; reflexivity.
Qed.

Lemma prepare_index_from_docs_spec_witness :
  prepare_index_from_docs
    (fun f content => if String.eqb content "gone" then Raise FileNotFoundError
                      else Ok (f content))
    [("u1", "fooBar"); ("u2", "gone"); ("u3", "baz")] =
  Ok (Some (populate [("u1", ["foo"; "bar"; "foo_bar"], [])])).
Proof.
  destruct (prepare_index_from_docs_spec
              (fun f content => if String.eqb content "gone" then Raise FileNotFoundError
                                else Ok (f content))) as (_ & _ & H).
  apply (H [("u1", "fooBar")] [["foo"; "bar"; "foo_bar"]] ("u2", "gone") [("u3", "baz")]
           FileNotFoundError).
  - constructor; [vm_compute; reflexivity|constructor].
  - reflexivity.
Defined.

Lemma tokenize_loop_tokens
  (file_cache : (string -> list string) -> string -> result (list string))
  (TicketProgress : Type)
  (set_indexing_progress : TicketProgress -> Z -> TicketProgress)
  (save : TicketProgress -> result unit)
  (all_docs : list Document) :
  forall i acc tp all tp',
    foldM (tokenize_step file_cache TicketProgress set_indexing_progress save)
          (combine (seq i (length all_docs)) all_docs) (acc, tp) = Ok (all, tp') ->
    exists tokens,
      all = acc ++ tokens /\
      Forall2 (fun doc toks => compute_document_tokens file_cache (content doc) = Ok toks)
              all_docs tokens.
Proof.
  induction all_docs as [|doc all_docs IH]; intros i acc tp all tp' H.
  - injection H as <- _. exists []. split; [now rewrite app_nil_r|constructor].
  - simpl in H. apply bind_ok in H as ([acc1 tp1] & Hstep & Hrest).
    apply bind_ok in Hstep as (toks & Htoks & Hstep).
    assert (Hacc : acc1 = acc ++ [toks]).
    { cbv zeta in Hstep. destruct tp as [t|]; [|now inversion Hstep].
      destruct (_ =? _)%nat; [|now inversion Hstep].
      apply bind_ok in Hstep as (u & _ & Hstep). now inversion Hstep. }
    subst acc1. destruct (IH _ _ _ _ _ Hrest) as (tokens & -> & Hall).
    exists (toks :: tokens). split; [now rewrite <- app_assoc|].
    constructor; assumption.
Qed.

Lemma index_loop_entries
  (items : list (Document * list string)) :
  forall index,
    fold_left index_step items index =
    fold_left (fun index d =>
                 CustomIndex.add_document index (doc_title d) (doc_tokens d) (doc_meta d))
              (map snippet_entry items) index.
Proof.
  induction items as [|[doc toks] items IH]; intros index; [reflexivity|].
  simpl. apply IH.
Qed.

(** X15: [prepare_index_from_snippets] never returns a partly loaded
    index.  The index it returns is either empty (the tokenization pass
    ended with [FileNotFoundError], before any document was added) or the
    index of all snippets, added in order under the titles
    [path:start-end], each with the tokens computed for its content. *)
Theorem prepare_index_from_snippets_all_or_nothing
  (get_snippet : Snippet -> string)
  (file_cache : (string -> list string) -> string -> result (list string))
  (TicketProgress : Type)
  (set_indexing_total set_indexing_progress : TicketProgress -> Z -> TicketProgress)
  (save : TicketProgress -> result unit)
  (snippets : list Snippet) (len_repo_cache_dir : nat)
  (ticket_progress : option TicketProgress) (index : CustomIndex.t) :
  prepare_index_from_snippets get_snippet file_cache TicketProgress
    set_indexing_total set_indexing_progress save
    snippets len_repo_cache_dir ticket_progress = Ok (Some index) ->
  let all_docs := snippets_to_docs get_snippet snippets len_repo_cache_dir in
  index = populate [] \/
  exists all_tokens,
    Forall2 (fun doc toks => compute_document_tokens file_cache (content doc) = Ok toks)
            all_docs all_tokens /\
    index = populate (map snippet_entry (combine all_docs all_tokens)).
Proof.
  intros H all_docs. unfold prepare_index_from_snippets in H. cbv zeta in H.
  fold all_docs in H.
  destruct (length all_docs =? 0)%nat; [discriminate|].
  apply bind_ok in H as (tp & _ & H). unfold build_body in H.
  destruct (foldM _ (enumerate all_docs) ([], tp)) as [[all_tokens tp']|e] eqn:Hloop.
  - injection H as <-. right.
    apply tokenize_loop_tokens in Hloop as (tokens & -> & Hall).
    exists tokens. split; [exact Hall|].
    rewrite app_nil_l. apply index_loop_entries.
  - destruct e; try discriminate. injection H as <-. now left.
Qed.

Lemma prepare_index_from_snippets_all_or_nothing_witness :
  populate [("a.py:0-1", ["foo"; "bar"; "foo_bar"], [])] = populate [] \/
  exists all_tokens,
    Forall2 (fun doc toks =>
               compute_document_tokens (fun f content => Ok (f content)) (content doc)
               = Ok toks)
            (snippets_to_docs snippet_content [mkSnippet "a.py" "fooBar" 0 1] 0)
            all_tokens /\
    populate [("a.py:0-1", ["foo"; "bar"; "foo_bar"], [])] =
    populate (map snippet_entry
                (combine (snippets_to_docs snippet_content [mkSnippet "a.py" "fooBar" 0 1] 0)
                         all_tokens)).
Proof.
  apply (prepare_index_from_snippets_all_or_nothing snippet_content
           (fun f content => Ok (f content)) unit (fun tp _ => tp) (fun tp _ => tp)
           (fun _ => Ok tt) [mkSnippet "a.py" "fooBar" 0 1] 0%nat None
           (populate [("a.py:0-1", ["foo"; "bar"; "foo_bar"], [])])).
  reflexivity.
Defined.

(** ** Collapsing repeated documents *)

Lemma dict_mem_get {V} (k : string) (d : list (string * V)) :
  dict_mem k d = match dict_get k d with Some _ => true | None => false end.
Proof.
  unfold dict_mem, dict_get. induction d as [|[k' v] d IH]; simpl; [reflexivity|].
  destruct (String.eqb k' k); simpl; [reflexivity|exact IH].
Qed.

Lemma dict_get_app {V} (k : string) (d1 d2 : list (string * V)) :
  dict_get k (d1 ++ d2) =
  match dict_get k d1 with Some v => Some v | None => dict_get k d2 end.
Proof.
  unfold dict_get. induction d1 as [|[k' v] d1 IH]; simpl; [reflexivity|].
  destruct (String.eqb k' k); simpl; [reflexivity|exact IH].
Qed.

Lemma dict_get_none_keys {V} (k : string) (d : list (string * V)) :
  dict_get k d = None <-> ~ In k (map fst d).
Proof.
  unfold dict_get. induction d as [|[k' v] d IH]; simpl; [tauto|].
  destruct (String.eqb_spec k' k) as [->|Hne]; simpl.
  - split; [discriminate|tauto].
  - rewrite IH. tauto.
Qed.

Lemma NoDup_snoc {A} (l : list A) (x : A) :
  List.NoDup l -> ~ In x l -> List.NoDup (l ++ [x]).
Proof.
  induction l as [|y l IH]; simpl; intros Hnd Hx.
  - constructor; [intros []|constructor].
  - inversion Hnd as [|? ? Hy Hl]; subst. constructor.
    + rewrite in_app_iff. simpl. intros [H|[H|[]]]; [contradiction|].
      apply Hx. now left.
    + apply IH; [exact Hl|]. intros H. apply Hx. now right.
Qed.

Lemma first_seen_loop_any (results : list (string * R * Metadata)) :
  forall res,
    List.NoDup (map fst res) ->
    let out := fold_left (fun res r =>
                            let '(doc_id, score, _) := r in
                            if dict_mem doc_id res then res else res ++ [(doc_id, score)])
                         results res in
    List.NoDup (map fst out) /\
    forall d,
      dict_get d out =
      match dict_get d res with
      | Some v => Some v
      | None => option_map (fun r => snd (fst r))
                  (find (fun r => String.eqb (fst (fst r)) d) results)
      end.
Proof.
  induction results as [|[[d0 s0] m0] results IH]; intros res Hnd; simpl.
  - split; [exact Hnd|]. intros d. now destruct (dict_get d res).
  - rewrite dict_mem_get. destruct (dict_get d0 res) as [v0|] eqn:E0.
    + destruct (IH res Hnd) as [H1 H2]. split; [exact H1|].
      intros d. rewrite H2. destruct (dict_get d res) eqn:E; [reflexivity|].
      destruct (String.eqb_spec d0 d) as [->|Hne]; [congruence|reflexivity].
    + assert (Hnd' : List.NoDup (map fst (res ++ [(d0, s0)]))).
      { rewrite map_app. simpl. apply NoDup_snoc; [exact Hnd|].
        now apply dict_get_none_keys in E0. }
      destruct (IH _ Hnd') as [H1 H2]. split; [exact H1|].
      intros d. rewrite H2, dict_get_app.
      destruct (dict_get d res) eqn:E; [reflexivity|].
      unfold dict_get at 1. simpl.
      destruct (String.eqb_spec d0 d) as [->|Hne]; reflexivity.
Qed.

(** X16: the loop of the orchestrator over the results keeps one entry per
    document, and when a document is listed more than once it keeps the
    score of its first listing. *)
Theorem first_seen_keeps_first (results : list (string * R * Metadata)) (d : string) :
  List.NoDup (map fst (first_seen results)) /\
  dict_get d (first_seen results) =
    option_map (fun r => snd (fst r))
      (find (fun r => String.eqb (fst (fst r)) d) results).
Proof.
  destruct (first_seen_loop_any results [] (List.NoDup_nil _)) as [H1 H2].
  split; [exact H1|]. apply H2.
Qed.

(** ** The order of insertion *)

Lemma populate_postings_perm (docs docs' : list doc_entry) (term : string) :
  Permutation docs docs' ->
  Permutation (CustomIndex.postings (populate docs) term)
              (CustomIndex.postings (populate docs') term).
Proof.
  intros Hperm. rewrite !populate_postings.
  induction Hperm as [|x l l' _ IH|x y l|l l' l'' _ IH1 _ IH2]; simpl.
  - constructor.
  - now apply Permutation_app_head.
  - rewrite !app_assoc. apply Permutation_app_tail, Permutation_app_comm.
  - now transitivity
      (flat_map (fun d => contribution (doc_title d) term (Counter (doc_tokens d))) l').
Qed.

Lemma populate_doc_lengths_perm (docs docs' : list doc_entry) :
  Permutation docs docs' ->
  List.NoDup (map doc_title docs) ->
  CustomIndex.doc_lengths (populate docs) = CustomIndex.doc_lengths (populate docs').
Proof.
  intros Hperm Hnd.
  assert (Hnd' : List.NoDup (map doc_title docs'))
    by (apply (Permutation_NoDup (Permutation_map doc_title Hperm)); exact Hnd).
  apply map_eq. intros t.
  destruct (CustomIndex.doc_lengths (populate docs) !! t) as [l|] eqn:E.
  - assert (Hin : In t (map doc_title docs)) by (apply populate_doc_lengths_dom; eauto).
    apply in_map_iff in Hin as (doc & <- & Hdoc).
    rewrite (populate_doc_lengths_lookup docs doc Hnd Hdoc) in E.
    rewrite (populate_doc_lengths_lookup docs' doc Hnd'
               (Permutation_in _ Hperm Hdoc)). congruence.
  - destruct (CustomIndex.doc_lengths (populate docs') !! t) as [l|] eqn:E'; [|reflexivity].
    assert (Hin : In t (map doc_title docs')) by (apply populate_doc_lengths_dom; eauto).
    apply (Permutation_in _ (Permutation_sym (Permutation_map doc_title Hperm))) in Hin.
    apply populate_doc_lengths_dom in Hin as [l' Hl']. congruence.
Qed.

Lemma populate_avg_perm (docs docs' : list doc_entry) :
  Permutation docs docs' ->
  List.NoDup (map doc_title docs) ->
  CustomIndex.avg_doc_length (populate docs) = CustomIndex.avg_doc_length (populate docs').
Proof.
  intros Hperm Hnd. destruct docs as [|d docs].
  - apply Permutation_nil in Hperm. now subst docs'.
  - rewrite !populate_avg_doc_length.
    + now rewrite (populate_doc_lengths_perm _ _ Hperm Hnd).
    + intros ->. apply Permutation_sym, Permutation_nil in Hperm. discriminate.
    + discriminate.
Qed.

Lemma bm25_perm (docs docs' : list doc_entry) (d term : string) (tf : Z) :
  Permutation docs docs' ->
  List.NoDup (map doc_title docs) ->
  CustomIndex.bm25 (populate docs) d term tf = CustomIndex.bm25 (populate docs') d term tf.
Proof.
  intros Hperm Hnd. unfold CustomIndex.bm25.
  rewrite (populate_doc_lengths_perm _ _ Hperm Hnd).
  rewrite (populate_avg_perm _ _ Hperm Hnd).
  rewrite (Permutation_length (populate_postings_perm docs docs' term Hperm)).
  destruct (populate_constants docs) as [-> ->].
  destruct (populate_constants docs') as [-> ->].
  reflexivity.
Qed.

(** X17: for documents with distinct titles the score [bm25] gives on the
    loaded index does not depend on the order in which the documents were
    added: permuting the insertions changes no document count, no document
    length, no posting count and not the average length. *)
Theorem bm25_insertion_order (docs docs' : list doc_entry) (d term : string) (tf : Z) :
  Permutation docs docs' ->
  List.NoDup (map doc_title docs) ->
  CustomIndex.doc_lengths (populate docs) = CustomIndex.doc_lengths (populate docs') /\
  CustomIndex.avg_doc_length (populate docs) = CustomIndex.avg_doc_length (populate docs') /\
  length (CustomIndex.postings (populate docs) term) =
    length (CustomIndex.postings (populate docs') term) /\
  CustomIndex.bm25 (populate docs) d term tf = CustomIndex.bm25 (populate docs') d term tf.
Proof.
  intros Hperm Hnd.
  split; [now apply populate_doc_lengths_perm|].
  split; [now apply populate_avg_perm|].
  split; [apply Permutation_length; now apply populate_postings_perm|].
  now apply bm25_perm.
Qed.

Lemma bm25_insertion_order_witness :
  CustomIndex.bm25 (populate [("A", ["xx"], []); ("B", ["xx"; "yy"], [])]) "A" "xx" 1 =
  CustomIndex.bm25 (populate [("B", ["xx"; "yy"], []); ("A", ["xx"], [])]) "A" "xx" 1.
Proof.
  apply (bm25_insertion_order [("A", ["xx"], []); ("B", ["xx"; "yy"], [])]
           [("B", ["xx"; "yy"], []); ("A", ["xx"], [])] "A" "xx" 1).
  - apply perm_swap.
  - exact two_docs_NoDup.
Defined.

Lemma filter_perm {A} (f : A -> bool) (l l' : list A) :
  Permutation l l' -> Permutation (List.filter f l) (List.filter f l').
Proof.
  induction 1 as [|x l l' _ IH|x y l|l l' l'' _ IH1 _ IH2]; simpl.
  - constructor.
  - destruct (f x); [now constructor|exact IH].
  - destruct (f x), (f y); try reflexivity. apply perm_swap.
  - now transitivity (List.filter f l').
Qed.

Lemma mapM_perm {A B} (f : A -> result B) (l l' : list A) :
  Permutation l l' ->
  forall vs, mapM f l = Ok vs -> exists vs', mapM f l' = Ok vs' /\ Permutation vs vs'.
Proof.
  induction 1 as [|x l l' _ IH|x y l|l l' l'' _ IH1 _ IH2]; intros vs H.
  - exists vs. split; [exact H|reflexivity].
  - simpl in H. apply bind_ok in H as (b & Hb & H).
    apply bind_ok in H as (bs & Hbs & [= <-]).
    destruct (IH bs Hbs) as (bs' & Hbs' & Hp).
    exists (b :: bs'). simpl. rewrite Hb. simpl. rewrite Hbs'. simpl.
    split; [reflexivity|now constructor].
  - simpl in H. apply bind_ok in H as (b & Hb & H).
    apply bind_ok in H as (bs & H & [= <-]).
    apply bind_ok in H as (b' & Hb' & H).
    apply bind_ok in H as (bs' & Hbs' & [= <-]).
    exists (b' :: b :: bs'). simpl. rewrite Hb'. simpl. rewrite Hb. simpl.
    rewrite Hbs'. simpl. split; [reflexivity|apply perm_swap].
  - destruct (IH1 vs H) as (vs' & H' & Hp1).
    destruct (IH2 vs' H') as (vs'' & H'' & Hp2).
    exists vs''. split; [exact H''|now transitivity vs'].
Qed.

Lemma mapM_ext {A B} (f g : A -> result B) (l : list A) :
  (forall a, f a = g a) -> mapM f l = mapM g l.
Proof.
  intros H. induction l as [|a l IH]; simpl; [reflexivity|]. now rewrite H, IH.
Qed.

Lemma sum_list_perm (vs vs' : list R) :
  Permutation vs vs' -> sum_list vs = sum_list vs'.
Proof.
  induction 1 as [|x l l' _ IH|x y l|l l' l'' _ IH1 _ IH2]; simpl; lra.
Qed.

Lemma query_postings_perm (docs docs' : list doc_entry) (query_tokens : list string) :
  Permutation docs docs' ->
  Permutation (query_postings (populate docs) query_tokens)
              (query_postings (populate docs') query_tokens).
Proof.
  intros Hperm. unfold query_postings.
  induction query_tokens as [|token query_tokens IH]; simpl; [constructor|].
  apply Permutation_app; [|exact IH].
  apply Permutation_map. now apply populate_postings_perm.
Qed.

(** The entries of the list returned for a permuted load are entries of
    the list returned for the load. *)
Lemma search_perm_incl (docs docs' : list doc_entry) (query : string)
  (results results' : list (string * R * Metadata)) :
  Permutation docs docs' ->
  List.NoDup (map doc_title docs) ->
  CustomIndex.search_index (populate docs) query = Ok results ->
  CustomIndex.search_index (populate docs') query = Ok results' ->
  forall d s m, In (d, s, m) results -> In (d, s, m) results'.
Proof.
  intros Hperm Hnd H H' d s m Hin.
  assert (Hnd' : List.NoDup (map doc_title docs'))
    by (apply (Permutation_NoDup (Permutation_map doc_title Hperm)); exact Hnd).
  destruct (search_index_entries _ _ _ H) as [_ Hentry].
  destruct (search_index_entries _ _ _ H') as [_ Hentry'].
  destruct (Hentry d s m Hin) as (Hm & vs & Hvs & Hs).
  assert (Hd : In d (map (fun r : string * R * Metadata => fst (fst r)) results))
    by (apply in_map_iff; exists (d, s, m); auto).
  apply (loaded_results_docs docs query results H) in Hd
    as (doc & token & Hdoc & Htitle & Ht & Hterm).
  assert (Hd' : In d (map (fun r : string * R * Metadata => fst (fst r)) results')).
  { apply (loaded_results_docs docs' query results' H').
    exists doc, token. split; [now apply (Permutation_in _ Hperm)|auto]. }
  apply in_map_iff in Hd' as ([[d' s'] m'] & Hd' & Hin'). simpl in Hd'. subst d'.
  destruct (Hentry' d s' m' Hin') as (Hm' & vs' & Hvs' & Hs').
  assert (Es : s' = s).
  { unfold hit_scores in Hvs, Hvs'.
    rewrite (mapM_ext _ (fun tp => CustomIndex.bm25 (populate docs') d (fst tp) (snd (snd tp))))
      in Hvs by (intros tp; now apply bm25_perm).
    destruct (mapM_perm _ _ _
                (filter_perm (fun tp => String.eqb (fst (snd tp)) d) _ _
                   (query_postings_perm docs docs' (document_tokens query) Hperm))
                vs Hvs) as (vs'' & Hvs'' & Hp).
    unfold hits in Hvs'. rewrite Hvs' in Hvs''. injection Hvs'' as <-.
    rewrite Hs, Hs'. symmetry. now apply sum_list_perm. }
  assert (Em : m' = m).
  { rewrite Hm, Hm', <- Htitle.
    pose proof (populate_metadata_lookup docs doc Hnd Hdoc) as E.
    pose proof (populate_metadata_lookup docs' doc Hnd' (Permutation_in _ Hperm Hdoc)) as E'.
    unfold Metadata in *. now rewrite E, E'. }
  rewrite <- Es, <- Em. exact Hin'.
Qed.

(** X18: for documents with distinct titles the search returns the same
    documents with the same scores and metadata whatever the order in which
    the documents were added; only the order of the list may differ. *)
Theorem search_insertion_order (docs docs' : list doc_entry) (query : string) :
  Permutation docs docs' ->
  List.NoDup (map doc_title docs) ->
  exists results results',
    CustomIndex.search_index (populate docs) query = Ok results /\
    CustomIndex.search_index (populate docs') query = Ok results' /\
    forall d s m, In (d, s, m) results <-> In (d, s, m) results'.
Proof.
  intros Hperm Hnd.
  assert (Hnd' : List.NoDup (map doc_title docs'))
    by (apply (Permutation_NoDup (Permutation_map doc_title Hperm)); exact Hnd).
  destruct (loaded_search_returns docs query Hnd) as [results H].
  destruct (loaded_search_returns docs' query Hnd') as [results' H'].
  exists results, results'. split; [exact H|]. split; [exact H'|].
  intros d s m. split.
  - now apply (search_perm_incl docs docs' query results results').
  - apply (search_perm_incl docs' docs query results' results);
      [now apply Permutation_sym|assumption..].
Qed.

Lemma search_insertion_order_witness :
  exists results results',
    CustomIndex.search_index (populate [("A", ["xx"], []); ("B", ["xx"; "yy"], [])]) "xx"
      = Ok results /\
    CustomIndex.search_index (populate [("B", ["xx"; "yy"], []); ("A", ["xx"], [])]) "xx"
      = Ok results' /\
    forall d s m, In (d, s, m) results <-> In (d, s, m) results'.
Proof.
  apply (search_insertion_order [("A", ["xx"], []); ("B", ["xx"; "yy"], [])]
           [("B", ["xx"; "yy"], []); ("A", ["xx"], [])] "xx").
  - apply perm_swap.
  - exact two_docs_NoDup.
Defined.

(** ** Ties *)

Lemma existsb_eqb_in (d : string) (l : list string) :
  existsb (String.eqb d) l = true <-> In d l.
Proof.
  rewrite existsb_exists. split.
  - intros (x & Hx & E). apply String.eqb_eq in E. now subst.
  - intros H. exists d. split; [exact H|apply String.eqb_refl].
Qed.

Lemma scores_add_order (scores : list (string * R)) (doc_id : string) (v : R) :
  map fst (scores_add scores doc_id v) =
  if existsb (String.eqb doc_id) (map fst scores) then map fst scores
  else map fst scores ++ [doc_id].
Proof.
  induction scores as [|[d s] scores IH]; simpl; [reflexivity|].
  rewrite (String.eqb_sym doc_id d).
  destruct (String.eqb_spec d doc_id) as [->|Hne]; simpl; [reflexivity|].
  rewrite IH. now destruct (existsb (String.eqb doc_id) (map fst scores)).
Qed.

Lemma score_loop_order (self : CustomIndex.t) (visits : list (string * (string * Z))) :
  forall scores scores',
    foldM (fun scores tp => CustomIndex.score_step self (fst tp) scores (snd tp))
          visits scores = Ok scores' ->
    map fst scores' =
    fold_left (fun acc d => if existsb (String.eqb d) acc then acc else acc ++ [d])
              (map (fun tp => fst (snd tp)) visits) (map fst scores).
Proof.
  induction visits as [|[token [d0 tf]] visits IH]; intros scores scores' H.
  - now injection H as <-.
  - simpl in H. apply bind_ok in H as (scores1 & Hstep & Hrest).
    unfold CustomIndex.score_step in Hstep. simpl in Hstep.
    apply bind_ok in Hstep as (v & _ & [= <-]).
    rewrite (IH _ _ Hrest), scores_add_order. reflexivity.
Qed.

Lemma insert_desc_stable (v : R) (x : string * R) (l : list (string * R)) :
  List.filter (fun kv => has_score v (snd kv)) (insert_desc x l) =
  List.filter (fun kv => has_score v (snd kv)) (x :: l).
Proof.
  induction l as [|y l IH]; [reflexivity|].
  simpl insert_desc. destruct (Rlt_dec (snd x) (snd y)) as [Hlt|_]; [|reflexivity].
  simpl in *. rewrite IH. unfold has_score.
  destruct (Req_dec_T (snd y) v), (Req_dec_T (snd x) v); try reflexivity. lra.
Qed.

Lemma sorted_desc_stable (v : R) (l : list (string * R)) :
  List.filter (fun kv => has_score v (snd kv)) (sorted_desc l) =
  List.filter (fun kv => has_score v (snd kv)) l.
Proof.
  induction l as [|x l IH]; [reflexivity|].
  simpl sorted_desc. rewrite insert_desc_stable. simpl. now rewrite IH.
Qed.

Lemma dict_get_perm {V} (l l' : list (string * V)) (d : string) :
  Permutation l l' -> List.NoDup (map fst l) -> dict_get d l = dict_get d l'.
Proof.
  intros Hperm Hnd.
  assert (Hnd' : List.NoDup (map fst l'))
    by (apply (Permutation_NoDup (Permutation_map fst Hperm)); exact Hnd).
  destruct (dict_get d l) as [v|] eqn:E.
  - apply dict_get_some_in in E. apply (Permutation_in _ Hperm) in E.
    symmetry. now apply dict_get_in.
  - destruct (dict_get d l') as [v'|] eqn:E'; [|reflexivity].
    apply dict_get_some_in in E'. apply (Permutation_in _ (Permutation_sym Hperm)) in E'.
    apply (dict_get_in _ _ _ Hnd) in E'. congruence.
Qed.

Lemma filter_keys_by_score (v : R) (l : list (string * R)) :
  List.NoDup (map fst l) ->
  map fst (List.filter (fun kv => has_score v (snd kv)) l) =
  List.filter (fun d => match dict_get d l with
                        | Some s => has_score v s
                        | None => false
                        end) (map fst l).
Proof.
  induction l as [|[d s] l IH]; intros Hnd; [reflexivity|].
  inversion Hnd as [|? ? Hnotin Hnd']; subst. simpl.
  unfold dict_get at 1. simpl. rewrite String.eqb_refl. simpl.
  assert (E : List.filter (fun d0 => match dict_get d0 ((d, s) :: l) with
                                     | Some s0 => has_score v s0
                                     | None => false
                                     end) (map fst l) =
              List.filter (fun d0 => match dict_get d0 l with
                                     | Some s0 => has_score v s0
                                     | None => false
                                     end) (map fst l)).
  { apply filter_ext_in. intros d' Hd'. unfold dict_get. simpl.
    destruct (String.eqb_spec d d') as [->|_]; [contradiction|reflexivity]. }
  rewrite E, <- (IH Hnd'). now destruct (has_score v s).
Qed.

Lemma twin_docs_NoDup :
  List.NoDup (map doc_title [("B", ["xx"], []); ("A", ["xx"], [])]).
Proof.
  simpl. constructor; [simpl; intros [H|[]]; discriminate|].
  constructor; [intros []|constructor].
Qed.

(** The search for [xx] in the corpus of [B = xx] and [A = xx]: the two
    documents get the same score and stay in the order of the postings. *)
Lemma twin_docs_search :
  exists v : R,
    (0 < v)%R /\
    query_postings (populate [("B", ["xx"], []); ("A", ["xx"], [])]) (document_tokens "xx") =
      [("xx", ("B", 1%Z)); ("xx", ("A", 1%Z))] /\
    CustomIndex.search_index (populate [("B", ["xx"], []); ("A", ["xx"], [])]) "xx" =
      Ok [("B", (0 + v)%R, []); ("A", (0 + v)%R, [])].
Proof.
  assert (Hxx : CustomIndex.postings (populate [("B", ["xx"], []); ("A", ["xx"], [])]) "xx" =
                [("B", 1%Z); ("A", 1%Z)])
    by (rewrite populate_postings; vm_compute; reflexivity).
  pose proof twin_docs_NoDup as Hnd.
  destruct (loaded_posting_scored _ "xx" "B" 1 Hnd) as (lB & HlB & _ & _ & Havg & HokB);
    [rewrite Hxx; now left|].
  destruct (loaded_posting_scored _ "xx" "A" 1 Hnd) as (lA & HlA & _ & _ & _ & HokA);
    [rewrite Hxx; right; now left|].
  assert (ElB : lB = 1%Z).
  { pose proof (populate_doc_lengths_lookup _ ("B", ["xx"], []) Hnd ltac:(now left)) as H.
    change (doc_title ("B", ["xx"], [])) with "B" in H.
    rewrite H in HlB. now injection HlB as <-. }
  assert (ElA : lA = 1%Z).
  { pose proof (populate_doc_lengths_lookup _ ("A", ["xx"], []) Hnd
                  ltac:(right; now left)) as H.
    change (doc_title ("A", ["xx"], [])) with "A" in H.
    rewrite H in HlA. now injection HlA as <-. }
  subst lA lB.
  assert (HmB : CustomIndex.metadata
                  (populate [("B", ["xx"], []); ("A", ["xx"], [])]) !! "B" = Some [])
    by (apply (populate_metadata_lookup _ ("B", ["xx"], []) Hnd); now left).
  assert (HmA : CustomIndex.metadata
                  (populate [("B", ["xx"], []); ("A", ["xx"], [])]) !! "A" = Some [])
    by (apply (populate_metadata_lookup _ ("A", ["xx"], []) Hnd); right; now left).
  pose proof (loaded_bm25_pos _ 1 1 "xx" Hnd Havg ltac:(lia) ltac:(lia)) as Hpos.
  remember (populate [("B", ["xx"], []); ("A", ["xx"], [])]) as self eqn:Hself.
  exists (bm25_value self 1 "xx" 1). split; [exact Hpos|].
  assert (Hq : query_postings self (document_tokens "xx") =
               [("xx", ("B", 1%Z)); ("xx", ("A", 1%Z))]).
  { rewrite query_xx. unfold query_postings. simpl flat_map. now rewrite Hxx. }
  split; [exact Hq|].
  unfold CustomIndex.search_index. rewrite search_loops_flat.
  fold (document_tokens "xx"). rewrite Hq. simpl.
  unfold CustomIndex.score_step. simpl. rewrite HokB. simpl. rewrite HokA. simpl.
  destruct (Rlt_dec (0 + bm25_value self 1 "xx" 1) (0 + bm25_value self 1 "xx" 1));
    [lra|].
  cbn [map]. unfold Metadata in *. now rewrite HmA, HmB.
Qed.

(** X19: in the list [CustomIndex.search_index] returns, documents with
    the same score are listed in the order in which the scoring loops first
    reached them (query tokens in order, and for each token its postings
    in order): the sort is stable and starts from the insertion order of
    the score dictionary. *)
Theorem search_index_ties (self : CustomIndex.t) (query : string)
  (results : list (string * R * Metadata)) (v : R) :
  CustomIndex.search_index self query = Ok results ->
  let ranked := map (fun r => (fst (fst r), snd (fst r))) results in
  map fst (List.filter (fun kv => has_score v (snd kv)) ranked) =
  List.filter (fun d => match dict_get d ranked with
                        | Some s => has_score v s
                        | None => false
                        end)
    (first_occurrences
       (map (fun tp => fst (snd tp)) (query_postings self (document_tokens query)))).
Proof.
  intros H ranked.
  apply search_index_scores in H as (scores & Hloop & ->).
  destruct (score_loop _ _ _ _ Hloop) as (Hnd & _ & _).
  specialize (Hnd (List.NoDup_nil _)).
  assert (Hranked : ranked = sorted_desc scores).
  { unfold ranked. rewrite map_map. rewrite <- (map_id (sorted_desc scores)) at 2.
    apply map_ext. now intros [d s]. }
  rewrite Hranked, sorted_desc_stable.
  rewrite (filter_keys_by_score v scores Hnd).
  pose proof (score_loop_order _ _ _ _ Hloop) as Horder.
  change (map fst (@nil (string * R))) with (@nil string) in Horder.
  unfold first_occurrences. rewrite <- Horder.
  apply filter_ext. intros d.
  now rewrite <- (dict_get_perm _ _ d (Permutation_sym (sorted_desc_perm scores)) Hnd).
Qed.

Lemma search_index_ties_witness :
  exists v : R,
    CustomIndex.search_index (populate [("B", ["xx"], []); ("A", ["xx"], [])]) "xx" =
      Ok [("B", v, []); ("A", v, [])] /\
    map fst (List.filter (fun kv => has_score v (snd kv)) [("B", v); ("A", v)]) =
      ["B"; "A"] /\
    first_occurrences
      (map (fun tp => fst (snd tp))
         (query_postings (populate [("B", ["xx"], []); ("A", ["xx"], [])])
            (document_tokens "xx"))) = ["B"; "A"].
Proof.
  destruct twin_docs_search as (v & _ & Hq & H).
  exists (0 + v)%R. split; [exact H|].
  pose proof (search_index_ties _ _ _ (0 + v)%R H) as Hties.
  cbv zeta in Hties. rewrite Hq in Hties.
  change (map (fun r : string * R * Metadata => (fst (fst r), snd (fst r)))
            [("B", (0 + v)%R, []); ("A", (0 + v)%R, [])])
    with [("B", (0 + v)%R); ("A", (0 + v)%R)] in Hties.
  assert (Hfirst : first_occurrences
                     (map (fun tp : string * (string * Z) => fst (snd tp))
                        [("xx", ("B", 1%Z)); ("xx", ("A", 1%Z))]) = ["B"; "A"])
    by reflexivity.
  rewrite Hfirst in Hties. rewrite Hq, Hfirst. split; [|reflexivity].
  rewrite Hties. unfold dict_get, has_score. simpl.
  destruct (Req_dec_T (0 + v) (0 + v)) as [_|Hne]; [reflexivity|congruence].
Defined.

(** ** Where the matcher stands *)

Lemma cursor_in_step (code : string) (cur : cursor) (c : ascii) (t : string) :
  cursor_in code cur -> c_rest cur = String c t ->
  cursor_in code (Cursor (Some c) (S (c_off cur)) t).
Proof.
  intros (pre & Hcode & Hlen) Hrest. exists (String.append pre (String c "")). simpl.
  split.
  - rewrite Hcode, Hrest, <- str_app_assoc. reflexivity.
  - rewrite str_length_app. simpl. lia.
Qed.

Lemma greedy_inv (code : string) (p : ascii -> bool) (Q : cursor -> Prop) (s : string) :
  forall prev off k,
    cursor_in code (Cursor prev off s) ->
    (forall cur', cursor_in code cur' -> (off <= c_off cur')%nat ->
                  forall e, k cur' = Some e -> Q e) ->
    forall e, greedy p prev off s k = Some e -> Q e.
Proof.
  induction s as [|c t IH]; intros prev off k Hcur Hk e H; simpl in H; [discriminate|].
  destruct (p c); [|discriminate].
  pose proof (cursor_in_step code (Cursor prev off (String c t)) c t Hcur eq_refl) as Hnext.
  simpl in Hnext.
  destruct (greedy p (Some c) (S off) t k) as [e'|] eqn:E.
  - injection H as <-. apply (IH (Some c) (S off) k Hnext); [|exact E].
    intros cur' Hcur' Hoff. apply Hk; [exact Hcur'|lia].
  - apply (Hk _ Hnext); [simpl; lia|exact H].
Qed.

Lemma rmatch_inv (code : string) (r : regex) :
  forall (Q : cursor -> Prop) cur k,
    cursor_in code cur ->
    (forall cur', cursor_in code cur' -> (c_off cur <= c_off cur')%nat ->
                  forall e, k cur' = Some e -> Q e) ->
    forall e, rmatch r cur k = Some e -> Q e.
Proof.
  induction r as [p|p|r1 IH1 r2 IH2|r1 IH1 r2 IH2|r1 IH1| |];
    intros Q cur k Hcur Hk e H; simpl in H.
  - destruct (c_rest cur) as [|c t] eqn:Hrest; [discriminate|].
    destruct (p c); [|discriminate].
    apply (Hk _ (cursor_in_step code cur c t Hcur Hrest)); [simpl; lia|exact H].
  - destruct cur as [prev off s]. simpl in *.
    now apply (greedy_inv code p Q s prev off k Hcur Hk).
  - apply (IH1 Q cur (fun cur' => rmatch r2 cur' k) Hcur); [|exact H].
    intros cur' Hcur' Hoff e' H'.
    apply (IH2 Q cur' k Hcur'); [|exact H'].
    intros cur'' Hcur'' Hoff'. apply Hk; [exact Hcur''|lia].
  - destruct (rmatch r1 cur k) as [e'|] eqn:E.
    + injection H as <-. now apply (IH1 Q cur k Hcur Hk).
    + now apply (IH2 Q cur k Hcur Hk).
  - destruct (rmatch r1 cur Some); [|discriminate].
    apply (Hk cur Hcur); [lia|exact H].
  - destruct (c_rest cur) as [|c [|c' t]]; [| |discriminate].
    + apply (Hk cur Hcur); [lia|exact H].
    + destruct (Ascii.eqb c "010"); [|discriminate].
      apply (Hk cur Hcur); [lia|exact H].
  - destruct (xorb _ _); [|discriminate].
    apply (Hk cur Hcur); [lia|exact H].
Qed.

Lemma rmatch_end (code : string) (r : regex) (cur e : cursor) :
  cursor_in code cur -> rmatch r cur Some = Some e ->
  cursor_in code e /\ (c_off cur <= c_off e)%nat.
Proof.
  intros Hcur H.
  apply (rmatch_inv code r (fun e => cursor_in code e /\ (c_off cur <= c_off e)%nat)
           cur Some Hcur); [|exact H].
  intros cur' Hcur' Hoff e' [= <-]. auto.
Qed.

Lemma cursor_in_bound (code : string) (cur : cursor) :
  cursor_in code cur -> (c_off cur <= String.length code)%nat.
Proof.
  intros (pre & -> & <-). rewrite str_length_app. lia.
Qed.

(** Every span [finditer] reports lies inside the text. *)
Lemma finditer_from_spans (code : string) (r : regex) (fuel : nat) :
  forall cur,
    cursor_in code cur ->
    Forall (fun m => (fst m <= snd m <= String.length code)%nat)
           (finditer_from fuel r cur).
Proof.
  induction fuel as [|fuel IH]; intros cur Hcur; simpl; [constructor|].
  assert (Hadvance :
            Forall (fun m => (fst m <= snd m <= String.length code)%nat)
                   match c_rest cur with
                   | String c t => finditer_from fuel r (Cursor (Some c) (S (c_off cur)) t)
                   | EmptyString => []
                   end).
  { destruct (c_rest cur) as [|c t] eqn:Hrest; [constructor|].
    apply IH. now apply (cursor_in_step code cur c t). }
  destruct (rmatch r cur Some) as [e|] eqn:E; [|exact Hadvance].
  destruct (rmatch_end code r cur e Hcur E) as [He Hoff].
  pose proof (cursor_in_bound code e He).
  destruct (c_off e =? c_off cur)%nat; constructor; simpl; try lia; auto.
Qed.

Lemma finditer_spans (code : string) (r : regex) :
  Forall (fun m => (fst m <= snd m <= String.length code)%nat) (finditer r code).
Proof.
  apply finditer_from_spans. exists "". split; reflexivity.
Qed.

(** ** Where the offsets are right *)

Lemma substring_prefix (txt post : string) :
  substring 0 (String.length txt) (String.append txt post) = txt.
Proof.
  induction txt as [|c txt IH].
  - rewrite str_app_nil_l. now destruct post.
  - rewrite str_app_cons. simpl. now rewrite IH.
Qed.

Lemma substring_app_exact (pre txt post : string) :
  substring (String.length pre) (String.length txt)
            (String.append pre (String.append txt post)) = txt.
Proof.
  induction pre as [|c pre IH]; [rewrite str_app_nil_l; apply substring_prefix|].
  rewrite str_app_cons. simpl. exact IH.
Qed.

Lemma slice_app_exact (pre txt post : string) (a b : nat) :
  a = String.length pre -> b = (a + String.length txt)%nat ->
  slice (String.append pre (String.append txt post)) a b = txt.
Proof.
  intros -> ->. unfold slice.
  replace (String.length pre + String.length txt - String.length pre)%nat
    with (String.length txt) by lia.
  apply substring_app_exact.
Qed.

Lemma str_split_at (s : string) :
  forall n, (n <= String.length s)%nat ->
            exists u v, s = String.append u v /\ String.length u = n.
Proof.
  induction s as [|c s IH]; intros n Hn.
  - exists "", "". simpl in Hn. split; [reflexivity|simpl; lia].
  - destruct n as [|n]; [exists "", (String c s); split; reflexivity|].
    simpl in Hn. destruct (IH n ltac:(lia)) as (u & v & -> & Hu).
    exists (String c u), v. split; [reflexivity|simpl; lia].
Qed.

Lemma span_decompose (code : string) (a b : nat) :
  (a <= b <= String.length code)%nat ->
  exists pre txt post,
    code = String.append pre (String.append txt post) /\
    String.length pre = a /\ String.length txt = (b - a)%nat /\
    slice code a b = txt.
Proof.
  intros [Hab Hb].
  destruct (str_split_at code a ltac:(lia)) as (pre & rest & -> & Hpre).
  rewrite str_length_app in Hb.
  destruct (str_split_at rest (b - a) ltac:(lia)) as (txt & post & -> & Htxt).
  exists pre, txt, post. split; [reflexivity|]. split; [exact Hpre|]. split; [exact Htxt|].
  apply slice_app_exact; lia.
Qed.

Lemma token_offsets_ok (code L part X : string) (start stop p ep : nat) :
  code = String.append L (String.append part X) ->
  start = String.length L -> stop = (start + String.length part)%nat ->
  offsets_ok code (mkToken (lower part) p start ep stop).
Proof.
  intros -> Hstart Hstop. unfold offsets_ok. simpl.
  now rewrite (slice_app_exact L part X start stop Hstart Hstop).
Qed.

Lemma concat_cons2 (sep p q : string) (rest : list string) :
  String.concat sep (p :: q :: rest) =
  String.append p (String.append sep (String.concat sep (q :: rest))).
Proof. reflexivity. Qed.

Lemma part_step_valid (code : string) (span_start sepn : nat) (st : tok_state)
  (part L X : string) :
  code = String.append L (String.append part X) ->
  String.length L = (span_start + ts_offset st)%nat ->
  Forall (offsets_ok code) (ts_valid st) ->
  Forall (offsets_ok code) (ts_valid (part_step span_start sepn st part)) /\
  ts_offset (part_step span_start sepn st part) =
    (ts_offset st + String.length part + sepn)%nat.
Proof.
  intros Hcode HL Hall. unfold part_step.
  destruct (check_valid_token part); simpl; [|auto].
  split; [|reflexivity].
  apply Forall_app. split; [exact Hall|]. constructor; [|constructor].
  apply (token_offsets_ok code L part X); [exact Hcode|lia|lia].
Qed.

Lemma part_loop_offsets (code sep : string) (span_start : nat) (parts : list string) :
  forall st L X,
    code = String.append L (String.append (String.concat sep parts) X) ->
    String.length L = (span_start + ts_offset st)%nat ->
    Forall (offsets_ok code) (ts_valid st) ->
    Forall (offsets_ok code)
           (ts_valid (fold_left (part_step span_start (String.length sep)) parts st)).
Proof.
  induction parts as [|p [|q rest] IH]; intros st L X Hcode HL Hall.
  - exact Hall.
  - simpl. simpl in Hcode.
    now destruct (part_step_valid code span_start (String.length sep) st p L X Hcode HL Hall).
  - rewrite concat_cons2 in Hcode.
    rewrite <- !str_app_assoc in Hcode.
    destruct (part_step_valid code span_start (String.length sep) st p L _ Hcode HL Hall)
      as [Hall' Hoff'].
    change (fold_left (part_step span_start (String.length sep)) (p :: q :: rest) st)
      with (fold_left (part_step span_start (String.length sep)) (q :: rest)
              (part_step span_start (String.length sep) st p)).
    apply (IH _ (String.append L (String.append p sep)) X); [| |exact Hall'].
    + rewrite Hcode. rewrite !str_app_assoc. reflexivity.
    + rewrite !str_length_app, Hoff'. lia.
Qed.

Lemma split_char_nonempty (c : ascii) (s : string) : split_char c s <> [].
Proof.
  destruct s as [|d t]; simpl; [discriminate|].
  destruct (Ascii.eqb c d); [discriminate|]. destruct (split_char c t); discriminate.
Qed.

Lemma split_char_concat (c : ascii) (s : string) :
  String.concat (String c "") (split_char c s) = s.
Proof.
  induction s as [|d t IH]; [reflexivity|]. simpl split_char.
  destruct (Ascii.eqb_spec c d) as [->|Hne].
  - pose proof (split_char_nonempty d t) as Hne.
    destruct (split_char d t) as [|p ps]; [congruence|].
    rewrite concat_cons2, IH. reflexivity.
  - destruct (split_char c t) as [|p ps] eqn:E; [now destruct (split_char_nonempty c t)|].
    destruct ps as [|q ps].
    + simpl in IH. simpl. now rewrite IH.
    + rewrite concat_cons2 in IH. rewrite concat_cons2, str_app_cons. now rewrite IH.
Qed.

Lemma match_step_offsets (code : string) (st : tok_state) (m : nat * nat) :
  (fst m <= snd m <= String.length code)%nat ->
  placed_word (slice code (fst m) (snd m)) ->
  Forall (offsets_ok code) (ts_valid st) ->
  Forall (offsets_ok code) (ts_valid (match_step code st m)).
Proof.
  intros Hspan Hplaced Hall. unfold match_step.
  destruct (span_decompose code (fst m) (snd m) Hspan)
    as (pre & txt & post & Hcode & Hpre & Htxt & Hslice).
  rewrite Hslice in *.
  destruct (contains_char "_" txt) eqn:Hsnake.
  - apply (part_loop_offsets code (String "_" "") (fst m) (split_char "_" txt) _ pre post).
    + now rewrite split_char_concat.
    + simpl. lia.
    + exact Hall.
  - destruct (findall variable_pattern txt) as [|p parts] eqn:Hparts.
    + unfold check_valid_token. destruct (1 <? String.length txt)%nat; [|exact Hall].
      simpl. apply Forall_app. split; [exact Hall|]. constructor; [|constructor].
      apply (token_offsets_ok code pre txt post); [exact Hcode|lia|lia].
    + destruct Hplaced as [H|[H|H]]; [congruence..|].
      apply (part_loop_offsets code "" (fst m) (p :: parts) _ pre post).
      * now rewrite <- Hparts, H.
      * simpl. lia.
      * exact Hall.
Qed.

(** X20: the offsets of every token delimit the part of the input it was
    made from (the lower-cased input between [startchar] and [endchar] is
    the token text) as soon as every word of the input has an underscore,
    or has no match of [variable_pattern], or is covered by the matches of
    [variable_pattern] without a gap.  The snake-case loop and the
    whole-word branch are always right; the camel-case loop is right
    exactly when [findall] skips no character. *)
Theorem tokenize_call_offsets (code : string) :
  Forall (fun m => placed_word (slice code (fst m) (snd m)))
         (finditer word_pattern code) ->
  Forall (offsets_ok code) (tokenize_call code).
Proof.
  intros Hplaced. unfold tokenize_call.
  pose proof (finditer_spans code word_pattern) as Hspans.
  assert (H : forall ms st,
             Forall (fun m => (fst m <= snd m <= String.length code)%nat) ms ->
             Forall (fun m => placed_word (slice code (fst m) (snd m))) ms ->
             Forall (offsets_ok code) (ts_valid st) ->
             Forall (offsets_ok code) (ts_valid (fold_left (match_step code) ms st))).
  { induction ms as [|m ms IH]; intros st Hs Hp Hall; [exact Hall|].
    inversion Hs; subst. inversion Hp; subst. simpl.
    apply IH; [assumption..|]. now apply match_step_offsets. }
  apply H; [exact Hspans|exact Hplaced|constructor].
Qed.

Lemma tokenize_call_offsets_witness :
  Forall (offsets_ok "get_user_name fooBar 123")
         (tokenize_call "get_user_name fooBar 123").
Proof.
  apply tokenize_call_offsets.
  assert (E : finditer word_pattern "get_user_name fooBar 123" =
              [(0, 13); (14, 20); (21, 24)]%nat) by (vm_compute; reflexivity).
  rewrite E.
  constructor; [left; reflexivity|].
  constructor; [right; right; reflexivity|].
  constructor; [right; left; reflexivity|].
  constructor.
Defined.

(** ** Adding a title twice *)

(** X21: [add_document] does not replace a document: adding the same
    title a second time leaves the number of documents unchanged, keeps the
    postings of the first call and appends those of the second, so a term
    of both token lists has one posting more than before for each call, and
    the stored length is that of the second call. *)
Theorem add_document_twice (self : CustomIndex.t) (title : string)
  (tokens1 tokens2 : list string) (meta1 meta2 : Metadata) (term : string) :
  In term tokens1 -> In term tokens2 ->
  let self1 := CustomIndex.add_document self title tokens1 meta1 in
  let self2 := CustomIndex.add_document self1 title tokens2 meta2 in
  size (CustomIndex.doc_lengths self2) = size (CustomIndex.doc_lengths self1) /\
  CustomIndex.doc_lengths self2 !! title = Some (Z.of_nat (length tokens2)) /\
  CustomIndex.postings self2 term =
    CustomIndex.postings self term ++
    [(title, Z.of_nat (count_occ string_dec tokens1 term));
     (title, Z.of_nat (count_occ string_dec tokens2 term))].
Proof.
  intros H1 H2 self1 self2. split; [|split].
  - subst self2 self1. simpl. rewrite map_size_insert_Some; [reflexivity|].
    rewrite lookup_insert_eq. eauto.
  - subst self2. simpl. apply lookup_insert_eq.
  - subst self2 self1. rewrite !add_document_postings.
    rewrite !contribution_dict_get by apply Counter_NoDup.
    rewrite !Counter_get.
    apply (count_occ_In string_dec) in H1, H2.
    destruct (count_occ string_dec tokens1 term); [lia|].
    destruct (count_occ string_dec tokens2 term); [lia|].
    now rewrite <- app_assoc.
Qed.

Lemma add_document_twice_witness :
  CustomIndex.postings
    (CustomIndex.add_document
       (CustomIndex.add_document CustomIndex.init "A" ["xx"] []) "A" ["xx"; "xx"] [])
    "xx" =
  CustomIndex.postings CustomIndex.init "xx" ++ [("A", 1%Z); ("A", 2%Z)].
Proof.
  destruct (add_document_twice CustomIndex.init "A" ["xx"] ["xx"; "xx"] [] [] "xx")
    as (_ & _ & H); [now left|now left|exact H].
Defined.

(** ** Addressing a section *)

Lemma py_getitem_nth {A} (l : list A) (i : nat) (x : A) :
  nth_error l i = Some x -> py_getitem l (Z.of_nat i) = Ok x.
Proof.
  intros H. unfold py_getitem.
  assert (i < length l)%nat by (apply nth_error_Some; congruence).
  destruct (Z.ltb_spec (Z.of_nat i) 0); [lia|].
  destruct (Z.leb_spec 0 (Z.of_nat i)); [|lia].
  destruct (Z.ltb_spec (Z.of_nat i) (Z.of_nat (length l))); [|lia].
  simpl. now rewrite Nat2Z.id, H.
Qed.

Lemma excel_value_shift (i : nat) :
  excel_col_to_int (int_to_excel_col (Z.of_nat i + 1)) = Z.of_nat i.
Proof.
  unfold excel_col_to_int. rewrite excel_value_round_trip by lia. lia.
Qed.

Lemma py_getitem_last {A} (l : list A) (x : A) :
  last l = Some x -> py_getitem l (-1) = Ok x.
Proof.
  destruct l as [|y l] using rev_ind; [discriminate|].
  rewrite last_snoc. intros [= ->]. unfold py_getitem.
  rewrite length_app. simpl length.
  change (-1 <? 0)%Z with true. cbv iota.
  destruct (Z.leb_spec 0 (Z.of_nat (length l + 1) + -1)); [|lia].
  destruct (Z.ltb_spec (Z.of_nat (length l + 1) + -1) (Z.of_nat (length l + 1))); [|lia].
  simpl andb. cbv iota.
  replace (Z.to_nat (Z.of_nat (length l + 1) + -1)) with (length l) by lia.
  rewrite nth_error_app2, Nat.sub_diag by lia. reflexivity.
Qed.

(** X22: the identifier shown for the chunk of rank [i] addresses that
    chunk: looked up, it gives the chunk of rank [i] of [new_chunks] when
    [i] is a rank of [chunks], and the "Could not find section" message
    otherwise.  The empty identifier is read as -1, passes the bound check
    and addresses the last chunk. *)
Theorem section_lookup_round_trip (file_path : string) (chunks new_chunks : list string)
  (i : nat) :
  length new_chunks = length chunks ->
  (forall chunk,
     nth_error new_chunks i = Some chunk ->
     section_lookup file_path chunks new_chunks (int_to_excel_col (Z.of_nat i + 1)) =
       Ok (inr chunk)) /\
  ((length chunks <= i)%nat ->
   exists message,
     section_lookup file_path chunks new_chunks (int_to_excel_col (Z.of_nat i + 1)) =
       Ok (inl message)) /\
  (forall chunk,
     last new_chunks = Some chunk ->
     section_lookup file_path chunks new_chunks "" = Ok (inr chunk)).
Proof.
  intros Hlen. split; [|split].
  - intros chunk Hnth. unfold section_lookup.
    rewrite excel_value_shift.
    assert (i < length new_chunks)%nat by (apply nth_error_Some; congruence).
    destruct (Z.leb_spec (Z.of_nat (length chunks)) (Z.of_nat i)); [lia|].
    now rewrite (py_getitem_nth _ _ _ Hnth).
  - intros Hi. unfold section_lookup. rewrite excel_value_shift.
    destruct (Z.leb_spec (Z.of_nat (length chunks)) (Z.of_nat i)); [|lia].
    eexists. reflexivity.
  - intros chunk Hlast. unfold section_lookup.
    change (excel_col_to_int "") with (-1)%Z.
    destruct (Z.leb_spec (Z.of_nat (length chunks)) (-1)); [lia|].
    now rewrite (py_getitem_last _ _ Hlast).
Qed.

Lemma section_lookup_round_trip_witness :
  section_lookup "a.py" ["c0"; "c1"; "c2"] ["c0"; "c1"; "c2"]
    (int_to_excel_col (Z.of_nat 1 + 1)) = Ok (inr "c1").
Proof.
  destruct (section_lookup_round_trip "a.py" ["c0"; "c1"; "c2"] ["c0"; "c1"; "c2"] 1
              eq_refl) as (H & _).
  apply H. reflexivity.
Defined.

(** ** The titles of the snippets and the progress sink *)

Lemma drop_prefix_app (pre rel : string) :
  drop_prefix (String.length pre) (String.append pre rel) = rel.
Proof.
  unfold drop_prefix. rewrite str_length_app.
  replace (String.length pre + String.length rel - String.length pre)%nat
    with (String.length rel) by lia.
  rewrite <- (str_app_nil_r rel) at 2. apply substring_app_exact.
Qed.

Lemma prepare_index_from_snippets_result
  (get_snippet : Snippet -> string)
  (file_cache : (string -> list string) -> string -> result (list string))
  (TicketProgress : Type)
  (set_indexing_total set_indexing_progress : TicketProgress -> Z -> TicketProgress)
  (save : TicketProgress -> result unit)
  (snippets : list Snippet) (len_repo_cache_dir : nat)
  (ticket_progress : option TicketProgress) (index : CustomIndex.t) :
  prepare_index_from_snippets get_snippet file_cache TicketProgress
    set_indexing_total set_indexing_progress save
    snippets len_repo_cache_dir ticket_progress = Ok (Some index) ->
  index = populate [] \/
  exists all_tokens,
    length all_tokens = length snippets /\
    index = populate (map snippet_entry
                        (combine (snippets_to_docs get_snippet snippets len_repo_cache_dir)
                                 all_tokens)).
Proof.
  intros H. unfold prepare_index_from_snippets in H. cbv zeta in H.
  destruct (length _ =? 0)%nat; [discriminate|].
  apply bind_ok in H as (tp & _ & H). unfold build_body in H.
  destruct (foldM _ (enumerate _) ([], tp)) as [[all_tokens tp']|e] eqn:Hloop.
  - injection H as <-. right.
    apply tokenize_loop_tokens in Hloop as (tokens & -> & Hall).
    exists tokens. split.
    + apply Forall2_length in Hall. unfold snippets_to_docs in Hall.
      rewrite length_map in Hall. congruence.
    + rewrite app_nil_l. apply index_loop_entries.
  - destruct e; try discriminate. injection H as <-. now left.
Qed.

Lemma nth_error_combine {A B} (l1 : list A) (l2 : list B) (i : nat) (a : A) (b : B) :
  nth_error l1 i = Some a -> nth_error l2 i = Some b ->
  nth_error (combine l1 l2) i = Some (a, b).
Proof.
  revert l1 l2. induction i as [|i IH]; intros [|x l1] [|y l2] H1 H2;
    simpl in *; try discriminate.
  - now injection H1 as ->; injection H2 as ->.
  - now apply IH.
Qed.

(** X23: when [prepare_index_from_snippets] returns an index that is not
    the empty one, every snippet is a document of it, and a snippet whose
    path starts with [len_repo_cache_dir] characters of cache directory is
    indexed under the rest of its path followed by [:start-end]. *)
Theorem prepare_index_from_snippets_titles
  (get_snippet : Snippet -> string)
  (file_cache : (string -> list string) -> string -> result (list string))
  (TicketProgress : Type)
  (set_indexing_total set_indexing_progress : TicketProgress -> Z -> TicketProgress)
  (save : TicketProgress -> result unit)
  (snippets : list Snippet) (len_repo_cache_dir : nat)
  (ticket_progress : option TicketProgress) (index : CustomIndex.t) :
  prepare_index_from_snippets get_snippet file_cache TicketProgress
    set_indexing_total set_indexing_progress save
    snippets len_repo_cache_dir ticket_progress = Ok (Some index) ->
  index = populate [] \/
  forall snippet prefix rel,
    In snippet snippets ->
    file_path snippet = String.append prefix rel ->
    String.length prefix = len_repo_cache_dir ->
    exists l,
      CustomIndex.doc_lengths index !!
        (rel ++ ":" ++ str_of_Z (snippet_start snippet) ++ "-" ++
         str_of_Z (snippet_end snippet))%string = Some l /\
      (0 <= l)%Z.
Proof.
  intros H.
  destruct (prepare_index_from_snippets_result _ _ _ _ _ _ _ _ _ _ H)
    as [->|(all_tokens & Hlen & ->)]; [now left|right].
  intros snippet prefix rel Hin Hpath Hprefix.
  set (docs := snippets_to_docs get_snippet snippets len_repo_cache_dir) in *.
  assert (Hdoc : In (mkDocument rel (get_snippet snippet)
                       (snippet_start snippet) (snippet_end snippet)) docs).
  { unfold docs, snippets_to_docs. apply in_map_iff. exists snippet.
    split; [|exact Hin]. rewrite Hpath, <- Hprefix, drop_prefix_app. reflexivity. }
  assert (Hlen' : length docs = length all_tokens)
    by (unfold docs, snippets_to_docs; rewrite length_map; congruence).
  apply In_nth_error in Hdoc as [i Hi].
  assert (Hi' : (i < length all_tokens)%nat)
    by (rewrite <- Hlen'; apply nth_error_Some; congruence).
  apply nth_error_Some in Hi'.
  destruct (nth_error all_tokens i) as [toks|] eqn:Ht; [|congruence].
  assert (Hentry : In (mkDocument rel (get_snippet snippet)
                         (snippet_start snippet) (snippet_end snippet), toks)
                      (combine docs all_tokens)).
  { apply (nth_error_In _ i). now apply nth_error_combine. }
  assert (Htitle :
            In (rel ++ ":" ++ str_of_Z (snippet_start snippet) ++ "-" ++
                str_of_Z (snippet_end snippet))%string
               (map doc_title (map snippet_entry (combine docs all_tokens)))).
  { rewrite map_map. apply in_map_iff. eexists. split; [|exact Hentry]. reflexivity. }
  apply populate_doc_lengths_dom in Htitle as [l Hl].
  exists l. split; [exact Hl|]. now apply populate_doc_lengths_nonneg in Hl.
Qed.

Lemma prepare_index_from_snippets_titles_witness :
  populate [("a.py:0-1", ["foo"; "bar"; "foo_bar"], [])] = populate [] \/
  forall snippet prefix rel,
    In snippet [mkSnippet "repo/a.py" "fooBar" 0 1] ->
    file_path snippet = String.append prefix rel ->
    String.length prefix = 5%nat ->
    exists l,
      CustomIndex.doc_lengths (populate [("a.py:0-1", ["foo"; "bar"; "foo_bar"], [])]) !!
        (rel ++ ":" ++ str_of_Z (snippet_start snippet) ++ "-" ++
         str_of_Z (snippet_end snippet))%string = Some l /\
      (0 <= l)%Z.
Proof.
  apply (prepare_index_from_snippets_titles snippet_content
           (fun f content => Ok (f content)) unit (fun tp _ => tp) (fun tp _ => tp)
           (fun _ => Ok tt) [mkSnippet "repo/a.py" "fooBar" 0 1] 5%nat None
           (populate [("a.py:0-1", ["foo"; "bar"; "foo_bar"], [])])).
  reflexivity.
Defined.

(** X24: a progress sink whose [save] raises stops the build.  Raised by
    the report of the total, before the [try] statement, the exception
    leaves the function, [FileNotFoundError] included.  Raised by the
    report of the first document (the rank 0 is always reported), it is a
    failure of the tokenization loop: [FileNotFoundError] gives the empty
    index and any other exception leaves the function. *)
Theorem progress_sink_failure
  (get_snippet : Snippet -> string)
  (file_cache : (string -> list string) -> string -> result (list string))
  (TicketProgress : Type)
  (set_indexing_total set_indexing_progress : TicketProgress -> Z -> TicketProgress)
  (save : TicketProgress -> result unit)
  (snippet : Snippet) (snippets : list Snippet) (len_repo_cache_dir : nat)
  (tp : TicketProgress) (e : exn) :
  let total := Z.of_nat (length (snippet :: snippets)) in
  (save (set_indexing_total tp total) = Raise e ->
   prepare_index_from_snippets get_snippet file_cache TicketProgress
     set_indexing_total set_indexing_progress save
     (snippet :: snippets) len_repo_cache_dir (Some tp) = Raise e) /\
  (forall tokens,
     save (set_indexing_total tp total) = Ok tt ->
     compute_document_tokens file_cache (get_snippet snippet) = Ok tokens ->
     save (set_indexing_progress (set_indexing_total tp total) 0%Z) = Raise e ->
     prepare_index_from_snippets get_snippet file_cache TicketProgress
       set_indexing_total set_indexing_progress save
       (snippet :: snippets) len_repo_cache_dir (Some tp) =
     match e with
     | FileNotFoundError => Ok (Some (populate []))
     | _ => Raise e
     end).
Proof.
  intros total.
  set (docs := snippets_to_docs get_snippet (snippet :: snippets) len_repo_cache_dir).
  assert (E : (length docs =? 0)%nat = false) by reflexivity.
  assert (Htotal : Z.of_nat (length docs) = total)
    by (unfold docs, snippets_to_docs, total; now rewrite length_map).
  split.
  - intros Hsave. unfold prepare_index_from_snippets. cbv zeta. fold docs.
    rewrite E. unfold start_progress. rewrite Htotal, Hsave. reflexivity.
  - intros tokens Hstart Htok Hsave.
    unfold prepare_index_from_snippets. cbv zeta. fold docs.
    rewrite E. unfold start_progress. rewrite Htotal, Hstart. cbn [bind].
    unfold build_body.
    assert (Hloop :
              foldM (tokenize_step file_cache TicketProgress set_indexing_progress save)
                    (enumerate docs) ([], Some (set_indexing_total tp total)) = Raise e).
    { change (enumerate docs)
        with ((0%nat, mkDocument (drop_prefix len_repo_cache_dir (file_path snippet))
                        (get_snippet snippet) (snippet_start snippet)
                        (snippet_end snippet))
              :: combine (seq 1 (length (snippets_to_docs get_snippet snippets
                                           len_repo_cache_dir)))
                         (snippets_to_docs get_snippet snippets len_repo_cache_dir)).
      cbn [foldM]. unfold tokenize_step at 1. cbn [content]. rewrite Htok. cbn [bind].
      change (0 mod 200 =? 0)%nat with true. cbv iota zeta.
      change (Z.of_nat 0) with 0%Z. rewrite Hsave. reflexivity. }
    rewrite Hloop. destruct e; reflexivity.
Qed.

Lemma progress_sink_failure_witness :
  prepare_index_from_snippets snippet_content (fun f content => Ok (f content))
    unit (fun tp _ => tp) (fun tp _ => tp) (fun _ => Raise FileNotFoundError)
    [mkSnippet "a.py" "fooBar" 0 1] 0 (Some tt) = Raise FileNotFoundError.
Proof.
  destruct (progress_sink_failure snippet_content (fun f content => Ok (f content))
              unit (fun tp _ => tp) (fun tp _ => tp) (fun _ => Raise FileNotFoundError)
              (mkSnippet "a.py" "fooBar" 0 1) [] 0 tt FileNotFoundError) as (H & _).
  apply H. reflexivity.
Defined.
